(** * Step-down price recovery: the deal scanner, the orchestrator and the
      variant price stepper of [src/index.js] and [src/unnamed/part_000]

    The two source files are two configurations of the same engine.  They
    share [adjustProductPrices] and [incrementVariantPrice] up to the price
    increment ([10] in [index.js], [priceIncrement = 9.99] in [part_000]) and
    differ in the deal tracker: a [Set] with a remote "started" marker in
    [index.js], a plain object mapping the deal id to a completion flag in
    [part_000].

    JavaScript numbers are IEEE 754 binary64 values; they are modelled with
    the executable specification [SpecFloat] of the standard library at
    [prec = 53], [emax = 1024], so every definition below can be evaluated. *)

From Stdlib Require Import ZArith List String Ascii Bool Lia DecimalString
  DecimalN.
From Stdlib Require Import Floats.SpecFloat.
From stdpp Require Import gmap strings.

Local Open Scope Z_scope.

(* ===================================================================== *)
(** * Part I.  JavaScript numbers and the built-ins the engine calls      *)
(* ===================================================================== *)

Module JS.

Definition prec : Z := 53.
Definition emax : Z := 1024.

Abbreviation number := spec_float.

Definition NaN : number := S754_nan.

Definition isNaN (x : number) : bool :=
  match x with S754_nan => true | _ => false end.

(** [x + y], [x - y], [x < y], [x <= y] and [x === y] on numbers. *)
Definition add : number -> number -> number := SFadd prec emax.
Definition sub : number -> number -> number := SFsub prec emax.
Definition lt : number -> number -> bool := SFltb.
Definition le : number -> number -> bool := SFleb.
Definition ge (x y : number) : bool := SFleb y x.
Definition strictEq : number -> number -> bool := SFeqb.

(** [Math.min(a, b)]: NaN if either argument is NaN, and -0 counts as
    smaller than +0. *)
Definition Math_min (a b : number) : number :=
  if isNaN a || isNaN b then NaN
  else if lt a b then a
  else if lt b a then b
  else match a with S754_zero true => a | _ => b end.

(** The number nearest to [d * 10^e10] (ties to even), with the sign
    [neg]; [d] is the integer spelled by the digits of a literal. *)
Definition of_decimal (neg : bool) (d : Z) (e10 : Z) : number :=
  match d with
  | Zpos m =>
      if 0 <=? e10 then
        binary_round prec emax neg (m * Z.to_pos (10 ^ e10)) 0
      else
        let '(q, e, l) :=
          SFdiv_core_binary prec emax (Zpos m) 0 (10 ^ (- e10)) 0 in
        binary_round_aux prec emax neg q e l
  | _ => S754_zero neg
  end.

(** ** [parseFloat]

    Strings are sequences of characters with codes below 256, the first
    256 code units of JavaScript; the price strings of the gateway are
    ASCII. *)

Definition code (c : ascii) : N := N_of_ascii c.

Definition isDecimalDigit (c : ascii) : bool :=
  ((48 <=? code c) && (code c <=? 57))%N.

Definition digitValue (c : ascii) : Z := Z.of_N (code c) - 48.

(** The white space and line terminators of ECMAScript among the codes
    below 256: tab, line feed, vertical tab, form feed, carriage return,
    space and no-break space. *)
Definition isWhiteSpace (c : ascii) : bool :=
  existsb (N.eqb (code c)) [9; 10; 11; 12; 13; 32; 160]%N.

Fixpoint trimStart (s : string) : string :=
  match s with
  | String c s' => if isWhiteSpace c then trimStart s' else s
  | EmptyString => s
  end.

(** The longest run of decimal digits at the head of [s]: the value of the
    digits read so far followed by them, how many were read, and the rest. *)
Fixpoint decimalDigits (s : string) (acc n : Z) : Z * Z * string :=
  match s with
  | String c s' =>
      if isDecimalDigit c
      then decimalDigits s' (10 * acc + digitValue c) (n + 1)
      else (acc, n, s)
  | EmptyString => (acc, n, s)
  end.

(** The value of an ExponentPart at the head of [s], 0 when there is no
    well-formed one (the literal then ends before it). *)
Definition exponentPart (s : string) : Z :=
  match s with
  | String c s' =>
      if (Ascii.eqb c "e" || Ascii.eqb c "E")%bool then
        match s' with
        | String "+"%char s'' =>
            let '(v, _, _) := decimalDigits s'' 0 0 in v
        | String "-"%char s'' =>
            let '(v, _, _) := decimalDigits s'' 0 0 in - v
        | _ => let '(v, _, _) := decimalDigits s' 0 0 in v
        end
      else 0
  | EmptyString => 0
  end.

(** The longest prefix of [s] that is a StrUnsignedDecimalLiteral. *)
Definition strUnsignedDecimalLiteral (neg : bool) (s : string) : number :=
  if String.prefix "Infinity" s then S754_infinity neg
  else
    let '(i, ni, r) := decimalDigits s 0 0 in
    match r with
    | String "."%char r' =>
        let '(m, nf, r'') := decimalDigits r' i 0 in
        if 0 <? ni + nf then of_decimal neg m (exponentPart r'' - nf)
        else NaN
    | _ => if 0 <? ni then of_decimal neg i (exponentPart r) else NaN
    end.

Definition parseFloat (input : string) : number :=
  match trimStart input with
  | String "+"%char s => strUnsignedDecimalLiteral false s
  | String "-"%char s => strUnsignedDecimalLiteral true s
  | s => strUnsignedDecimalLiteral false s
  end.

(** ** [Number.prototype.toFixed] *)

Definition digitsOf (n : Z) : string :=
  NilZero.string_of_uint (N.to_uint (Z.to_N n)).

Fixpoint zeros (k : nat) : string :=
  match k with O => EmptyString | S k' => String "0"%char (zeros k') end.

(** The decimal digits of [n] with a point before the last [f] of them,
    padded with zeros on the left to at least [f + 1] digits. *)
Definition fixedDigits (f : nat) (n : Z) : string :=
  let m := digitsOf n in
  let m := (zeros (S f - String.length m) ++ m)%string in
  let k := String.length m in
  match f with
  | O => m
  | _ => (substring 0 (k - f) m ++ "." ++ substring (k - f) f m)%string
  end.

(** The number of decimal digits of a positive integer, by [fuel]. *)
Fixpoint countDigits (fuel : nat) (v : Z) : Z :=
  match fuel with
  | O => 0
  | S fuel' => if v <? 10 then 1 else 1 + countDigits fuel' (v / 10)
  end.

(** [Number::toString] for an integral value [v >= 10^21], the value of
    the number [x]: the fewest digits [s] (of length [k]) such that
    [s * 10^(n-k)] reads back as [x], closest to [v] when several do,
    printed in exponent form. *)
Fixpoint shortest (x : number) (v nd : Z) (k : Z) (fuel : nat)
  : option (Z * Z) :=
  match fuel with
  | O => None
  | S fuel' =>
      let p := nd - k in
      let lo := v / 10 ^ p in
      let hi := lo + 1 in
      let ok_lo := SFeqb (of_decimal false lo p) x in
      let ok_hi := SFeqb (of_decimal false hi p) x in
      let hi_n := if hi =? 10 ^ k then (hi / 10, nd + 1) else (hi, nd) in
      if ok_lo && ok_hi then
        if v - lo * 10 ^ p <=? hi * 10 ^ p - v then Some (lo, nd)
        else Some hi_n
      else if ok_lo then Some (lo, nd)
      else if ok_hi then Some hi_n
      else shortest x v nd (k + 1) fuel'
  end.

Definition toStringLarge (m : positive) (e : Z) : string :=
  let v := Zpos m * 2 ^ e in
  let nd := countDigits (Z.to_nat (Z.log2 v) + 1) v in
  match shortest (S754_finite false m e) v nd 1 25 with
  | Some (s, n) =>
      let ds := digitsOf s in
      let expo := ("e+" ++ digitsOf (n - 1))%string in
      match ds with
      | String d EmptyString => String d expo
      | String d rest => (String d ("." ++ rest) ++ expo)%string
      | EmptyString => expo
      end
  | None => EmptyString
  end.

Definition toFixed (f : nat) (x : number) : string :=
  match x with
  | S754_nan => "NaN"
  | S754_infinity false => "Infinity"
  | S754_infinity true => "-Infinity"
  | S754_zero _ => fixedDigits f 0
  | S754_finite s m e =>
      let sign := if s then "-"%string else ""%string in
      if (0 <=? e) && (10 ^ 21 <=? Zpos m * 2 ^ e) then
        (sign ++ toStringLarge m e)%string
      else
        let scale := 10 ^ Z.of_nat f in
        let n :=
          if 0 <=? e then Zpos m * 2 ^ e * scale
          else (2 * Zpos m * scale + 2 ^ (- e)) / (2 * 2 ^ (- e)) in
        (sign ++ fixedDigits f n)%string
  end.

End JS.

(* ===================================================================== *)
(** * Part II.  The Remote Catalog Gateway and the data it returns        *)
(* ===================================================================== *)

(** A value read from a property of a JavaScript object whose values are
    strings or [null]: [undefined] when the property is absent. *)
Inductive jsval :=
| JUndefined
| JNull
| JString (s : string).

Definition jsval_of (o : option (option string)) : jsval :=
  match o with
  | None => JUndefined
  | Some None => JNull
  | Some (Some s) => JString s
  end.

(** [v === "..."] and [v !== "..."] against a string literal. *)
Definition strictEqString (v : jsval) (lit : string) : bool :=
  match v with
  | JString s => String.eqb s lit
  | _ => false
  end.

(** [ToString] of a nullable string, as [parseFloat] applies it. *)
Definition toStringNullable (v : option string) : string :=
  match v with Some s => s | None => "null" end.

Record Field := { key : string; value : option string }.

Record DealNode := { deal_id : string; deal_fields : list Field }.

Record Variant := {
  variant_id : string;
  price : string;
  compareAtPrice : option string
}.

Record Product := {
  product_id : string;
  title : string;
  variants : list Variant
}.

Record UserError := { ue_field : list string; ue_message : string }.

(** The four documents the engine sends through [client.request], with
    their variables. *)
Inductive Request :=
| FETCH_DEALS_QUERY
| UPDATE_DEAL_MUTATION (id : string)
| FETCH_PRODUCT_QUERY (id : jsval)
| UPDATE_PRODUCT_VARIANT_MUTATION (id : string) (price : string).

(** What the [data] of a reply holds: the deal nodes, the [userErrors] of a
    mutation, or the product ([None] when [data.product] is [null]). *)
Definition payload (r : Request) : Type :=
  match r with
  | FETCH_DEALS_QUERY => list DealNode
  | UPDATE_DEAL_MUTATION _ => list UserError
  | FETCH_PRODUCT_QUERY _ => option Product
  | UPDATE_PRODUCT_VARIANT_MUTATION _ _ => list UserError
  end.

(** The outcome of [await client.request(...)]: the promise rejects (a
    transport fault), the reply carries [errors], or it carries [data]. *)
Inductive Reply (D : Type) :=
| Rejected
| GraphQLErrors
| Data (d : D).
Arguments Rejected {D}.
Arguments GraphQLErrors {D}.
Arguments Data {D} d.

(** The lines the engine prints with [console.log] and [console.error].
    The two files word the start and the completion of a deal differently
    ("updated and added to tracked deals" and "added to tracked deals",
    "completed and removed from tracked deals" and "completed"); one
    constructor stands for both wordings. *)
Inductive Message :=
| GraphQL_errors
| Fetched_deals (n : nat)
| Deal_added (id : string)
| Deal_completed (id : string)
| Error_fetching_or_processing_deals
| Error_updating_deal
| Successfully_updated_deal (id : string)
| Prices_adjusted_for_product (title : string)
| Error_adjusting_product_prices
| Error_updating_variant_price
| Updated_variant_price (id : string) (price : string).

Inductive Event :=
| Requested (r : Request)
| Console (m : Message).

(** Everything outside the process, with state [W]: the gateway, the clock
    read by [new Date()], the date parser behind [new Date(string)] (a time
    value in milliseconds, [None] for an invalid date) and the passing of
    time during [setTimeout]. *)
Class Host (W : Type) := {
  request : forall r : Request, W -> Reply (payload r) * W;
  Date_now : W -> Z * W;
  Date_parse : string -> option Z;
  setTimeout : Z -> W -> W
}.

(** Computations of the engine: they act on the outside world and produce
    the events they caused, in order. *)
Definition Eff (W A : Type) : Type := W -> A * list Event * W.

#[global] Instance Eff_ret {W} : MRet (Eff W) :=
  fun A (a : A) w => (a, [], w).

#[global] Instance Eff_bind {W} : MBind (Eff W) :=
  fun A B (f : A -> Eff W B) (c : Eff W A) w =>
    let '(a, t1, w1) := c w in
    let '(b, t2, w2) := f a w1 in
    (b, t1 ++ t2, w2).

Definition console {W} (m : Message) : Eff W unit :=
  fun w => (tt, [Console m], w).

Definition await_request {W} `{!Host W} (r : Request)
  : Eff W (Reply (payload r)) :=
  fun w => let '(reply, w') := request r w in (reply, [Requested r], w').

Definition new_Date_now {W} `{!Host W} : Eff W Z :=
  fun w => let '(t, w') := Date_now w in (t, [], w').

Definition sleep {W} `{!Host W} (ms : Z) : Eff W unit :=
  fun w => (tt, [], setTimeout ms w).

(** [new Date(v)] for a property value: the time value, [None] when the
    date is invalid.  [undefined] is invalid and [null] is the epoch. *)
Definition new_Date {W} `{!Host W} (v : jsval) : option Z :=
  match v with
  | JUndefined => None
  | JNull => Some 0
  | JString s => Date_parse s
  end.

(** [d <= now] on dates: false when [d] is invalid. *)
Definition date_le (d : option Z) (now : Z) : bool :=
  match d with
  | Some t => t <=? now
  | None => false
  end.

(** [deal.node.fields.reduce((acc, field) => { acc[field.key] = field.value;
    return acc; }, {})]: a later field overwrites an earlier one with the
    same key.  (Assigning to the key [__proto__] creates no own property in
    JavaScript; the engine never reads that key, so the map may hold it.) *)
Definition fieldsOf (fs : list Field) : gmap string (option string) :=
  foldl (fun acc field => <[key field := value field]> acc) ∅ fs.

Definition field (fields : gmap string (option string)) (k : string) : jsval :=
  jsval_of (fields !! k).

(* ===================================================================== *)
(** * Part III.  The orchestrator and the stepper (both files)            *)
(* ===================================================================== *)

Module Core.
Section WithHost.
Context {W : Type} `{!Host W}.

(** The step added per cycle: the literal [10] of [index.js], the
    constant [priceIncrement] of [part_000]. *)
Variable increment : JS.number.

(** The price [incrementVariantPrice] computes inside its [if]. *)
Definition newPriceOf (currentPrice compareAtPrice : JS.number) : JS.number :=
  let priceDifference := JS.sub compareAtPrice currentPrice in
  if JS.lt priceDifference increment
  then compareAtPrice
  else JS.Math_min (JS.add currentPrice increment) compareAtPrice.

Definition incrementVariantPrice (variant : Variant) : Eff W bool :=
  let currentPrice := JS.parseFloat (price variant) in
  let compareAtPrice :=
    JS.parseFloat (toStringNullable (compareAtPrice variant)) in
  if JS.lt currentPrice compareAtPrice then
    let newPrice := newPriceOf currentPrice compareAtPrice in
    reply ← await_request
      (UPDATE_PRODUCT_VARIANT_MUTATION (variant_id variant)
                                       (JS.toFixed 2 newPrice));
    match reply with
    | Rejected =>
        console Error_updating_variant_price;; mret false
    | GraphQLErrors =>
        console GraphQL_errors;; mret false
    | Data userErrors =>
        if (0 <? length userErrors)%nat then
          console Error_updating_variant_price;; mret false
        else
          console (Updated_variant_price (variant_id variant)
                                         (JS.toFixed 2 newPrice));;
          mret (JS.strictEq newPrice compareAtPrice)
    end
  else mret true.

(** The [for (const variant of variants)] loop with its flag. *)
Fixpoint forVariants (vs : list Variant) (allVariantsComplete : bool)
  : Eff W bool :=
  match vs with
  | [] => mret allVariantsComplete
  | variant :: vs' =>
      isVariantComplete ← incrementVariantPrice variant;
      forVariants vs'
        (if negb isVariantComplete then false else allVariantsComplete)
  end.

Definition adjustProductPrices (productId : jsval) (dealId : string)
  : Eff W bool :=
  reply ← await_request (FETCH_PRODUCT_QUERY productId);
  match reply with
  | Rejected => console Error_adjusting_product_prices;; mret false
  | GraphQLErrors => console GraphQL_errors;; mret false
  | Data None =>
      (* [data.product] is [null]: reading [.variants] throws, caught *)
      console Error_adjusting_product_prices;; mret false
  | Data (Some product) =>
      allVariantsComplete ← forVariants (variants product) true;
      console (Prices_adjusted_for_product (title product));;
      mret allVariantsComplete
  end.

End WithHost.
End Core.

(* ===================================================================== *)
(** * Part IV.  [src/index.js]: a [Set] of tracked deals, remote marker   *)
(* ===================================================================== *)

Module Index.

(** The literal [10] of [incrementVariantPrice]. *)
Definition increment : JS.number := JS.of_decimal false 10 0.

Section WithHost.
Context {W : Type} `{!Host W}.

Definition incrementVariantPrice : Variant -> Eff W bool :=
  Core.incrementVariantPrice increment.

Definition adjustProductPrices : jsval -> string -> Eff W bool :=
  Core.adjustProductPrices increment.

Definition updateDeal (id : string) : Eff W unit :=
  reply ← await_request (UPDATE_DEAL_MUTATION id);
  match reply with
  | Rejected => console Error_updating_deal
  | GraphQLErrors => console GraphQL_errors
  | Data userErrors =>
      if (0 <? length userErrors)%nat
      then console Error_updating_deal
      else console (Successfully_updated_deal id)
  end.

(** The first [if] of the loop body.  [&&] evaluates left to right, so the
    clock is read only when the pricing flag is ["true"]. *)
Definition startDeal (deal : DealNode) (trackedDeals : gset string)
  : Eff W (gset string) :=
  let fields := fieldsOf (deal_fields deal) in
  if strictEqString (field fields "wtf_pricing") "true" then
    now ← new_Date_now;
    if date_le (new_Date (field fields "start_time")) now
       && negb (strictEqString (field fields "wtf_pricing_started") "true")
       && negb (bool_decide (deal_id deal ∈ trackedDeals))
    then
      updateDeal (deal_id deal);;
      console (Deal_added (deal_id deal));;
      mret ({[deal_id deal]} ∪ trackedDeals)
    else mret trackedDeals
  else mret trackedDeals.

(** The second [if] of the loop body. *)
Definition adjustDeal (deal : DealNode) (trackedDeals : gset string)
  : Eff W (gset string) :=
  let fields := fieldsOf (deal_fields deal) in
  if bool_decide (deal_id deal ∈ trackedDeals) then
    isDealComplete ← adjustProductPrices (field fields "product")
                                         (deal_id deal);
    if isDealComplete : bool then
      console (Deal_completed (deal_id deal));;
      mret (trackedDeals ∖ {[deal_id deal]})
    else mret trackedDeals
  else mret trackedDeals.

Definition processDeal (deal : DealNode) (trackedDeals : gset string)
  : Eff W (gset string) :=
  trackedDeals ← startDeal deal trackedDeals;
  adjustDeal deal trackedDeals.

Fixpoint forDeals (deals : list DealNode) (trackedDeals : gset string)
  : Eff W (gset string) :=
  match deals with
  | [] => mret trackedDeals
  | deal :: deals' =>
      trackedDeals ← processDeal deal trackedDeals;
      forDeals deals' trackedDeals
  end.

Definition fetchAndProcessDeals (trackedDeals : gset string)
  : Eff W (gset string) :=
  reply ← await_request FETCH_DEALS_QUERY;
  match reply with
  | Rejected =>
      console Error_fetching_or_processing_deals;; mret trackedDeals
  | GraphQLErrors => console GraphQL_errors;; mret trackedDeals
  | Data deals => forDeals deals trackedDeals
  end.

(** The first [cycles] iterations of [while (true)] in [main]. *)
Fixpoint main (cycles : nat) (trackedDeals : gset string)
  : Eff W (gset string) :=
  match cycles with
  | O => mret trackedDeals
  | S cycles' =>
      trackedDeals ← fetchAndProcessDeals trackedDeals;
      sleep 30000;;
      main cycles' trackedDeals
  end.

End WithHost.
End Index.

(* ===================================================================== *)
(** * Part V.  [src/unnamed/part_000]: an object of completion flags      *)
(* ===================================================================== *)

Module Part000.

(** [const priceIncrement = 9.99] and [const dealDuration = 1000]. *)
Definition priceIncrement : JS.number := JS.of_decimal false 999 (-2).
Definition dealDuration : Z := 1000.

(** [trackedDeals] is a plain object [{}]: its own properties are a map
    from deal id to flag, and it inherits the properties of
    [Object.prototype], which [in] and a property read both see. *)
Definition Object_prototype_keys : list string :=
  ["constructor"; "__defineGetter__"; "__defineSetter__"; "hasOwnProperty";
   "__lookupGetter__"; "__lookupSetter__"; "isPrototypeOf";
   "propertyIsEnumerable"; "toString"; "valueOf"; "__proto__";
   "toLocaleString"]%string.

Definition inherited (k : string) : bool :=
  existsb (String.eqb k) Object_prototype_keys.

(** [k in o] *)
Definition has (k : string) (o : gmap string bool) : bool :=
  match o !! k with
  | Some _ => true
  | None => inherited k
  end.

(** The truthiness of [o[k]]: an own flag, an inherited function or
    object (truthy), or [undefined] (falsy). *)
Definition truthy (k : string) (o : gmap string bool) : bool :=
  match o !! k with
  | Some b => b
  | None => inherited k
  end.

(** [o[k] = b]: assigning a boolean to [__proto__] does nothing. *)
Definition assign (k : string) (b : bool) (o : gmap string bool)
  : gmap string bool :=
  if String.eqb k "__proto__" then o else <[k := b]> o.

Section WithHost.
Context {W : Type} `{!Host W}.

Definition incrementVariantPrice : Variant -> Eff W bool :=
  Core.incrementVariantPrice priceIncrement.

Definition adjustProductPrices : jsval -> string -> Eff W bool :=
  Core.adjustProductPrices priceIncrement.

(** The first [if] of the loop body. *)
Definition startDeal (deal : DealNode) (trackedDeals : gmap string bool)
  : Eff W (gmap string bool) :=
  let fields := fieldsOf (deal_fields deal) in
  if strictEqString (field fields "wtf_pricing") "true" then
    now ← new_Date_now;
    if date_le (new_Date (field fields "start_time")) now
       && negb (has (deal_id deal) trackedDeals)
    then
      console (Deal_added (deal_id deal));;
      mret (assign (deal_id deal) false trackedDeals)
    else mret trackedDeals
  else mret trackedDeals.

(** The second [if] of the loop body. *)
Definition adjustDeal (deal : DealNode) (trackedDeals : gmap string bool)
  : Eff W (gmap string bool) :=
  let fields := fieldsOf (deal_fields deal) in
  if has (deal_id deal) trackedDeals
     && negb (truthy (deal_id deal) trackedDeals)
  then
    isDealComplete ← adjustProductPrices (field fields "product")
                                         (deal_id deal);
    if isDealComplete : bool then
      console (Deal_completed (deal_id deal));;
      mret (assign (deal_id deal) true trackedDeals)
    else mret trackedDeals
  else mret trackedDeals.

Definition processDeal (deal : DealNode) (trackedDeals : gmap string bool)
  : Eff W (gmap string bool) :=
  trackedDeals ← startDeal deal trackedDeals;
  adjustDeal deal trackedDeals.

Fixpoint forDeals (deals : list DealNode) (trackedDeals : gmap string bool)
  : Eff W (gmap string bool) :=
  match deals with
  | [] => mret trackedDeals
  | deal :: deals' =>
      trackedDeals ← processDeal deal trackedDeals;
      forDeals deals' trackedDeals
  end.

Definition fetchAndProcessDeals (trackedDeals : gmap string bool)
  : Eff W (gmap string bool) :=
  reply ← await_request FETCH_DEALS_QUERY;
  match reply with
  | Rejected =>
      console Error_fetching_or_processing_deals;; mret trackedDeals
  | GraphQLErrors => console GraphQL_errors;; mret trackedDeals
  | Data deals =>
      console (Fetched_deals (length deals));;
      forDeals deals trackedDeals
  end.

(** The first [cycles] iterations of [while (true)] in [main]. *)
Fixpoint main (cycles : nat) (trackedDeals : gmap string bool)
  : Eff W (gmap string bool) :=
  match cycles with
  | O => mret trackedDeals
  | S cycles' =>
      trackedDeals ← fetchAndProcessDeals trackedDeals;
      sleep dealDuration;;
      main cycles' trackedDeals
  end.

End WithHost.
End Part000.

(* ===================================================================== *)
(** * Part VI.  A concrete store, to run the engine on                    *)
(* ===================================================================== *)

(** A catalog that answers every request from its own records.  Two
    switches make a mutation answer with [userErrors] and change nothing. *)
Module Shop.

Record world := {
  deals : list DealNode;
  products : list Product;
  clock : Z;
  metadata_refused : bool;
  price_refused : bool
}.

Definition refusal : list UserError :=
  [{| ue_field := ["input"]%string; ue_message := "refused" |}].

Definition markStarted (id : string) (d : DealNode) : DealNode :=
  if String.eqb (deal_id d) id then
    {| deal_id := deal_id d;
       deal_fields := deal_fields d ++
         [{| key := "wtf_pricing_started"; value := Some "true"%string |}] |}
  else d.

Definition setPrice (id new : string) (v : Variant) : Variant :=
  if String.eqb (variant_id v) id then
    {| variant_id := variant_id v; price := new;
       compareAtPrice := compareAtPrice v |}
  else v.

Definition setPriceIn (id new : string) (p : Product) : Product :=
  {| product_id := product_id p; title := title p;
     variants := map (setPrice id new) (variants p) |}.

Definition findProduct (id : jsval) (w : world) : option Product :=
  match id with
  | JString s => find (fun p => String.eqb (product_id p) s) (products w)
  | _ => None
  end.

Definition answer (r : Request) (w : world) : Reply (payload r) * world :=
  match r with
  | FETCH_DEALS_QUERY => (Data (deals w), w)
  | UPDATE_DEAL_MUTATION id =>
      if metadata_refused w then (Data refusal, w)
      else (Data [],
            {| deals := map (markStarted id) (deals w);
               products := products w; clock := clock w;
               metadata_refused := metadata_refused w;
               price_refused := price_refused w |})
  | FETCH_PRODUCT_QUERY id => (Data (findProduct id w), w)
  | UPDATE_PRODUCT_VARIANT_MUTATION id new =>
      if price_refused w then (Data refusal, w)
      else (Data [],
            {| deals := deals w;
               products := map (setPriceIn id new) (products w);
               clock := clock w;
               metadata_refused := metadata_refused w;
               price_refused := price_refused w |})
  end.

(** The date strings of the examples with their time values. *)
Definition parseDate (s : string) : option Z :=
  if String.eqb s "2024-01-01T00:00:00.000Z" then Some 1704067200000
  else if String.eqb s "2100-01-01T00:00:00.000Z" then Some 4102444800000
  else None.

Definition advance (ms : Z) (w : world) : world :=
  {| deals := deals w; products := products w; clock := clock w + ms;
     metadata_refused := metadata_refused w;
     price_refused := price_refused w |}.

#[global] Instance host : Host world := {
  request := answer;
  Date_now := fun w => (clock w, w);
  Date_parse := parseDate;
  setTimeout := advance
}.

(** One deal on one product with one variant at 80.00 of 100.00. *)
Definition shirt : Variant :=
  {| variant_id := "gid://shopify/ProductVariant/1";
     price := "80.00"; compareAtPrice := Some "100.00"%string |}.

Definition tee : Product :=
  {| product_id := "gid://shopify/Product/1"; title := "Tee";
     variants := [shirt] |}.

Definition deal1 : DealNode :=
  {| deal_id := "gid://shopify/Metaobject/1";
     deal_fields :=
       [{| key := "wtf_pricing"; value := Some "true"%string |};
        {| key := "start_time";
           value := Some "2024-01-01T00:00:00.000Z"%string |};
        {| key := "product";
           value := Some "gid://shopify/Product/1"%string |}] |}.

Definition opening : world :=
  {| deals := [deal1]; products := [tee]; clock := 1730000000000;
     metadata_refused := false; price_refused := false |}.


(** A variant without compare-at price, and one at 1.13 of 11.13. *)
Definition bare : Variant :=
  {| variant_id := "gid://shopify/ProductVariant/2";
     price := "80.00"; compareAtPrice := None |}.

Definition odd : Variant :=
  {| variant_id := "gid://shopify/ProductVariant/3";
     price := "1.13"; compareAtPrice := Some "11.13"%string |}.

(** The store once the variant has reached its compare-at price, when it
    refuses the start marker: the deal records never change. *)
Definition settledTee : Product :=
  {| product_id := "gid://shopify/Product/1"; title := "Tee";
     variants :=
       [{| variant_id := "gid://shopify/ProductVariant/1";
           price := "100.00"; compareAtPrice := Some "100.00"%string |}] |}.

Definition stubborn : world :=
  {| deals := [deal1]; products := [settledTee]; clock := 1730000000000;
     metadata_refused := true; price_refused := false |}.

(** The deal with its start marker already set. *)
Definition markedDeal : DealNode := markStarted (deal_id deal1) deal1.

End Shop.

(** The requests among the events of a run. *)
Definition requestsOf (t : list Event) : list Request :=
  omap (fun e => match e with Requested r => Some r | Console _ => None end) t.

(** The prices sent in price-update mutations among the events of a run. *)
Definition pricesSent (t : list Event) : list string :=
  omap (fun e => match e with
                 | Requested (UPDATE_PRODUCT_VARIANT_MUTATION _ p) => Some p
                 | _ => None
                 end) t.


(** ** The reference contract of the stepper, in the words of the
       specification

    "If [currentPrice >= compareAtPrice]: already complete, no mutation
    issued.  Else: let [remaining = compareAtPrice - currentPrice].  If
    [remaining < increment], snap directly to [compareAtPrice].  Otherwise
    [newPrice = currentPrice + increment], capped so it never exceeds
    [compareAtPrice]."  The result is the price to send, if any. *)
Definition Stepper_contract (increment currentPrice compareAtPrice : JS.number)
  : option JS.number :=
  if JS.ge currentPrice compareAtPrice then None
  else
    let remaining := JS.sub compareAtPrice currentPrice in
    if JS.lt remaining increment then Some compareAtPrice
    else Some (JS.Math_min (JS.add currentPrice increment) compareAtPrice).

(** The stepper meets the contract on [variant] in the world [w]: either no
    request at all and the answer [true], or exactly one price update, of
    the contract's price formatted to two decimals. *)
Definition meetsContract {W} `{!Host W} (increment : JS.number)
    (variant : Variant) (w : W) : Prop :=
  let currentPrice := JS.parseFloat (price variant) in
  let compareAtPrice :=
    JS.parseFloat (toStringNullable (compareAtPrice variant)) in
  let '(isComplete, events, w') :=
    Core.incrementVariantPrice increment variant w in
  match Stepper_contract increment currentPrice compareAtPrice with
  | None => isComplete = true /\ events = [] /\ w' = w
  | Some newPrice =>
      requestsOf events =
        [UPDATE_PRODUCT_VARIANT_MUTATION (variant_id variant)
                                         (JS.toFixed 2 newPrice)]
  end.

(** The increment is a positive binary64 number, as [10] and [9.99] are. *)
Definition positiveFinite (x : JS.number) : Prop :=
  match x with
  | S754_finite false m e => bounded JS.prec JS.emax m e = true
  | _ => False
  end.

(** A number that is not negative and below [10^21], the range in which
    [toFixed] prints plain digits. *)
Definition ordinary (x : JS.number) : bool :=
  match x with
  | S754_zero _ => true
  | S754_finite false m e => negb ((0 <=? e) && (10 ^ 21 <=? Zpos m * 2 ^ e))
  | _ => false
  end.

(** The hundredths [toFixed(2)] prints for an ordinary number: its value
    times one hundred, rounded to the nearest integer, halves up. *)
Definition cents (x : JS.number) : Z :=
  match x with
  | S754_finite false m e =>
      if 0 <=? e then Zpos m * 2 ^ e * 100
      else (2 * Zpos m * 100 + 2 ^ (- e)) / (2 * 2 ^ (- e))
  | _ => 0
  end.

(** A two-decimal amount: the number nearest to [k] hundredths, for a
    count [k] of hundredths below [10^15].  The prices the gateway stores
    are of this kind. *)
Definition twoDecimal (x : JS.number) : Prop :=
  exists k : Z, 0 <= k < 10 ^ 15 /\ x = JS.of_decimal false k (-2).






(** The claim that completion tolerates rounding, for one variant in one
    world: when a price update is sent and accepted, the answer of the
    stepper is [true] exactly when the new price and the compare-at price
    agree once both are rounded to two decimals. *)
Definition completionToleratesRounding {W} `{!Host W}
    (increment : JS.number) (variant : Variant) (w : W) : Prop :=
  let currentPrice := JS.parseFloat (price variant) in
  let compareAtPrice :=
    JS.parseFloat (toStringNullable (compareAtPrice variant)) in
  let newPrice := Core.newPriceOf increment currentPrice compareAtPrice in
  JS.lt currentPrice compareAtPrice = true ->
  fst (request (UPDATE_PRODUCT_VARIANT_MUTATION (variant_id variant)
                  (JS.toFixed 2 newPrice)) w) = Data [] ->
  (fst (fst (Core.incrementVariantPrice increment variant w)) = true <->
   JS.toFixed 2 newPrice = JS.toFixed 2 compareAtPrice).

(** How often the start of deal [id] was announced in a run. *)
Definition isStartOf (id : string) (e : Event) : bool :=
  match e with
  | Console (Deal_added id') => String.eqb id' id
  | _ => false
  end.

Definition startsOf (id : string) (t : list Event) : nat :=
  length (List.filter (isStartOf id) t).

(** How often the start marker of deal [id] was sent in a run. *)
Definition isMarkerOf (id : string) (e : Event) : bool :=
  match e with
  | Requested (UPDATE_DEAL_MUTATION id') => String.eqb id' id
  | _ => false
  end.

Definition markersOf (id : string) (t : list Event) : nat :=
  length (List.filter (isMarkerOf id) t).

(** The three conditions the specification gives for the start of a deal:
    the pricing flag is ["true"], the start time is not after [now], and
    the deal is not tracked yet. *)
Definition startCondition {W} `{!Host W}
    (fields : gmap string (option string)) (now : Z) (untracked : bool)
  : bool :=
  strictEqString (field fields "wtf_pricing") "true"
  && date_le (new_Date (W := W) (field fields "start_time")) now
  && untracked.

(** The claim that a deal starts exactly under these three conditions, for
    one deal record scanned by [index.js] with the tracker [trackedDeals]
    in the world [w]. *)
Definition Index_startsExactlyWhenEligible {W} `{!Host W}
    (deal : DealNode) (trackedDeals : gset string) (w : W) : Prop :=
  startsOf (deal_id deal)
           (snd (fst (Index.startDeal deal trackedDeals w))) = 1%nat <->
  startCondition (W := W) (fieldsOf (deal_fields deal)) (fst (Date_now w))
                 (negb (bool_decide (deal_id deal ∈ trackedDeals))) = true.

(** The claim that a deal is started at most once, for a run of [index.js]
    on the concrete store during which the deal records stay as they are
    (the eligibility fields are unchanged). *)
Definition Index_startsAtMostOnce (cycles : nat) (w : Shop.world)
    (id : string) : Prop :=
  Shop.deals (snd (Index.main cycles ∅ w)) = Shop.deals w ->
  (startsOf id (snd (fst (Index.main cycles ∅ w))) <= 1)%nat.

(** The claim that completion removes the entry of the deal, for one deal
    record scanned by [part_000]: the pass is complete exactly when the
    deal is no longer in the tracker afterwards. *)
Definition Part000_completionRemovesEntry {W} `{!Host W}
    (deal : DealNode) (trackedDeals : gmap string bool) (w : W) : Prop :=
  fst (fst (Part000.adjustProductPrices
              (field (fieldsOf (deal_fields deal)) "product")
              (deal_id deal) w)) = true <->
  Part000.has (deal_id deal)
              (fst (fst (Part000.adjustDeal deal trackedDeals w))) = false.

(** The answers of the stepper on the variants of one pass, in order. *)
Fixpoint passResults {W} `{!Host W} (increment : JS.number)
    (vs : list Variant) (w : W) : list bool :=
  match vs with
  | [] => []
  | v :: vs' =>
      let '(b, _, w') := Core.incrementVariantPrice increment v w in
      b :: passResults increment vs' w'
  end.




(** The variants of one pass, in order, each with the world in which the
    stepper processes it. *)
Fixpoint passStates {W} `{!Host W} (increment : JS.number)
    (vs : list Variant) (w : W) : list (Variant * W) :=
  match vs with
  | [] => []
  | v :: vs' =>
      (v, w) ::
      passStates increment vs' (snd (Core.incrementVariantPrice increment v w))
  end.

(** What makes the stepper answer [true] for [variant] in [w]: its price
    is not below its compare-at price when read (it is at or above it, or
    one of the two does not parse), or its price update is accepted and
    the new price, before it is formatted, is strictly equal to the
    compare-at price. *)
Definition settles {W} `{!Host W} (increment : JS.number)
    (variant : Variant) (w : W) : bool :=
  let currentPrice := JS.parseFloat (price variant) in
  let compareAtPrice :=
    JS.parseFloat (toStringNullable (compareAtPrice variant)) in
  let newPrice := Core.newPriceOf increment currentPrice compareAtPrice in
  negb (JS.lt currentPrice compareAtPrice) ||
  match fst (request (UPDATE_PRODUCT_VARIANT_MUTATION (variant_id variant)
                        (JS.toFixed 2 newPrice)) w) with
  | Data [] => JS.strictEq newPrice compareAtPrice
  | _ => false
  end.

(** The price of a variant of the concrete store equals its compare-at
    price, and so do the prices of all variants of a product. *)
Definition atTarget (v : Variant) : bool :=
  JS.strictEq (JS.parseFloat (price v))
              (JS.parseFloat (toStringNullable (compareAtPrice v))).

Definition allAtTarget (productId : jsval) (w : Shop.world) : bool :=
  match Shop.findProduct productId w with
  | Some product => forallb atTarget (variants product)
  | None => false
  end.

(** The claim that a pass is complete exactly when every variant has
    reached its target, for one pass on the concrete store: the pass
    answers [true] exactly when, in the store the pass leaves, the price
    of every variant of the product equals its compare-at price. *)
Definition completeIffAllAtTarget (increment : JS.number)
    (productId : jsval) (dealId : string) (w : Shop.world) : Prop :=
  let '(isDealComplete, _, w') :=
    Core.adjustProductPrices increment productId dealId w in
  isDealComplete = true <-> allAtTarget productId w' = true.

(** ** Notions used to describe rounding

    [f] divides the mantissa of a shift record by [2^k] and keeps track of
    whether anything was lost. *)
Definition shifts_by (f : shr_record -> shr_record) (k : Z) : Prop :=
  forall mrs : shr_record,
    0 <= shr_m mrs ->
    shr_m (f mrs) = shr_m mrs / 2 ^ k /\
    (shr_r (f mrs) || shr_s (f mrs) = true ->
     shr_r mrs || shr_s mrs = true \/ shr_m mrs mod 2 ^ k <> 0).

(** The mantissa [q'] is [m / 2^k] rounded to an integer: the quotient or
    its successor, and the quotient itself when the division is exact. *)
Definition roundedTo (m k q' : Z) : Prop :=
  m / 2 ^ k <= q' <= m / 2 ^ k + 1 /\
  (q' <> m / 2 ^ k -> m mod 2 ^ k <> 0).

(** The last step of rounding: a mantissa [q] at exponent [e] is shifted
    once more if it has too many digits, then classified. *)
Definition finish (s : bool) (q e : Z) : JS.number :=
  let k := Z.max (fexp JS.prec JS.emax (Zdigits2 q + e) - e) 0 in
  match q / 2 ^ k with
  | Z0 => S754_zero s
  | Zpos m => if e + k <=? JS.emax - JS.prec
              then S754_finite s m (e + k) else S754_infinity s
  | Zneg _ => S754_nan
  end.

(** ** Notions used to describe passes and runs *)

(** How many events of a run satisfy [P]. *)
Definition countOf (P : Event -> bool) (t : list Event) : nat :=
  length (List.filter P t).

Definition isDealsFetch (e : Event) : bool :=
  match e with Requested FETCH_DEALS_QUERY => true | _ => false end.

Definition isAnyMarker (e : Event) : bool :=
  match e with Requested (UPDATE_DEAL_MUTATION _) => true | _ => false end.

(** The guard of [incrementVariantPrice] on a variant, and the request it
    sends when the guard holds. *)
Definition belowTarget (v : Variant) : bool :=
  JS.lt (JS.parseFloat (price v))
        (JS.parseFloat (toStringNullable (compareAtPrice v))).

Definition priceUpdateOf (increment : JS.number) (v : Variant) : Request :=
  UPDATE_PRODUCT_VARIANT_MUTATION (variant_id v)
    (JS.toFixed 2
       (Core.newPriceOf increment (JS.parseFloat (price v))
          (JS.parseFloat (toStringNullable (compareAtPrice v))))).

Definition priceUpdatesDue (increment : JS.number) (vs : list Variant)
  : list Request :=
  map (priceUpdateOf increment) (List.filter belowTarget vs).

(** The value of the last field with key [k] in a field list, [undefined]
    when there is none. *)
Definition lastValue (k : string) (fs : list Field) : jsval :=
  match find (fun f => String.eqb (key f) k) (rev fs) with
  | Some f => jsval_of (Some (value f))
  | None => JUndefined
  end.

(** The events a price-adjustment pass can cause: the product query, price
    updates, and the lines [adjustProductPrices] and
    [incrementVariantPrice] print. *)
Definition ofAPass (e : Event) : bool :=
  match e with
  | Requested (FETCH_PRODUCT_QUERY _) => true
  | Requested (UPDATE_PRODUCT_VARIANT_MUTATION _ _) => true
  | Console GraphQL_errors => true
  | Console (Prices_adjusted_for_product _) => true
  | Console Error_adjusting_product_prices => true
  | Console Error_updating_variant_price => true
  | Console (Updated_variant_price _ _) => true
  | _ => false
  end.

(** ** A gateway that is down

    Every request is rejected; the clock stands still. *)
Module Outage.

#[global] Instance host : Host unit := {
  request := fun r w => (Rejected, w);
  Date_now := fun w => (1730000000000, w);
  Date_parse := fun _ => None;
  setTimeout := fun _ w => w
}.

End Outage.

(** ** Further records for the concrete store *)
Module Samples.

(** A variant one step away from its compare-at price. *)
Definition nearlyThere : Variant :=
  {| variant_id := "gid://shopify/ProductVariant/4";
     price := "95.00"; compareAtPrice := Some "100.00"%string |}.

(** A deal record without [start_time]. *)
Definition unscheduled : DealNode :=
  {| deal_id := "gid://shopify/Metaobject/2";
     deal_fields :=
       [{| key := "wtf_pricing"; value := Some "true"%string |};
        {| key := "product";
           value := Some "gid://shopify/Product/1"%string |}] |}.

(** A deal record whose [start_time] is [null], and one whose
    [start_time] is no date. *)
Definition undated : DealNode :=
  {| deal_id := "gid://shopify/Metaobject/3";
     deal_fields :=
       [{| key := "wtf_pricing"; value := Some "true"%string |};
        {| key := "start_time"; value := None |};
        {| key := "product";
           value := Some "gid://shopify/Product/1"%string |}] |}.

Definition misdated : DealNode :=
  {| deal_id := "gid://shopify/Metaobject/4";
     deal_fields :=
       [{| key := "wtf_pricing"; value := Some "true"%string |};
        {| key := "start_time"; value := Some "tomorrow"%string |};
        {| key := "product";
           value := Some "gid://shopify/Product/1"%string |}] |}.



(** A store whose product has the variant at 1.13 of 11.13, and one whose
    product has a variant with a price that is no number. *)
Definition oddStore : Shop.world :=
  {| Shop.deals := [Shop.deal1];
     Shop.products :=
       [{| product_id := "gid://shopify/Product/1"; title := "Tee";
           variants := [Shop.odd] |}];
     Shop.clock := 1730000000000;
     Shop.metadata_refused := false; Shop.price_refused := false |}.

Definition unpriced : Variant :=
  {| variant_id := "gid://shopify/ProductVariant/7";
     price := "abc"; compareAtPrice := Some "10.00"%string |}.

Definition unpricedStore : Shop.world :=
  {| Shop.deals := [Shop.deal1];
     Shop.products :=
       [{| product_id := "gid://shopify/Product/1"; title := "Tee";
           variants := [unpriced] |}];
     Shop.clock := 1730000000000;
     Shop.metadata_refused := false; Shop.price_refused := false |}.

(** The store after the product of the deal has been deleted. *)
Definition soldOut : Shop.world :=
  {| Shop.deals := [Shop.deal1]; Shop.products := [];
     Shop.clock := 1730000000000;
     Shop.metadata_refused := false; Shop.price_refused := false |}.

End Samples.

(** ** Notions used to describe decimal strings *)

(** [s] consists of decimal digits only. *)
Fixpoint allDigits (s : string) : bool :=
  match s with
  | EmptyString => true
  | String c s' => JS.isDecimalDigit c && allDigits s'
  end.

(** The integer spelled by the digits of [s] after the digits that gave
    [acc]. *)
Fixpoint valueOf (acc : Z) (s : string) : Z :=
  match s with
  | EmptyString => acc
  | String c s' => valueOf (10 * acc + JS.digitValue c) s'
  end.

(* ===================================================================== *)
(** * Part VII.  Facts about numbers                                      *)
(* ===================================================================== *)

Lemma SFcompare_antisym (x y : JS.number) :
  SFcompare y x = option_map CompOpp (SFcompare x y).
Proof.
  destruct x as [sx|sx| |sx mx ex], y as [sy|sy| |sy my ey]; simpl;
    try reflexivity;
    try (destruct sx; reflexivity); try (destruct sy; reflexivity);
    try (destruct sx, sy; reflexivity).
  destruct sx, sy; simpl; try reflexivity;
    rewrite (Z.compare_antisym ex ey);
    destruct (ex ?= ey)%Z eqn:E; simpl; try reflexivity;
    rewrite (Pos.compare_cont_antisym mx my Eq); simpl;
    try rewrite CompOpp_involutive; reflexivity.
Qed.

Lemma SFcompare_not_NaN (x y : JS.number) :
  JS.isNaN x = false -> JS.isNaN y = false ->
  exists c, SFcompare x y = Some c.
Proof.
  destruct x as [sx|sx| |sx mx ex], y as [sy|sy| |sy my ey]; simpl;
    intros Hx Hy; try discriminate; eauto.
Qed.

Lemma lt_NaN_l (y : JS.number) : JS.lt JS.NaN y = false.
Proof. reflexivity. Qed.

Lemma lt_NaN_r (x : JS.number) : JS.lt x JS.NaN = false.
Proof. destruct x; reflexivity. Qed.

Lemma lt_of_isNaN (x y : JS.number) :
  JS.isNaN x || JS.isNaN y = true -> JS.lt x y = false.
Proof.
  destruct x, y; simpl; intros H; try discriminate; reflexivity.
Qed.

(** Away from NaN, [x < y] is the negation of [x >= y]. *)
Lemma lt_negb_ge (x y : JS.number) :
  JS.isNaN x = false -> JS.isNaN y = false ->
  JS.lt x y = negb (JS.ge x y).
Proof.
  intros Hx Hy. unfold JS.lt, JS.ge, SFltb, SFleb.
  rewrite (SFcompare_antisym x y).
  destruct (SFcompare_not_NaN x y Hx Hy) as [c ->].
  destruct c; reflexivity.
Qed.

Lemma lt_le (x y : JS.number) : JS.lt x y = true -> JS.le x y = true.
Proof.
  unfold JS.lt, JS.le, SFltb, SFleb.
  destruct (SFcompare x y) as [[]|]; congruence.
Qed.

Lemma le_refl (x : JS.number) : JS.isNaN x = false -> JS.le x x = true.
Proof.
  unfold JS.le, SFleb.
  destruct x as [s|s| |s m e]; simpl; try discriminate; intros _;
    try reflexivity; try (destruct s; reflexivity).
  destruct s; rewrite Z.compare_refl, Pos.compare_cont_refl; reflexivity.
Qed.

(** [Math.min(a, b)] never exceeds [b]. *)
Lemma Math_min_le_r (a b : JS.number) :
  JS.isNaN a = false -> JS.isNaN b = false ->
  JS.le (JS.Math_min a b) b = true.
Proof.
  intros Ha Hb. unfold JS.Math_min. rewrite Ha, Hb. simpl.
  destruct (JS.lt a b) eqn:Hab; [ now apply lt_le |].
  destruct (JS.lt b a) eqn:Hba; [ now apply le_refl |].
  assert (Hle : JS.le a b = true).
  { rewrite (lt_negb_ge b a Hb Ha) in Hba.
    apply negb_false_iff in Hba. exact Hba. }
  destruct a as [[]| | |]; auto using le_refl.
Qed.

Lemma Math_min_not_NaN (a b : JS.number) :
  JS.isNaN a = false -> JS.isNaN b = false ->
  JS.isNaN (JS.Math_min a b) = false.
Proof.
  intros Ha Hb. unfold JS.Math_min. rewrite Ha, Hb. simpl.
  destruct (JS.lt a b); [ exact Ha |].
  destruct (JS.lt b a); [ exact Hb |].
  destruct a as [[]| | |]; auto.
Qed.

(** Strictly equal numbers are printed alike. *)
Lemma strictEq_toFixed (f : nat) (x y : JS.number) :
  JS.strictEq x y = true -> JS.toFixed f x = JS.toFixed f y.
Proof.
  unfold JS.strictEq, SFeqb.
  destruct x as [sx|sx| |sx mx ex], y as [sy|sy| |sy my ey]; simpl;
    try discriminate; try reflexivity;
    try (destruct sx; discriminate); try (destruct sy; discriminate).
  - destruct sx, sy; try discriminate; reflexivity.
  - destruct sx, sy; try discriminate;
      destruct (ex ?= ey)%Z eqn:E; try discriminate;
      apply Z.compare_eq in E; subst ey;
      destruct (Pos.compare_cont Eq mx my) eqn:M; try discriminate;
      apply Pos.compare_eq in M; subst my; reflexivity.
Qed.

(** ** Shifting and rounding a mantissa *)

Lemma digits2_pos_size (m : positive) : digits2_pos m = Pos.size m.
Proof. induction m as [m IH|m IH|]; simpl; congruence. Qed.

(** [2^(d-1) <= m < 2^d] for [d] the number of binary digits of [m]. *)
Lemma digits2_bounds (m : positive) :
  2 ^ (Zpos (digits2_pos m) - 1) <= Zpos m < 2 ^ Zpos (digits2_pos m).
Proof.
  rewrite digits2_pos_size. split.
  - pose proof (Pos.size_le m) as H.
    assert (2 ^ Zpos (Pos.size m) <= 2 * Zpos m).
    { change (2 * Zpos m) with (Zpos m~0).
      rewrite <- Pos2Z.inj_pow. apply Pos2Z.pos_le_pos. exact H. }
    replace (Zpos (Pos.size m)) with (Z.succ (Zpos (Pos.size m) - 1)) in H0
      by lia.
    rewrite Z.pow_succ_r in H0 by lia. lia.
  - pose proof (Pos.size_gt m) as H.
    rewrite <- Pos2Z.inj_pow. apply Pos2Z.pos_lt_pos. exact H.
Qed.

Lemma Zdigits2_nonneg (m : Z) : 0 <= Zdigits2 m.
Proof. destruct m; simpl; lia. Qed.

Lemma Zdigits2_bounds (m : Z) :
  0 < m -> 2 ^ (Zdigits2 m - 1) <= m < 2 ^ Zdigits2 m.
Proof. destruct m; try lia. intros _. apply digits2_bounds. Qed.

(** The number of digits is determined by the bracketing powers of two. *)
Lemma Zdigits2_unique (m d : Z) :
  2 ^ (d - 1) <= m < 2 ^ d -> 0 < m -> Zdigits2 m = d.
Proof.
  intros [Hlo Hhi] Hm.
  pose proof (Zdigits2_bounds m Hm) as [Hlo' Hhi'].
  pose proof (Zdigits2_nonneg m) as Hd.
  assert (0 < d).
  { destruct (Z_lt_le_dec 0 d) as [|Hle]; [ assumption |].
    assert (2 ^ d <= 2 ^ 0) by (destruct (Z_lt_le_dec d 0);
      [ rewrite Z.pow_neg_r by lia; simpl; lia
      | apply Z.pow_le_mono_r; lia ]).
    simpl in *. lia. }
  destruct (Z.lt_trichotomy (Zdigits2 m) d) as [Hlt|[Heq|Hgt]];
    [ | exact Heq | ].
  - assert (2 ^ Zdigits2 m <= 2 ^ (d - 1)) by (apply Z.pow_le_mono_r; lia).
    lia.
  - assert (2 ^ d <= 2 ^ (Zdigits2 m - 1)) by (apply Z.pow_le_mono_r; lia).
    lia.
Qed.

Lemma Zdigits2_le (m n : Z) : 0 < m -> m <= n -> Zdigits2 m <= Zdigits2 n.
Proof.
  intros Hm Hmn.
  pose proof (Zdigits2_bounds m Hm) as [Hlo _].
  pose proof (Zdigits2_bounds n ltac:(lia)) as [_ Hhi].
  destruct (Z_lt_le_dec (Zdigits2 n) (Zdigits2 m)) as [Hlt|]; [ | lia ].
  assert (2 ^ Zdigits2 n <= 2 ^ (Zdigits2 m - 1))
    by (apply Z.pow_le_mono_r; lia).
  lia.
Qed.

Lemma Zdigits2_shift (m k : Z) :
  0 < m -> 0 <= k -> Zdigits2 (m * 2 ^ k) = Zdigits2 m + k.
Proof.
  intros Hm Hk.
  pose proof (Zdigits2_bounds m Hm) as [Hlo Hhi].
  pose proof (Zdigits2_nonneg m).
  assert (0 < 2 ^ k) by (apply Z.pow_pos_nonneg; lia).
  assert (0 < Zdigits2 m).
  { destruct (Z.eq_dec (Zdigits2 m) 0) as [E|]; [ | lia ].
    rewrite E in Hhi. simpl in Hhi. lia. }
  apply Zdigits2_unique; [ | nia ].
  replace (Zdigits2 m + k - 1) with (Zdigits2 m - 1 + k) by lia.
  rewrite !Z.pow_add_r by lia. nia.
Qed.

Lemma iter_pos_invariant {A} (f : A -> A) (P : A -> Prop) :
  (forall x, P x -> P (f x)) ->
  forall n x, P x -> P (SpecFloat.iter_pos f n x).
Proof.
  intros Hf. induction n as [n IH|n IH|]; intros x Hx; simpl; auto.
Qed.

(** A shift record is inexact when one of its two bits is set. *)
Lemma loc_of_shr_record_exact (mrs : shr_record) :
  loc_of_shr_record mrs = loc_Exact <-> shr_r mrs || shr_s mrs = false.
Proof. destruct mrs as [m [] []]; simpl; split; congruence. Qed.

Lemma shr_1_spec (mrs : shr_record) :
  0 <= shr_m mrs ->
  shr_m (shr_1 mrs) = shr_m mrs / 2 /\
  (shr_r (shr_1 mrs) || shr_s (shr_1 mrs) = true ->
   shr_r mrs || shr_s mrs = true \/ shr_m mrs mod 2 <> 0).
Proof.
  destruct mrs as [m r s]. simpl. intros Hm.
  destruct m as [|[p|p|]|p]; simpl; try lia.
  - split; [ reflexivity | intros H; destruct r, s; simpl in *; auto;
      discriminate ].
  - split; [ rewrite Pos2Z.inj_xI; apply Z.div_unique with 1; lia
           | intros _; right; rewrite Pos2Z.inj_xI;
             rewrite Z.add_comm, Z.mul_comm, Z.mod_add by lia;
             discriminate ].
  - split; [ rewrite Pos2Z.inj_xO; apply Z.div_unique with 0; lia
           | intros H; destruct r, s; simpl in *; auto; discriminate ].
  - split; [ reflexivity | intros _; right; discriminate ].
Qed.

Lemma mod_pow2_parts (m a b : Z) :
  0 <= a -> 0 <= b -> m mod 2 ^ (a + b) = 0 ->
  m mod 2 ^ a = 0 /\ (m / 2 ^ a) mod 2 ^ b = 0.
Proof.
  intros Ha Hb H.
  assert (0 < 2 ^ a) by (apply Z.pow_pos_nonneg; lia).
  assert (0 < 2 ^ b) by (apply Z.pow_pos_nonneg; lia).
  rewrite Z.pow_add_r in H by lia.
  rewrite Z.rem_mul_r in H by lia.
  pose proof (Z.mod_pos_bound m (2 ^ a) ltac:(lia)).
  pose proof (Z.mod_pos_bound (m / 2 ^ a) (2 ^ b) ltac:(lia)).
  nia.
Qed.

Lemma shifts_by_compose (f g : shr_record -> shr_record) (a b : Z) :
  0 <= a -> 0 <= b -> shifts_by f a -> shifts_by g b ->
  shifts_by (fun mrs => g (f mrs)) (a + b).
Proof.
  intros Ha Hb Hf Hg mrs Hm.
  assert (0 < 2 ^ a) by (apply Z.pow_pos_nonneg; lia).
  assert (0 < 2 ^ b) by (apply Z.pow_pos_nonneg; lia).
  destruct (Hf mrs Hm) as [E1 I1].
  assert (H1 : 0 <= shr_m (f mrs)) by (rewrite E1; apply Z.div_pos; lia).
  destruct (Hg (f mrs) H1) as [E2 I2].
  split.
  - rewrite E2, E1, Z.pow_add_r, Z.div_div by lia. reflexivity.
  - intros Hin. destruct (I2 Hin) as [Hin1|Hne].
    + destruct (I1 Hin1) as [?|Hne]; [ now left | right ].
      intros Hz. apply Hne. now apply (mod_pow2_parts _ a b).
    + right. intros Hz. apply Hne. rewrite E1.
      now apply (mod_pow2_parts _ a b).
Qed.

Lemma shr_1_shifts : shifts_by shr_1 1.
Proof. intros mrs Hm. apply shr_1_spec, Hm. Qed.

Lemma iter_shr_1_shifts (n : positive) :
  shifts_by (SpecFloat.iter_pos shr_1 n) (Zpos n).
Proof.
  induction n as [n IH|n IH|]; simpl.
  - replace (Zpos n~1) with (1 + Zpos n + Zpos n) by lia.
    apply (shifts_by_compose (fun mrs => SpecFloat.iter_pos shr_1 n (shr_1 mrs))
             (SpecFloat.iter_pos shr_1 n)); try lia; [ | exact IH ].
    apply (shifts_by_compose shr_1 (SpecFloat.iter_pos shr_1 n));
      try lia; [ exact shr_1_shifts | exact IH ].
  - replace (Zpos n~0) with (Zpos n + Zpos n) by lia.
    apply (shifts_by_compose (SpecFloat.iter_pos shr_1 n)
             (SpecFloat.iter_pos shr_1 n)); try lia; exact IH.
  - exact shr_1_shifts.
Qed.

Lemma fexp_eq (e : Z) : fexp JS.prec JS.emax e = Z.max (e - 53) (-1074).
Proof. reflexivity. Qed.

Lemma fexp_mono (a b : Z) :
  a <= b -> fexp JS.prec JS.emax a <= fexp JS.prec JS.emax b.
Proof. rewrite !fexp_eq. lia. Qed.

Lemma shr_spec (mrs : shr_record) (e n : Z) :
  0 <= shr_m mrs ->
  let k := Z.max n 0 in
  snd (shr mrs e n) = e + k /\
  shr_m (fst (shr mrs e n)) = shr_m mrs / 2 ^ k /\
  (shr_r (fst (shr mrs e n)) || shr_s (fst (shr mrs e n)) = true ->
   shr_r mrs || shr_s mrs = true \/ shr_m mrs mod 2 ^ k <> 0).
Proof.
  intros Hm k. subst k. destruct n as [|p|p]; simpl.
  - rewrite Z.add_0_r, Z.div_1_r. auto.
  - rewrite Z.max_l by lia.
    destruct (iter_shr_1_shifts p mrs Hm) as [E I]. auto.
  - rewrite Z.add_0_r, Z.div_1_r. auto.
Qed.

Lemma round_nearest_even_cases (q : Z) (l : location) :
  (round_nearest_even q l = q \/ round_nearest_even q l = q + 1) /\
  (l = loc_Exact -> round_nearest_even q l = q).
Proof.
  destruct l as [|[]]; simpl; try destruct (Z.even q); auto;
    split; auto; discriminate.
Qed.

(** The first shift of an exact mantissa followed by rounding to nearest
    even. *)
Lemma shr_fexp_round (m e : Z) :
  0 <= m ->
  let k := Z.max (fexp JS.prec JS.emax (Zdigits2 m + e) - e) 0 in
  let mrs := fst (shr_fexp JS.prec JS.emax m e loc_Exact) in
  snd (shr_fexp JS.prec JS.emax m e loc_Exact) = e + k /\
  roundedTo m k (round_nearest_even (shr_m mrs) (loc_of_shr_record mrs)).
Proof.
  intros Hm k mrs. subst mrs. unfold shr_fexp. simpl shr_record_of_loc.
  pose proof (shr_spec (Build_shr_record m false false) e
                (fexp JS.prec JS.emax (Zdigits2 m + e) - e) Hm) as H.
  simpl in H. fold k in H. destruct H as (E & Q & I).
  split; [ exact E |].
  set (mrs := fst (shr _ e _)) in *.
  destruct (round_nearest_even_cases (shr_m mrs) (loc_of_shr_record mrs))
    as [C X].
  unfold roundedTo. rewrite <- Q. split; [ lia |].
  intros Hne.
  destruct (loc_of_shr_record mrs) eqn:L.
  - exfalso. apply Hne. now apply X.
  - assert (Hin : shr_r mrs || shr_s mrs = true).
    { destruct (shr_r mrs || shr_s mrs) eqn:B; [ reflexivity |].
      apply loc_of_shr_record_exact in B. congruence. }
    destruct (I Hin) as [?|?]; [ discriminate | assumption ].
Qed.

(** The second shift, of the rounded mantissa, and the classification. *)
Lemma binary_round_aux_exact (s : bool) (m e : Z) :
  0 <= m ->
  let k := Z.max (fexp JS.prec JS.emax (Zdigits2 m + e) - e) 0 in
  exists q', roundedTo m k q' /\
    binary_round_aux JS.prec JS.emax s m e loc_Exact = finish s q' (e + k).
Proof.
  intros Hm k. destruct (shr_fexp_round m e Hm) as [E R]. fold k in E, R.
  unfold binary_round_aux.
  destruct (shr_fexp JS.prec JS.emax m e loc_Exact) as [mrs' e'] eqn:S1.
  simpl in E, R. subst e'.
  set (q' := round_nearest_even (shr_m mrs') (loc_of_shr_record mrs')) in *.
  exists q'. split; [ exact R |].
  assert (Hq : 0 <= q').
  { destruct R as [[Hlo _] _].
    assert (0 <= m / 2 ^ k)
      by (apply Z.div_pos; [ lia | apply Z.pow_pos_nonneg; lia ]).
    lia. }
  unfold shr_fexp. simpl shr_record_of_loc.
  pose proof (shr_spec (Build_shr_record q' false false) (e + k)
                (fexp JS.prec JS.emax (Zdigits2 q' + (e + k)) - (e + k)) Hq)
    as H.
  simpl in H. destruct H as (E2 & Q2 & _).
  destruct (shr _ (e + k) _) as [mrs'' e''] eqn:S2. simpl in E2, Q2.
  unfold finish. rewrite <- Q2, <- E2. reflexivity.
Qed.

Lemma Pos_iter_xO (d m : positive) :
  Zpos (Pos.iter xO m d) = Zpos m * 2 ^ Zpos d.
Proof.
  revert m. induction d as [|d IH] using Pos.peano_ind; intros m.
  - simpl. lia.
  - rewrite Pos.iter_succ, Pos2Z.inj_xO, IH, Pos2Z.inj_succ.
    rewrite Z.pow_succ_r by lia. lia.
Qed.

Lemma shl_align_spec (m : positive) (e e' : Z) :
  snd (shl_align m e e') = Z.min e e' /\
  Zpos (fst (shl_align m e e')) = Zpos m * 2 ^ (e - Z.min e e').
Proof.
  unfold shl_align. destruct (e' - e) as [|d|d] eqn:D; simpl.
  - rewrite Z.min_l by lia. rewrite Z.sub_diag. simpl. lia.
  - rewrite Z.min_l by lia. rewrite Z.sub_diag. simpl. lia.
  - rewrite Z.min_r by lia. split; [ reflexivity |].
    rewrite Pos_iter_xO. f_equal. f_equal. lia.
Qed.

(** Rounding a positive integer mantissa [m] at exponent [e]: the number is
    brought to the exponent [fexp (digits m + e)], exactly if that means
    shifting left, by rounding if it means shifting right. *)
Lemma binary_round_spec (s : bool) (m : positive) (e : Z) :
  let E := fexp JS.prec JS.emax (Zpos (digits2_pos m) + e) in
  exists q',
    (E <= e -> q' = Zpos m * 2 ^ (e - E)) /\
    (e <= E -> roundedTo (Zpos m) (E - e) q') /\
    binary_round JS.prec JS.emax s m e = finish s q' E.
Proof.
  intros E. unfold binary_round. fold E.
  destruct (shl_align_spec m e E) as [Se Sm].
  destruct (shl_align m e E) as [mz ez]. simpl in Se, Sm. subst ez.
  destruct (binary_round_aux_exact s (Zpos mz) (Z.min e E) ltac:(lia))
    as (q' & R & ->).
  assert (D : Zdigits2 (Zpos mz) + Z.min e E = Zpos (digits2_pos m) + e).
  { rewrite Sm. rewrite Zdigits2_shift by lia. simpl. lia. }
  rewrite D in *. fold E in R |- *.
  replace (Z.min e E + Z.max (E - Z.min e E) 0) with E by lia.
  exists q'. split; [ | split ]; [ | | reflexivity ].
  - intros HE. rewrite Z.min_r in * by lia.
    rewrite Z.sub_diag in R. simpl in R. destruct R as [[? ?] N].
    rewrite Z.div_1_r, Z.mod_1_r in *.
    destruct (Z.eq_dec q' (Zpos mz)) as [->|Hne]; [ lia |].
    exfalso. now apply N.
  - intros HE. rewrite Z.min_l in * by lia.
    rewrite Z.sub_diag, Z.pow_0_r, Z.mul_1_r in Sm.
    rewrite Z.max_l in R by lia. now rewrite Sm in R.
Qed.

Lemma pow2_pos (k : Z) : 0 <= k -> 0 < 2 ^ k.
Proof. intros. apply Z.pow_pos_nonneg; lia. Qed.

Lemma canonical_iff (m : positive) (e : Z) :
  canonical_mantissa JS.prec JS.emax m e = true <->
  fexp JS.prec JS.emax (Zpos (digits2_pos m) + e) = e.
Proof. unfold canonical_mantissa. apply Z.eqb_eq. Qed.

Lemma canonical_fexp (m : positive) (e : Z) :
  canonical_mantissa JS.prec JS.emax m e = true ->
  fexp JS.prec JS.emax (Zpos (digits2_pos m) + e) = e.
Proof. apply canonical_iff. Qed.

(** A positive mantissa at an exponent of the format finishes as a finite
    number or an infinity of the same sign; the exponent can only grow, and
    the mantissa is kept when it does not. *)
Lemma finish_pos (s : bool) (q E : Z) :
  1 <= q -> -1074 <= E ->
  exists (m : positive) (k : Z),
    0 <= k /\
    k = Z.max (fexp JS.prec JS.emax (Zdigits2 q + E) - E) 0 /\
    Zpos m = q / 2 ^ k /\
    finish s q E =
      if E + k <=? JS.emax - JS.prec
      then S754_finite s m (E + k) else S754_infinity s.
Proof.
  intros Hq HE. unfold finish.
  set (k := Z.max (fexp JS.prec JS.emax (Zdigits2 q + E) - E) 0).
  assert (Hk : 0 <= k) by (subst k; lia).
  assert (Hq'' : 1 <= q / 2 ^ k).
  { pose proof (Zdigits2_bounds q ltac:(lia)) as [Hlo _].
    pose proof (pow2_pos k Hk).
    apply Z.div_le_lower_bound; [ lia |]. rewrite Z.mul_1_r.
    destruct (Z.eq_dec k 0) as [->|Hne]; [ simpl; lia |].
    assert (k = Zdigits2 q - 53) by (subst k; rewrite fexp_eq in *; lia).
    apply Z.le_trans with (2 ^ (Zdigits2 q - 1)); [ | exact Hlo ].
    apply Z.pow_le_mono_r; lia. }
  destruct (q / 2 ^ k) as [|m|m] eqn:Q; try lia.
  exists m, k. auto.
Qed.

Lemma finish_zero (s : bool) (E : Z) : finish s 0 E = S754_zero s.
Proof. unfold finish. simpl Zdigits2. now rewrite Z.div_0_l
  by (apply Z.pow_nonzero; lia). Qed.

Lemma le_finite_pos (m1 m2 : positive) (e1 e2 : Z) :
  e1 < e2 \/ (e1 = e2 /\ Zpos m1 <= Zpos m2) ->
  JS.le (S754_finite false m1 e1) (S754_finite false m2 e2) = true.
Proof.
  unfold JS.le, SFleb. simpl. intros [H|[-> H]].
  - apply Z.compare_lt_iff in H. now rewrite H.
  - rewrite Z.compare_refl. change (Pos.compare_cont Eq m1 m2) with (m1 ?= m2)%positive.
    destruct (m1 ?= m2)%positive eqn:C; try reflexivity.
    rewrite Pos.compare_gt_iff in C. lia.
Qed.

Lemma le_finite_neg (m1 m2 : positive) (e1 e2 : Z) :
  e2 < e1 \/ (e1 = e2 /\ Zpos m2 <= Zpos m1) ->
  JS.le (S754_finite true m1 e1) (S754_finite true m2 e2) = true.
Proof.
  unfold JS.le, SFleb. simpl. intros [H|[-> H]].
  - apply Z.compare_gt_iff in H. now rewrite H.
  - rewrite Z.compare_refl. change (Pos.compare_cont Eq m1 m2) with (m1 ?= m2)%positive.
    destruct (m1 ?= m2)%positive eqn:C; try reflexivity.
    rewrite Pos.compare_lt_iff in C. lia.
Qed.

(** Rounding is above every number of the format that the exact value is
    above. *)
Lemma binary_round_ge (mx M : positive) (ex e : Z) :
  canonical_mantissa JS.prec JS.emax mx ex = true ->
  e <= ex ->
  Zpos mx * 2 ^ (ex - e) <= Zpos M ->
  JS.le (S754_finite false mx ex) (binary_round JS.prec JS.emax false M e)
    = true.
Proof.
  intros Hc Hle Hval. apply canonical_fexp in Hc.
  destruct (binary_round_spec false M e) as (q' & Hl & Hr & ->).
  set (E := fexp JS.prec JS.emax (Zpos (digits2_pos M) + e)) in *.
  pose proof (pow2_pos (ex - e) ltac:(lia)) as Hp.
  assert (Hmu : Zpos (digits2_pos mx) + ex <= Zpos (digits2_pos M) + e).
  { pose proof (Zdigits2_le (Zpos mx * 2 ^ (ex - e)) (Zpos M)
                  ltac:(nia) Hval) as D.
    rewrite Zdigits2_shift in D by lia. simpl in D. lia. }
  assert (HexE : ex <= E) by (rewrite <- Hc; now apply fexp_mono).
  assert (HE : -1074 <= E) by (subst E; rewrite fexp_eq; lia).
  pose proof (digits2_bounds M) as [HMlo HMhi].
  assert (Hq : 1 <= q' /\ (ex = E -> Zpos mx <= q')).
  { destruct (Z_le_gt_dec E e) as [HEe|HEe].
    - rewrite (Hl HEe). pose proof (pow2_pos (e - E) ltac:(lia)).
      split; [ nia |]. intros ->. replace e with E in * by lia.
      rewrite Z.sub_diag in *. simpl in *. lia.
    - destruct (Hr ltac:(lia)) as [[Hlo _] _].
      pose proof (pow2_pos (E - e) ltac:(lia)).
      assert (Zpos mx * 2 ^ (ex - e) / 2 ^ (E - e) <= q').
      { apply Z.le_trans with (Zpos M / 2 ^ (E - e)); [ | exact Hlo ].
        apply Z.div_le_mono; lia. }
      split.
      + destruct (Z.eq_dec ex E) as [->|Hne].
        * rewrite Z.div_mul in H0 by lia. lia.
        * assert (E = Zpos (digits2_pos M) + e - 53)
            by (subst E; rewrite fexp_eq in *; lia).
          assert (2 ^ 52 <= Zpos M / 2 ^ (E - e)).
          { apply Z.div_le_lower_bound; [ lia |].
            rewrite <- Z.pow_add_r by lia.
            replace (E - e + 52) with (Zpos (digits2_pos M) - 1) by lia.
            exact HMlo. }
          assert (0 < 2 ^ 52) by (apply pow2_pos; lia). lia.
      + intros ->. rewrite Z.div_mul in H0 by lia. exact H0. }
  destruct Hq as [Hq1 HqE].
  destruct (finish_pos false q' E Hq1 HE) as (m & k & Hk & Ek & Em & ->).
  destruct (E + k <=? JS.emax - JS.prec); [ | reflexivity ].
  apply le_finite_pos.
  destruct (Z.eq_dec ex (E + k)) as [Heq|Hne]; [ right | left; lia ].
  split; [ exact Heq |].
  assert (k = 0) by lia. subst k. rewrite H in Em. simpl in Em.
  rewrite Z.div_1_r in Em. rewrite Em. apply HqE. lia.
Qed.

(** Rounding is below every number of the format that the exact value is
    below; stated for the negated numbers. *)
Lemma binary_round_le (mx M : positive) (ex e : Z) :
  bounded JS.prec JS.emax mx ex = true ->
  e <= ex ->
  Zpos M <= Zpos mx * 2 ^ (ex - e) ->
  JS.le (S754_finite true mx ex) (binary_round JS.prec JS.emax true M e)
    = true.
Proof.
  intros Hb Hle Hval. unfold bounded in Hb.
  apply andb_true_iff in Hb as [Hc Hmax].
  apply canonical_fexp in Hc. apply Z.leb_le in Hmax.
  destruct (binary_round_spec true M e) as (q' & Hl & Hr & ->).
  set (E := fexp JS.prec JS.emax (Zpos (digits2_pos M) + e)) in *.
  pose proof (pow2_pos (ex - e) ltac:(lia)) as Hp.
  assert (Hmu : Zpos (digits2_pos M) + e <= Zpos (digits2_pos mx) + ex).
  { pose proof (Zdigits2_le (Zpos M) (Zpos mx * 2 ^ (ex - e))
                  ltac:(lia) Hval) as D.
    rewrite Zdigits2_shift in D by lia. simpl in D. lia. }
  assert (HEex : E <= ex) by (rewrite <- Hc; now apply fexp_mono).
  assert (HE : -1074 <= E) by (subst E; rewrite fexp_eq; lia).
  pose proof (pow2_pos (ex - E) ltac:(lia)) as HpX.
  set (X := Zpos mx * 2 ^ (ex - E)) in *.
  assert (HqX : 0 <= q' <= X).
  { destruct (Z_le_gt_dec E e) as [HEe|HEe].
    - rewrite (Hl HEe). pose proof (pow2_pos (e - E) ltac:(lia)).
      split; [ nia |]. subst X.
      replace (ex - E) with ((ex - e) + (e - E)) by lia.
      rewrite Z.pow_add_r by lia. nia.
    - destruct (Hr ltac:(lia)) as [[Hlo Hhi] Hne].
      pose proof (pow2_pos (E - e) ltac:(lia)).
      assert (HA : Zpos mx * 2 ^ (ex - e) = X * 2 ^ (E - e)).
      { subst X. rewrite <- Z.mul_assoc, <- Z.pow_add_r by lia.
        f_equal. f_equal. lia. }
      assert (0 <= Zpos M / 2 ^ (E - e)) by (apply Z.div_pos; lia).
      split; [ lia |].
      assert (Zpos M / 2 ^ (E - e) <= X).
      { apply Z.div_le_upper_bound; [ lia |]. lia. }
      destruct (Z.eq_dec q' (Zpos M / 2 ^ (E - e))) as [->|Hd]; [ lia |].
      specialize (Hne Hd).
      assert (Zpos M <> X * 2 ^ (E - e)).
      { intros Heq. apply Hne. rewrite Heq. apply Z.mod_mul. lia. }
      assert (Zpos M / 2 ^ (E - e) < X).
      { apply Z.div_lt_upper_bound; lia. }
      lia. }
  destruct (Z.eq_dec q' 0) as [->|Hq0].
  { rewrite finish_zero. reflexivity. }
  destruct (finish_pos true q' E ltac:(lia) HE) as (m & k & Hk & Ek & Em & ->).
  assert (HdX : Zdigits2 q' + E <= Zpos (digits2_pos mx) + ex).
  { pose proof (Zdigits2_le q' X ltac:(lia) ltac:(lia)) as D.
    subst X. rewrite Zdigits2_shift in D by lia. simpl in D. lia. }
  assert (HkE : E + k <= ex).
  { pose proof (fexp_mono _ _ HdX) as F. rewrite Hc in F. lia. }
  replace (E + k <=? JS.emax - JS.prec) with true
    by (symmetry; apply Z.leb_le; lia).
  apply le_finite_neg.
  destruct (Z.eq_dec ex (E + k)) as [Heq|Hne]; [ right | left; lia ].
  split; [ exact Heq |].
  rewrite Em. replace k with (ex - E) by lia.
  apply Z.div_le_upper_bound; [ lia |]. subst X. lia.
Qed.

(** The result of rounding a signed mantissa keeps its sign and is never
    NaN. *)
Lemma binary_round_shape (s : bool) (m : positive) (e : Z) :
  match binary_round JS.prec JS.emax s m e with
  | S754_zero s' | S754_infinity s' | S754_finite s' _ _ => s' = s
  | S754_nan => False
  end.
Proof.
  destruct (binary_round_spec s m e) as (q' & Hl & Hr & ->).
  set (E := fexp JS.prec JS.emax (Zpos (digits2_pos m) + e)) in *.
  assert (HE : -1074 <= E) by (subst E; rewrite fexp_eq; lia).
  assert (Hq : 0 <= q').
  { destruct (Z_le_gt_dec E e) as [HEe|HEe].
    - rewrite (Hl HEe). pose proof (pow2_pos (e - E) ltac:(lia)). nia.
    - destruct (Hr ltac:(lia)) as [[Hlo _] _].
      pose proof (pow2_pos (E - e) ltac:(lia)).
      assert (0 <= Zpos m / 2 ^ (E - e)) by (apply Z.div_pos; lia). lia. }
  destruct (Z.eq_dec q' 0) as [->|Hq0].
  { now rewrite finish_zero. }
  destruct (finish_pos s q' E ltac:(lia) HE) as (m' & k & _ & _ & _ & ->).
  destruct (E + k <=? JS.emax - JS.prec); reflexivity.
Qed.

Lemma binary_normalize_not_NaN (m e : Z) (szero : bool) :
  JS.isNaN (binary_normalize JS.prec JS.emax m e szero) = false.
Proof.
  destruct m as [|p|p]; simpl; [ reflexivity | | ];
    match goal with |- context [binary_round _ _ ?s ?p ?e] =>
      pose proof (binary_round_shape s p e) as H;
      destruct (binary_round JS.prec JS.emax s p e); simpl; tauto
    end.
Qed.

(** Adding a finite number yields NaN only from NaN. *)
Lemma add_finite_not_NaN (x c : JS.number) :
  JS.isNaN x = false ->
  match c with S754_finite _ _ _ | S754_zero _ => True | _ => False end ->
  JS.isNaN (JS.add x c) = false.
Proof.
  intros Hx Hc. unfold JS.add.
  destruct x as [sx|sx| |sx mx ex], c as [sc|sc| |sc mc ec];
    try discriminate; try contradiction; try reflexivity.
  - simpl. destruct sx, sc; reflexivity.
  - unfold SFadd. apply binary_normalize_not_NaN.
Qed.

(** Adding a positive number never takes a number of the format below
    itself. *)
Lemma add_positive_ge (x : JS.number) (mc : positive) (ec : Z) :
  JS.isNaN x = false ->
  valid_binary JS.prec JS.emax x = true ->
  JS.le x (JS.add x (S754_finite false mc ec)) = true.
Proof.
  intros Hx Hv. unfold JS.add.
  destruct x as [sx|sx| |sx mx ex]; try discriminate.
  - destruct sx; reflexivity.
  - destruct sx; reflexivity.
  - simpl in Hv. unfold SFadd.
    set (ez := Z.min ex ec).
    destruct (shl_align_spec mx ex ez) as [_ HA].
    destruct (shl_align_spec mc ec ez) as [_ HC].
    replace (Z.min ex ez) with ez in HA by (subst ez; lia).
    replace (Z.min ec ez) with ez in HC by (subst ez; lia).
    set (A := fst (shl_align mx ex ez)) in *.
    set (C := fst (shl_align mc ec ez)) in *.
    pose proof (pow2_pos (ex - ez) ltac:(subst ez; lia)).
    pose proof (pow2_pos (ec - ez) ltac:(subst ez; lia)).
    assert (Hb := Hv). unfold bounded in Hv.
    apply andb_true_iff in Hv as [Hc _].
    destruct sx; simpl cond_Zopp.
    + destruct (- Zpos A + Zpos C) as [|M|M] eqn:S; simpl.
      * reflexivity.
      * pose proof (binary_round_shape false M ez) as Sh.
        destruct (binary_round JS.prec JS.emax false M ez) as [s|s| |s m e];
          try contradiction; subst s; reflexivity.
      * apply binary_round_le; [ exact Hb | subst ez; lia | lia ].
    + destruct (Zpos A + Zpos C) as [|M|M] eqn:S; simpl; try lia.
      apply binary_round_ge; [ exact Hc | subst ez; lia | lia ].
Qed.

(** ** Numbers produced by rounding belong to the format *)

Lemma Zdigits2_pow2 (k : Z) : 0 <= k -> Zdigits2 (2 ^ k) = k + 1.
Proof.
  intros Hk. pose proof (pow2_pos k Hk).
  apply Zdigits2_unique; [ | lia ].
  replace (k + 1 - 1) with k by lia.
  rewrite Z.pow_add_r by lia. simpl. lia.
Qed.

Lemma Zdigits2_div (q k : Z) :
  0 < q -> 0 <= k < Zdigits2 q -> Zdigits2 (q / 2 ^ k) = Zdigits2 q - k.
Proof.
  intros Hq Hk. pose proof (pow2_pos k ltac:(lia)).
  pose proof (Zdigits2_bounds q Hq) as [Hlo Hhi].
  assert (Hd : 2 ^ (Zdigits2 q - k - 1) <= q / 2 ^ k < 2 ^ (Zdigits2 q - k)).
  { split.
    - apply Z.div_le_lower_bound; [ lia |].
      rewrite <- Z.pow_add_r by lia.
      replace (k + (Zdigits2 q - k - 1)) with (Zdigits2 q - 1) by lia.
      exact Hlo.
    - apply Z.div_lt_upper_bound; [ lia |].
      rewrite <- Z.pow_add_r by lia.
      replace (k + (Zdigits2 q - k)) with (Zdigits2 q) by lia.
      exact Hhi. }
  apply Zdigits2_unique; [ exact Hd |].
  pose proof (pow2_pos (Zdigits2 q - k - 1) ltac:(lia)). lia.
Qed.

(** A mantissa with at least the full precision, or at the least exponent,
    finishes as a number of the format. *)
Lemma finish_valid (s : bool) (q E : Z) :
  0 <= q -> -1074 <= E ->
  (1 <= q -> E = -1074 \/ 53 <= Zdigits2 q) ->
  valid_binary JS.prec JS.emax (finish s q E) = true.
Proof.
  intros Hq HE Hfull.
  destruct (Z.eq_dec q 0) as [->|Hq0]; [ now rewrite finish_zero |].
  destruct (finish_pos s q E ltac:(lia) HE) as (m & k & Hk & Ek & Em & ->).
  destruct (E + k <=? JS.emax - JS.prec) eqn:Hmax; [ | reflexivity ].
  simpl. unfold bounded. rewrite Hmax, andb_true_r.
  apply canonical_iff.
  change (Zpos (digits2_pos m)) with (Zdigits2 (Zpos m)). rewrite Em.
  specialize (Hfull ltac:(lia)).
  pose proof (Zdigits2_nonneg q).
  destruct (Z.eq_dec k 0) as [->|Hk0].
  - simpl. rewrite Z.div_1_r, Z.add_0_r.
    rewrite fexp_eq in *. lia.
  - assert (k = Zdigits2 q - 53) by (rewrite fexp_eq in Ek; lia).
    rewrite Zdigits2_div by lia. rewrite fexp_eq. lia.
Qed.

Lemma binary_round_valid (s : bool) (m : positive) (e : Z) :
  valid_binary JS.prec JS.emax (binary_round JS.prec JS.emax s m e) = true.
Proof.
  destruct (binary_round_spec s m e) as (q' & Hl & Hr & ->).
  set (E := fexp JS.prec JS.emax (Zpos (digits2_pos m) + e)) in *.
  assert (HE : -1074 <= E) by (subst E; rewrite fexp_eq; lia).
  pose proof (digits2_bounds m) as [Hlo Hhi].
  destruct (Z_le_gt_dec E e) as [HEe|HEe].
  - rewrite (Hl HEe). pose proof (pow2_pos (e - E) ltac:(lia)).
    apply finish_valid; [ nia | exact HE |]. intros _.
    rewrite Zdigits2_shift by lia. simpl.
    subst E. rewrite fexp_eq in *. lia.
  - destruct (Hr ltac:(lia)) as [[Hq _] _].
    pose proof (pow2_pos (E - e) ltac:(lia)).
    assert (0 <= Zpos m / 2 ^ (E - e)) by (apply Z.div_pos; lia).
    apply finish_valid; [ lia | exact HE |]. intros Hq1.
    destruct (Z.eq_dec E (-1074)) as [|Hne]; [ now left | right ].
    assert (HEv : E = Zpos (digits2_pos m) + e - 53)
      by (subst E; rewrite fexp_eq in *; lia).
    assert (2 ^ 52 <= Zpos m / 2 ^ (E - e)).
    { apply Z.div_le_lower_bound; [ lia |].
      rewrite <- Z.pow_add_r by lia.
      replace (E - e + 52) with (Zpos (digits2_pos m) - 1) by lia.
      exact Hlo. }
    pose proof (Zdigits2_le (2 ^ 52) q' ltac:(apply pow2_pos; lia)
                  ltac:(lia)) as D.
    rewrite Zdigits2_pow2 in D by lia. lia.
Qed.

Lemma shr_fexp_spec (m e : Z) (l : location) :
  0 <= m ->
  let k := Z.max (fexp JS.prec JS.emax (Zdigits2 m + e) - e) 0 in
  snd (shr_fexp JS.prec JS.emax m e l) = e + k /\
  shr_m (fst (shr_fexp JS.prec JS.emax m e l)) = m / 2 ^ k.
Proof.
  intros Hm k.
  assert (Hm' : shr_m (shr_record_of_loc m l) = m)
    by (destruct l as [|[]]; reflexivity).
  pose proof (shr_spec (shr_record_of_loc m l) e
                (fexp JS.prec JS.emax (Zdigits2 m + e) - e)
                ltac:(rewrite Hm'; exact Hm)) as (E & Q & _).
  rewrite Hm' in Q. split; [ exact E | exact Q ].
Qed.

(** Rounding a mantissa with any location: the two shifts. *)
Lemma binary_round_aux_shape (s : bool) (m e : Z) (l : location) :
  0 <= m ->
  let k := Z.max (fexp JS.prec JS.emax (Zdigits2 m + e) - e) 0 in
  exists q', m / 2 ^ k <= q' <= m / 2 ^ k + 1 /\
    binary_round_aux JS.prec JS.emax s m e l = finish s q' (e + k).
Proof.
  intros Hm k. unfold binary_round_aux.
  destruct (shr_fexp_spec m e l Hm) as [E1 Q1]. fold k in E1, Q1.
  destruct (shr_fexp JS.prec JS.emax m e l) as [mrs' e'].
  simpl in E1, Q1. subst e'.
  set (q' := round_nearest_even (shr_m mrs') (loc_of_shr_record mrs')).
  destruct (round_nearest_even_cases (shr_m mrs') (loc_of_shr_record mrs'))
    as [C _]. fold q' in C.
  exists q'. split; [ lia |].
  pose proof (pow2_pos k ltac:(subst k; lia)).
  assert (Hq : 0 <= q').
  { assert (0 <= m / 2 ^ k) by (apply Z.div_pos; lia). lia. }
  destruct (shr_fexp_spec q' (e + k) loc_Exact Hq) as [E2 Q2].
  destruct (shr_fexp JS.prec JS.emax q' (e + k) loc_Exact) as [mrs'' e''].
  simpl in E2, Q2. unfold finish. rewrite <- Q2, <- E2. reflexivity.
Qed.

(** A mantissa that is not coarser than the format rounds into it. *)
Lemma binary_round_aux_valid (s : bool) (m e : Z) (l : location) :
  0 <= m ->
  e <= fexp JS.prec JS.emax (Zdigits2 m + e) ->
  (m = 0 -> e <= -1074) ->
  valid_binary JS.prec JS.emax (binary_round_aux JS.prec JS.emax s m e l)
    = true.
Proof.
  intros Hm Hfine Hzero.
  destruct (binary_round_aux_shape s m e l Hm) as (q' & [Hlo Hhi] & ->).
  set (E := fexp JS.prec JS.emax (Zdigits2 m + e)) in *.
  replace (e + Z.max (E - e) 0) with E in * by lia.
  replace (Z.max (E - e) 0) with (E - e) in * by lia.
  assert (HE : -1074 <= E) by (subst E; rewrite fexp_eq; lia).
  pose proof (pow2_pos (E - e) ltac:(lia)).
  assert (0 <= m / 2 ^ (E - e)) by (apply Z.div_pos; lia).
  apply finish_valid; [ lia | exact HE |]. intros Hq1.
  destruct (Z.eq_dec E (-1074)) as [|Hne]; [ now left | right ].
  destruct (Z.eq_dec m 0) as [->|Hm0].
  { exfalso. specialize (Hzero eq_refl). subst E. simpl Zdigits2 in *.
    rewrite fexp_eq in *. lia. }
  pose proof (Zdigits2_bounds m ltac:(lia)) as [Hdlo _].
  assert (HEv : E = Zdigits2 m + e - 53)
    by (subst E; rewrite fexp_eq in *; lia).
  assert (2 ^ 52 <= m / 2 ^ (E - e)).
  { apply Z.div_le_lower_bound; [ lia |].
    rewrite <- Z.pow_add_r by lia.
    replace (E - e + 52) with (Zdigits2 m - 1) by lia.
    exact Hdlo. }
  pose proof (Zdigits2_le (2 ^ 52) q' ltac:(apply pow2_pos; lia)
                ltac:(lia)) as D.
  rewrite Zdigits2_pow2 in D by lia. lia.
Qed.

(** ** [parseFloat] yields numbers of the format *)

(** The quotient that [of_decimal] rounds for a negative power of ten is
    not coarser than the format. *)
Lemma SFdiv_core_fine (m1 m2 : positive) :
  let '(q, e', _) :=
    SFdiv_core_binary JS.prec JS.emax (Zpos m1) 0 (Zpos m2) 0 in
  0 <= q /\
  e' <= fexp JS.prec JS.emax (Zdigits2 q + e') /\
  (q = 0 -> e' <= -1074).
Proof.
  unfold SFdiv_core_binary.
  set (d1 := Zdigits2 (Zpos m1)). set (d2 := Zdigits2 (Zpos m2)).
  change (IntDef.Z.sub (IntDef.Z.add d1 0) (IntDef.Z.add d2 0))
    with (d1 + 0 - (d2 + 0)).
  change (IntDef.Z.sub 0 0) with 0.
  set (e' := IntDef.Z.min (fexp JS.prec JS.emax (d1 + 0 - (d2 + 0))) 0).
  assert (He' : e' = Z.min (Z.max (d1 - d2 - 53) (-1074)) 0).
  { subst e'. rewrite fexp_eq.
    change IntDef.Z.min with Z.min. lia. }
  change (IntDef.Z.sub 0 e') with (0 - e').
  set (m' := match 0 - e' with
             | 0 => Zpos m1
             | Zpos _ => Z.shiftl (Zpos m1) (0 - e')
             | Zneg _ => 0
             end).
  assert (Hm' : m' = Zpos m1 * 2 ^ (- e')).
  { subst m'. destruct (0 - e') as [|p|p] eqn:S; try lia.
    - replace (- e') with 0 by lia. simpl. lia.
    - rewrite Z.shiftl_mul_pow2 by lia. f_equal. f_equal. lia. }
  clearbody m' e'.
  change (IntDef.Z.div_eucl m' (Zpos m2)) with (Z.div_eucl m' (Zpos m2)).
  pose proof (Z.div_eucl_eq m' (Zpos m2) ltac:(lia)) as Hdiv.
  pose proof (Z.mod_pos_bound m' (Zpos m2) ltac:(lia)) as Hmod.
  unfold Z.modulo in Hmod.
  destruct (Z.div_eucl m' (Zpos m2)) as [q r].
  pose proof (pow2_pos (- e') ltac:(lia)) as Hp.
  pose proof (digits2_bounds m1) as [H1lo H1hi].
  pose proof (digits2_bounds m2) as [H2lo H2hi].
  change (Zpos (digits2_pos m1)) with d1 in H1lo, H1hi.
  change (Zpos (digits2_pos m2)) with d2 in H2lo, H2hi.
  assert (Hd1 : 1 <= d1) by (subst d1; simpl; lia).
  assert (Hd2 : 1 <= d2) by (subst d2; simpl; lia).
  clearbody d1 d2.
  assert (Hq : 0 <= q) by nia.
  split; [ exact Hq |].
  (** when [-1074 < e'] the quotient has at least 53 digits *)
  assert (Hbig : -1074 < e' -> 2 ^ (d1 - d2 - e' - 1) <= q).
  { intros Hlt.
    assert (He : - e' >= d2 - d1 + 53) by lia.
    assert (0 <= d1 - d2 - e' - 1) by lia.
    pose proof (pow2_pos (d1 - d2 - e' - 1) ltac:(lia)).
    pose proof (pow2_pos (d1 - 1) ltac:(lia)).
    pose proof (pow2_pos d2 ltac:(lia)).
    assert (2 ^ (d1 - 1) * 2 ^ (- e') <= m') by nia.
    assert (Hs : 2 ^ (d1 - 1) * 2 ^ (- e') =
                 2 ^ (d1 - d2 - e' - 1) * 2 ^ d2).
    { rewrite <- !Z.pow_add_r by lia. f_equal. lia. }
    destruct (Z_lt_le_dec q (2 ^ (d1 - d2 - e' - 1))) as [Hlt'|]; [ | lia ].
    exfalso.
    assert (q + 1 <= 2 ^ (d1 - d2 - e' - 1)) by lia.
    assert (m' < (q + 1) * Zpos m2) by nia.
    assert ((q + 1) * Zpos m2 < 2 ^ (d1 - d2 - e' - 1) * 2 ^ d2) by nia.
    lia. }
  split.
  - destruct (Z_le_gt_dec e' (-1074)) as [Hle|Hgt].
    + rewrite fexp_eq. lia.
    + specialize (Hbig ltac:(lia)).
      assert (0 <= d1 - d2 - e' - 1) by lia.
      pose proof (pow2_pos (d1 - d2 - e' - 1) ltac:(lia)).
      pose proof (Zdigits2_le (2 ^ (d1 - d2 - e' - 1)) q ltac:(lia) Hbig)
        as D.
      rewrite Zdigits2_pow2 in D by lia.
      rewrite fexp_eq. lia.
  - intros ->. destruct (Z_le_gt_dec e' (-1074)) as [Hle|Hgt];
      [ exact Hle |].
    specialize (Hbig ltac:(lia)).
    assert (0 <= d1 - d2 - e' - 1) by lia.
    pose proof (pow2_pos (d1 - d2 - e' - 1) ltac:(lia)). lia.
Qed.

Lemma of_decimal_valid (neg : bool) (d e10 : Z) :
  valid_binary JS.prec JS.emax (JS.of_decimal neg d e10) = true.
Proof.
  unfold JS.of_decimal. destruct d as [|m|m]; try reflexivity.
  destruct (0 <=? e10) eqn:He; [ apply binary_round_valid |].
  apply Z.leb_gt in He.
  assert (H10 : 0 < 10 ^ (- e10)) by (apply Z.pow_pos_nonneg; lia).
  destruct (10 ^ (- e10)) as [|m2|m2] eqn:P; try lia.
  pose proof (SFdiv_core_fine m m2) as H.
  destruct (SFdiv_core_binary JS.prec JS.emax (Zpos m) 0 (Zpos m2) 0)
    as [[q e'] l].
  destruct H as (Hq & Hf & Hz).
  now apply binary_round_aux_valid.
Qed.

Lemma strUnsignedDecimalLiteral_valid (neg : bool) (s : string) :
  valid_binary JS.prec JS.emax (JS.strUnsignedDecimalLiteral neg s) = true.
Proof.
  unfold JS.strUnsignedDecimalLiteral.
  repeat match goal with
         | |- context [match ?x with _ => _ end] => destruct x
         | |- context [if ?x then _ else _] => destruct x
         end; auto using of_decimal_valid.
Qed.

(** Every number read by [parseFloat] is a NaN, an infinity, a zero or a
    binary64 number in canonical form. *)
Lemma parseFloat_valid (s : string) :
  valid_binary JS.prec JS.emax (JS.parseFloat s) = true.
Proof.
  unfold JS.parseFloat.
  repeat match goal with
         | |- context [match ?x with _ => _ end] => destruct x
         end; apply strUnsignedDecimalLiteral_valid.
Qed.

(** ** The hundredths printed by [toFixed(2)] *)

Lemma bounded_facts (m : positive) (e : Z) :
  bounded JS.prec JS.emax m e = true ->
  Zpos (digits2_pos m) <= 53 /\ -1074 <= e /\
  (-1074 < e -> Zpos (digits2_pos m) = 53).
Proof.
  unfold bounded. intros H. apply andb_true_iff in H as [Hc _].
  apply canonical_fexp in Hc. rewrite fexp_eq in Hc. lia.
Qed.

(** On numbers of the format the comparison of [SpecFloat] is the
    comparison of the values, here scaled by [2^S]. *)
Lemma le_value (m1 m2 : positive) (e1 e2 S : Z) :
  bounded JS.prec JS.emax m1 e1 = true ->
  bounded JS.prec JS.emax m2 e2 = true ->
  JS.le (S754_finite false m1 e1) (S754_finite false m2 e2) = true ->
  - e1 <= S -> - e2 <= S ->
  Zpos m1 * 2 ^ (e1 + S) <= Zpos m2 * 2 ^ (e2 + S).
Proof.
  intros B1 B2 Hle H1 H2.
  destruct (bounded_facts m1 e1 B1) as (D1 & L1 & _).
  destruct (bounded_facts m2 e2 B2) as (D2 & L2 & F2).
  pose proof (digits2_bounds m1) as [_ Hhi1].
  pose proof (digits2_bounds m2) as [Hlo2 _].
  pose proof (pow2_pos (e1 + S) ltac:(lia)).
  pose proof (pow2_pos (e2 + S) ltac:(lia)).
  unfold JS.le, SFleb in Hle. simpl in Hle.
  destruct (e1 ?= e2) eqn:C.
  - apply Z.compare_eq in C. subst e2.
    change (Pos.compare_cont Eq m1 m2) with (m1 ?= m2)%positive in Hle.
    destruct (m1 ?= m2)%positive eqn:M; try discriminate.
    + apply Pos.compare_eq in M. subst m2. lia.
    + rewrite Pos.compare_lt_iff in M. nia.
  - rewrite Z.compare_lt_iff in C. specialize (F2 ltac:(lia)).
    rewrite F2 in Hlo2.
    assert (Zpos m1 < 2 ^ 53).
    { apply Z.lt_le_trans with (2 ^ Zpos (digits2_pos m1)); [ exact Hhi1 |].
      apply Z.pow_le_mono_r; lia. }
    assert (H53 : 2 ^ 53 * 2 ^ (e1 + S) <= 2 ^ (53 - 1) * 2 ^ (e2 + S)).
    { rewrite <- !Z.pow_add_r by lia. apply Z.pow_le_mono_r; lia. }
    nia.
  - discriminate.
Qed.

Lemma cents_scaled (m : positive) (e S : Z) :
  - e <= S -> 0 <= S ->
  cents (S754_finite false m e) =
    (200 * (Zpos m * 2 ^ (e + S)) + 2 ^ S) / (2 * 2 ^ S).
Proof.
  intros H1 H2. unfold cents.
  pose proof (pow2_pos S H2) as HS.
  destruct (0 <=? e) eqn:He.
  - apply Z.leb_le in He. pose proof (pow2_pos e He).
    rewrite Z.pow_add_r by lia.
    replace (200 * (Zpos m * (2 ^ e * 2 ^ S)) + 2 ^ S)
      with ((2 * (Zpos m * 2 ^ e * 100) + 1) * 2 ^ S) by lia.
    rewrite Z.div_mul_cancel_r by lia.
    apply Z.div_unique with 1; lia.
  - apply Z.leb_gt in He. pose proof (pow2_pos (- e) ltac:(lia)).
    pose proof (pow2_pos (e + S) ltac:(lia)).
    assert (E : 2 ^ S = 2 ^ (e + S) * 2 ^ (- e)).
    { rewrite <- Z.pow_add_r by lia. f_equal. lia. }
    rewrite E at 1 2.
    replace (200 * (Zpos m * 2 ^ (e + S)) + 2 ^ (e + S) * 2 ^ (- e))
      with (2 ^ (e + S) * (2 * Zpos m * 100 + 2 ^ (- e))) by lia.
    replace (2 * (2 ^ (e + S) * 2 ^ (- e)))
      with (2 ^ (e + S) * (2 * 2 ^ (- e))) by lia.
    rewrite Z.div_mul_cancel_l by lia. reflexivity.
Qed.

Lemma cents_nonneg (x : JS.number) : 0 <= cents x.
Proof.
  destruct x as [| | |[] m e]; simpl; try lia.
  destruct (0 <=? e) eqn:He.
  - apply Z.leb_le in He. pose proof (pow2_pos e He). nia.
  - apply Z.leb_gt in He. pose proof (pow2_pos (- e) ltac:(lia)).
    apply Z.div_pos; lia.
Qed.

(** Printing to two decimals keeps the order. *)
Lemma cents_mono (m1 m2 : positive) (e1 e2 : Z) :
  bounded JS.prec JS.emax m1 e1 = true ->
  bounded JS.prec JS.emax m2 e2 = true ->
  JS.le (S754_finite false m1 e1) (S754_finite false m2 e2) = true ->
  cents (S754_finite false m1 e1) <= cents (S754_finite false m2 e2).
Proof.
  intros B1 B2 Hle.
  destruct (bounded_facts m1 e1 B1) as (_ & L1 & _).
  destruct (bounded_facts m2 e2 B2) as (_ & L2 & _).
  pose proof (le_value m1 m2 e1 e2 1074 B1 B2 Hle ltac:(lia) ltac:(lia)).
  rewrite (cents_scaled m1 e1 1074), (cents_scaled m2 e2 1074) by lia.
  pose proof (pow2_pos 1074 ltac:(lia)).
  apply Z.div_le_mono; lia.
Qed.

Lemma toFixed_cents (x : JS.number) :
  ordinary x = true -> JS.toFixed 2 x = JS.fixedDigits 2 (cents x).
Proof.
  destruct x as [s| | |[] m e]; simpl; try discriminate.
  - reflexivity.
  - intros H. apply negb_true_iff in H. unfold JS.toFixed. rewrite H.
    unfold cents. change (10 ^ Z.of_nat 2) with 100.
    destruct (0 <=? e); reflexivity.
Qed.

(** Between two ordinary numbers of the format there are only ordinary
    numbers, and their hundredths lie between the hundredths of the two. *)
Lemma ordinary_between (lo x hi : JS.number) :
  valid_binary JS.prec JS.emax lo = true ->
  valid_binary JS.prec JS.emax x = true ->
  valid_binary JS.prec JS.emax hi = true ->
  ordinary lo = true -> ordinary hi = true ->
  JS.le lo x = true -> JS.le x hi = true ->
  ordinary x = true /\ cents lo <= cents x <= cents hi.
Proof.
  intros Vlo Vx Vhi Olo Ohi Hlo Hhi.
  destruct x as [sx|sx| |sx mx ex].
  - split; [ reflexivity |]. simpl cents at 2 3.
    split; [ | apply cents_nonneg ].
    destruct lo as [| | |[] ml el]; simpl; try lia.
    destruct sx; discriminate.
  - exfalso. destruct sx.
    + destruct lo as [| | |[] ml el]; discriminate.
    + destruct hi as [| | |[] mh eh]; discriminate.
  - exfalso. destruct lo; discriminate.
  - destruct sx.
    { exfalso. destruct lo as [| | |[] ml el]; discriminate. }
    destruct hi as [sh| | |[] mh eh]; try discriminate.
    simpl in Vx, Vhi.
    destruct (bounded_facts mx ex Vx) as (_ & Lx & _).
    destruct (bounded_facts mh eh Vhi) as (Dh & Lh & _).
    pose proof (le_value mx mh ex eh 1074 Vx Vhi Hhi ltac:(lia) ltac:(lia))
      as Hv.
    split; [ | split ].
    + simpl. apply negb_true_iff. apply andb_false_iff.
      destruct (0 <=? ex) eqn:He; [ right | now left ].
      apply Z.leb_le in He. apply Z.leb_gt.
      simpl in Ohi. apply negb_true_iff in Ohi.
      pose proof (pow2_pos 1074 ltac:(lia)) as HS.
      pose proof (pow2_pos ex He).
      rewrite Z.pow_add_r in Hv by lia.
      apply andb_false_iff in Ohi as [Oh|Oh].
      * apply Z.leb_gt in Oh.
        pose proof (digits2_bounds mh) as [_ Hmh].
        assert (Zpos mh < 2 ^ 53).
        { apply Z.lt_le_trans with (2 ^ Zpos (digits2_pos mh));
            [ exact Hmh | apply Z.pow_le_mono_r; lia ]. }
        assert (2 ^ (eh + 1074) <= 2 ^ 1073)
          by (apply Z.pow_le_mono_r; lia).
        pose proof (pow2_pos (eh + 1074) ltac:(lia)).
        assert (E1074 : 2 ^ 1074 = 2 * 2 ^ 1073)
          by (change 1074 with (Z.succ 1073);
              rewrite Z.pow_succ_r by lia; reflexivity).
        assert (2 ^ 53 < 10 ^ 21) by reflexivity.
        pose proof (pow2_pos 1073 ltac:(lia)).
        destruct (Z_lt_le_dec (Zpos mx * 2 ^ ex) (10 ^ 21)) as [|Hge];
          [ assumption | exfalso ].
        assert (10 ^ 21 * 2 ^ 1074 <= Zpos mh * 2 ^ (eh + 1074)) by nia.
        assert (Zpos mh * 2 ^ (eh + 1074) < 2 ^ 53 * 2 ^ 1073) by nia.
        nia.
      * apply Z.leb_gt in Oh.
        destruct (Z_lt_le_dec eh 0) as [Hneg|Hpos].
        -- pose proof (digits2_bounds mh) as [_ Hmh].
           assert (Zpos mh < 2 ^ 53).
           { apply Z.lt_le_trans with (2 ^ Zpos (digits2_pos mh));
               [ exact Hmh | apply Z.pow_le_mono_r; lia ]. }
           assert (2 ^ (eh + 1074) <= 2 ^ 1073)
             by (apply Z.pow_le_mono_r; lia).
           pose proof (pow2_pos (eh + 1074) ltac:(lia)).
           assert (E1074 : 2 ^ 1074 = 2 * 2 ^ 1073)
             by (change 1074 with (Z.succ 1073);
                 rewrite Z.pow_succ_r by lia; reflexivity).
           assert (2 ^ 53 < 10 ^ 21) by reflexivity.
           pose proof (pow2_pos 1073 ltac:(lia)).
           destruct (Z_lt_le_dec (Zpos mx * 2 ^ ex) (10 ^ 21)) as [|Hge];
             [ assumption | exfalso ].
           assert (10 ^ 21 * 2 ^ 1074 <= Zpos mh * 2 ^ (eh + 1074)) by nia.
           assert (Zpos mh * 2 ^ (eh + 1074) < 2 ^ 53 * 2 ^ 1073) by nia.
           nia.
        -- pose proof (pow2_pos eh Hpos).
           rewrite (Z.pow_add_r 2 eh 1074) in Hv by lia.
           nia.
    + destruct lo as [sl| | |[] ml el]; try discriminate.
      * simpl. apply (cents_nonneg (S754_finite false mx ex)).
      * now apply cents_mono.
    + now apply cents_mono.
Qed.

(** Adding a positive number of the format to a number of the format gives
    a number of the format. *)
Lemma add_valid (x : JS.number) (mc : positive) (ec : Z) :
  valid_binary JS.prec JS.emax x = true ->
  bounded JS.prec JS.emax mc ec = true ->
  valid_binary JS.prec JS.emax (JS.add x (S754_finite false mc ec)) = true.
Proof.
  intros Vx Vc. unfold JS.add.
  destruct x as [sx|sx| |sx mx ex]; simpl; auto.
  destruct (_ + _) as [|p|p]; simpl; auto using binary_round_valid.
Qed.

(** ** Decimal strings *)

Lemma length_append (a b : string) :
  String.length (a ++ b)%string = (String.length a + String.length b)%nat.
Proof. induction a as [|c a IH]; simpl; [ reflexivity | now rewrite IH ]. Qed.

Lemma allDigits_append (a b : string) :
  allDigits (a ++ b)%string = allDigits a && allDigits b.
Proof.
  induction a as [|c a IH]; simpl; [ reflexivity |].
  now rewrite IH, andb_assoc.
Qed.

Lemma valueOf_append (a b : string) (acc : Z) :
  valueOf acc (a ++ b)%string = valueOf (valueOf acc a) b.
Proof. revert acc. induction a as [|c a IH]; intros acc; simpl; auto. Qed.

Lemma decimalDigits_digits (a rest : string) (acc n : Z) :
  allDigits a = true ->
  match rest with
  | String c _ => JS.isDecimalDigit c = false
  | EmptyString => True
  end ->
  JS.decimalDigits (a ++ rest)%string acc n =
    (valueOf acc a, n + Z.of_nat (String.length a), rest).
Proof.
  intros Ha Hrest. revert acc n.
  induction a as [|c a IH]; intros acc n; simpl in *.
  - change (Z.of_nat 0) with 0. rewrite Z.add_0_r.
    destruct rest as [|c r]; simpl; [ reflexivity | now rewrite Hrest ].
  - apply andb_true_iff in Ha as [Hc Ha]. rewrite Hc, (IH Ha).
    f_equal. f_equal. lia.
Qed.

Lemma allDigits_uint (d : Decimal.uint) :
  allDigits (NilEmpty.string_of_uint d) = true.
Proof. induction d; simpl; auto. Qed.

Lemma valueOf_uint_acc (d : Decimal.uint) (acc : positive) :
  valueOf (Zpos acc) (NilEmpty.string_of_uint d)
  = Zpos (Pos.of_uint_acc d acc).
Proof.
  revert acc. induction d; intros acc; simpl; try reflexivity;
    rewrite <- IHd; f_equal;
    match goal with
    | |- context [JS.digitValue ?c] =>
        let v := eval vm_compute in (JS.digitValue c) in
        change (JS.digitValue c) with v
    end; lia.
Qed.

Lemma valueOf_uint (d : Decimal.uint) :
  valueOf 0 (NilEmpty.string_of_uint d) = Z.of_N (Pos.of_uint d).
Proof.
  induction d; simpl; try reflexivity; try exact IHd;
    apply (valueOf_uint_acc d).
Qed.

Lemma digitsOf_digits (n : Z) : allDigits (JS.digitsOf n) = true.
Proof.
  unfold JS.digitsOf, NilZero.string_of_uint.
  destruct (N.to_uint (Z.to_N n)); try reflexivity; apply allDigits_uint.
Qed.

Lemma digitsOf_value (n : Z) : 0 <= n -> valueOf 0 (JS.digitsOf n) = n.
Proof.
  intros Hn. unfold JS.digitsOf.
  assert (F : forall d, valueOf 0 (NilZero.string_of_uint d)
                        = Z.of_N (Pos.of_uint d)).
  { intros d. destruct d; try reflexivity;
      exact (valueOf_uint _). }
  rewrite F. change Pos.of_uint with N.of_uint.
  rewrite DecimalN.Unsigned.of_to. lia.
Qed.

Lemma zeros_digits (k : nat) : allDigits (JS.zeros k) = true.
Proof. induction k; simpl; auto. Qed.

Lemma zeros_value (k : nat) : valueOf 0 (JS.zeros k) = 0.
Proof. induction k; simpl; auto. Qed.

Lemma zeros_length (k : nat) : String.length (JS.zeros k) = k.
Proof. induction k; simpl; auto. Qed.

Lemma substring_split (a : nat) (s : string) :
  (a <= String.length s)%nat ->
  (substring 0 a s ++ substring a (String.length s - a) s)%string = s /\
  String.length (substring 0 a s) = a.
Proof.
  revert s. induction a as [|a IH]; intros s Ha.
  - simpl. rewrite Nat.sub_0_r. split; [ | now destruct s ].
    assert (F : forall t, substring 0 (String.length t) t = t).
    { induction t as [|c t IHt]; simpl; [ reflexivity | now rewrite IHt ]. }
    destruct s; [ reflexivity |]. simpl. now rewrite F.
  - destruct s as [|c s]; simpl in Ha; [ lia |].
    destruct (IH s ltac:(lia)) as [E L].
    cbn [substring String.length Nat.sub]. rewrite L.
    split; [ | reflexivity ].
    transitivity (String c (substring 0 a s
                            ++ substring a (String.length s - a) s)%string);
      [ reflexivity | now rewrite E ].
Qed.

Lemma append_empty_r (s : string) : (s ++ "")%string = s.
Proof.
  induction s as [|c s IH]; [ reflexivity |].
  change (String c s ++ "")%string with (String c (s ++ "")%string).
  now rewrite IH.
Qed.

Lemma digit_cases (c : ascii) :
  JS.isDecimalDigit c = true ->
  c = "0"%char \/ c = "1"%char \/ c = "2"%char \/ c = "3"%char \/
  c = "4"%char \/ c = "5"%char \/ c = "6"%char \/ c = "7"%char \/
  c = "8"%char \/ c = "9"%char.
Proof.
  destruct c as [[] [] [] [] [] [] [] []]; vm_compute; intros H;
    try discriminate H; tauto.
Qed.

(** A string that begins with a digit is read as an unsigned literal. *)
Lemma parseFloat_digit_first (c : ascii) (r : string) :
  JS.isDecimalDigit c = true ->
  JS.parseFloat (String c r) =
    (let '(i, ni, r1) := JS.decimalDigits (String c r) 0 0 in
     match r1 with
     | String "."%char r' =>
         let '(m, nf, r'') := JS.decimalDigits r' i 0 in
         if 0 <? ni + nf then JS.of_decimal false m (JS.exponentPart r'' - nf)
         else JS.NaN
     | _ => if 0 <? ni then JS.of_decimal false i (JS.exponentPart r1)
            else JS.NaN
     end).
Proof.
  intros Hc.
  destruct (digit_cases c Hc) as [E|[E|[E|[E|[E|[E|[E|[E|[E|E]]]]]]]]];
    subst c; reflexivity.
Qed.

(** The two-decimal rendering of [n] hundredths is read as [n / 100]. *)
Lemma parseFloat_fixedDigits (n : Z) :
  0 <= n -> JS.parseFloat (JS.fixedDigits 2 n) = JS.of_decimal false n (-2).
Proof.
  intros Hn. unfold JS.fixedDigits.
  set (M := (JS.zeros (3 - String.length (JS.digitsOf n))
             ++ JS.digitsOf n)%string).
  assert (HM : allDigits M = true).
  { subst M. now rewrite allDigits_append, zeros_digits, digitsOf_digits. }
  assert (HV : valueOf 0 M = n).
  { subst M. now rewrite valueOf_append, zeros_value, digitsOf_value. }
  assert (HL : (3 <= String.length M)%nat).
  { subst M. rewrite length_append, zeros_length. lia. }
  clearbody M. cbv zeta.
  set (a := (String.length M - 2)%nat).
  destruct (substring_split a M ltac:(lia)) as [E La].
  replace (String.length M - a)%nat with 2%nat in E by lia.
  set (A := substring 0 a M) in *. set (B := substring a 2 M) in *.
  assert (Lb : String.length B = 2%nat).
  { pose proof (f_equal String.length E) as L.
    rewrite length_append in L. lia. }
  rewrite <- E, allDigits_append in HM.
  apply andb_true_iff in HM as [HA HB].
  rewrite <- E, valueOf_append in HV.
  clearbody A B. clear E.
  destruct A as [|c A]; [ simpl in La; lia |].
  simpl in HA. apply andb_true_iff in HA as [Hc HA'].
  change (String c A ++ "." ++ B)%string
    with (String c (A ++ "." ++ B)%string).
  rewrite (parseFloat_digit_first c _ Hc).
  change (String c (A ++ "." ++ B)%string)
    with (String c A ++ String "." B)%string.
  rewrite (decimalDigits_digits (String c A) (String "." B) 0 0);
    [ | simpl; now rewrite Hc, HA' | reflexivity ].
  cbv iota beta.
  rewrite <- (append_empty_r B) at 1.
  rewrite (decimalDigits_digits B "" _ 0 HB I).
  rewrite La, Lb, HV.
  replace (0 <? 0 + Z.of_nat a + (0 + Z.of_nat 2)) with true
    by (symmetry; apply Z.ltb_lt; lia).
  reflexivity.
Qed.

(** ** The number nearest to a count of hundredths *)

(** The quotient and the exponent that [of_decimal] rounds for a negative
    power of ten. *)
Lemma SFdiv_core_value (m1 m2 : positive) :
  let e0 := Z.min (Z.max (Zdigits2 (Zpos m1) - Zdigits2 (Zpos m2) - 53)
                         (-1074)) 0 in
  let '(q, e', _) :=
    SFdiv_core_binary JS.prec JS.emax (Zpos m1) 0 (Zpos m2) 0 in
  e' = e0 /\ q = Zpos m1 * 2 ^ (- e0) / Zpos m2.
Proof.
  intros e0. unfold SFdiv_core_binary.
  set (d1 := Zdigits2 (Zpos m1)) in *. set (d2 := Zdigits2 (Zpos m2)) in *.
  change (IntDef.Z.sub (IntDef.Z.add d1 0) (IntDef.Z.add d2 0))
    with (d1 + 0 - (d2 + 0)).
  change (IntDef.Z.sub 0 0) with 0.
  set (e' := IntDef.Z.min (fexp JS.prec JS.emax (d1 + 0 - (d2 + 0))) 0).
  assert (He' : e' = e0).
  { subst e' e0. rewrite fexp_eq.
    change IntDef.Z.min with Z.min. lia. }
  change (IntDef.Z.sub 0 e') with (0 - e').
  set (m' := match 0 - e' with
             | 0 => Zpos m1
             | Zpos _ => Z.shiftl (Zpos m1) (0 - e')
             | Zneg _ => 0
             end).
  assert (Hm' : m' = Zpos m1 * 2 ^ (- e')).
  { subst m'. destruct (0 - e') as [|p|p] eqn:S; try lia.
    - replace (- e') with 0 by lia. simpl. lia.
    - rewrite Z.shiftl_mul_pow2 by lia. f_equal. f_equal. lia. }
  clearbody m' e'.
  change (IntDef.Z.div_eucl m' (Zpos m2)) with (Z.div_eucl m' (Zpos m2)).
  assert (Hq : fst (Z.div_eucl m' (Zpos m2)) = m' / Zpos m2) by reflexivity.
  destruct (Z.div_eucl m' (Zpos m2)) as [q r]. simpl in Hq.
  split; [ exact He' |]. rewrite Hq, Hm', He'. reflexivity.
Qed.

(** Below [2^50] hundredths the nearest number prints as the same
    hundredths: the two roundings move the quotient by less than three
    units of its last place, which is less than half a hundredth. *)
Lemma cents_of_hundredths (p : positive) :
  Zpos p < 2 ^ 50 ->
  exists m e,
    JS.of_decimal false (Zpos p) (-2) = S754_finite false m e /\
    e < 0 /\
    cents (S754_finite false m e) = Zpos p.
Proof.
  intros Hp. unfold JS.of_decimal.
  change (0 <=? -2) with false. change (10 ^ (- -2)) with 100. cbv iota.
  pose proof (SFdiv_core_value p 100) as Hdiv. cbv zeta in Hdiv.
  change (Zdigits2 100) with 7 in Hdiv.
  set (d1 := Zdigits2 (Zpos p)) in *.
  pose proof (Zdigits2_bounds (Zpos p) ltac:(lia)) as [Hlo Hhi].
  fold d1 in Hlo, Hhi.
  assert (Hd1 : 1 <= d1 <= 50).
  { split.
    - subst d1. simpl. lia.
    - destruct (Z_le_gt_dec d1 50) as [|Hgt]; [ assumption | exfalso ].
      assert (2 ^ 50 <= 2 ^ (d1 - 1)) by (apply Z.pow_le_mono_r; lia).
      lia. }
  destruct (SFdiv_core_binary JS.prec JS.emax (Zpos p) 0 100 0)
    as [[q e'] l].
  destruct Hdiv as [He' Hq].
  replace (Z.min (Z.max (d1 - 7 - 53) (-1074)) 0) with (d1 - 60) in He', Hq
    by lia.
  set (S := 60 - d1). replace (- (d1 - 60)) with S in Hq by (subst S; lia).
  assert (HS : 10 <= S <= 59) by (subst S; lia).
  pose proof (pow2_pos S ltac:(lia)) as HT.
  assert (HT10 : 2 ^ 10 <= 2 ^ S) by (apply Z.pow_le_mono_r; lia).
  change (2 ^ 10) with 1024 in HT10.
  (** the scaled mantissa lies in [2^59, 2^60) *)
  assert (Hscaled : 2 ^ 59 <= Zpos p * 2 ^ S < 2 ^ 60).
  { replace 59 with (d1 - 1 + S) by (subst S; lia).
    replace 60 with (d1 + S) by (subst S; lia).
    rewrite !Z.pow_add_r by lia. nia. }
  set (P := Zpos p * 2 ^ S) in *.
  assert (Hq100 : 100 * q <= P < 100 * q + 100).
  { subst q. pose proof (Z.div_mod P 100 ltac:(lia)).
    pose proof (Z.mod_pos_bound P 100 ltac:(lia)). lia. }
  assert (Hqr : 2 ^ 52 <= q < 2 ^ 54).
  { change (2 ^ 59) with 576460752303423488 in Hscaled.
    change (2 ^ 60) with 1152921504606846976 in Hscaled.
    change (2 ^ 52) with 4503599627370496.
    change (2 ^ 54) with 18014398509481984. lia. }
  (** the first rounding *)
  destruct (binary_round_aux_shape false q e' l ltac:(lia))
    as (q' & Hq' & ->).
  set (dq := Zdigits2 q) in *.
  assert (Hdq : 53 <= dq <= 54).
  { split.
    - pose proof (Zdigits2_le (2 ^ 52) q ltac:(lia) ltac:(lia)) as D.
      rewrite Zdigits2_pow2 in D by lia. subst dq. lia.
    - pose proof (Zdigits2_bounds q ltac:(lia)) as [D _]. fold dq in D.
      destruct (Z_le_gt_dec dq 54) as [|Hgt]; [ assumption | exfalso ].
      assert (2 ^ 54 <= 2 ^ (dq - 1)) by (apply Z.pow_le_mono_r; lia).
      lia. }
  rewrite fexp_eq in Hq' |- *.
  replace (Z.max (Z.max (dq + e' - 53) (-1074) - e') 0) with (dq - 53)
    in Hq' |- * by lia.
  set (k := dq - 53) in *.
  assert (Hk : k = 0 \/ k = 1) by (subst k; lia).
  pose proof (Zdigits2_div q k ltac:(lia) ltac:(lia)) as Hdk. fold dq in Hdk.
  replace (dq - k) with 53 in Hdk by (subst k; lia).
  pose proof (Zdigits2_bounds (q / 2 ^ k)) as Hb.
  assert (Hqk : 2 ^ 52 <= q / 2 ^ k < 2 ^ 53).
  { assert (0 < q / 2 ^ k).
    { destruct Hk as [-> | ->].
      - simpl. rewrite Z.div_1_r. lia.
      - change (2 ^ 1) with 2. apply Z.div_str_pos.
        change (2 ^ 52) with 4503599627370496 in Hqr. lia. }
    specialize (Hb ltac:(lia)). rewrite Hdk in Hb. exact Hb. }
  (** the scaled result stays within three units of the quotient *)
  assert (HV : q - 1 <= q' * 2 ^ k <= q + 2).
  { destruct Hk as [E | E]; rewrite E in *.
    - simpl in *. rewrite Z.div_1_r in *. lia.
    - change (2 ^ 1) with 2 in *.
      pose proof (Z.div_mod q 2 ltac:(lia)).
      pose proof (Z.mod_pos_bound q 2 ltac:(lia)). lia. }
  (** the second rounding is exact *)
  destruct (finish_pos false q' (e' + k) ltac:(lia) ltac:(lia))
    as (m & k2 & Hk2 & Ek2 & Em & ->).
  rewrite fexp_eq in Ek2.
  set (dq' := Zdigits2 q') in *.
  assert (Hdq' : 53 <= dq' <= 54).
  { split.
    - pose proof (Zdigits2_le (2 ^ 52) q' ltac:(lia) ltac:(lia)) as D.
      rewrite Zdigits2_pow2 in D by lia. subst dq'. lia.
    - pose proof (Zdigits2_bounds q' ltac:(lia)) as [D _]. fold dq' in D.
      destruct (Z_le_gt_dec dq' 54) as [|Hgt]; [ assumption | exfalso ].
      assert (2 ^ 54 <= 2 ^ (dq' - 1)) by (apply Z.pow_le_mono_r; lia).
      change (2 ^ 54) with (2 * 2 ^ 53) in *. lia. }
  assert (Ek2' : k2 = dq' - 53) by lia.
  assert (Hexact : Zpos m * 2 ^ k2 = q').
  { destruct (Z.eq_dec dq' 53) as [E|E].
    - replace k2 with 0 in * by lia. simpl in *.
      rewrite Z.div_1_r in Em. lia.
    - replace k2 with 1 in * by lia. change (2 ^ 1) with 2 in *.
      pose proof (Zdigits2_bounds q' ltac:(lia)) as [D _]. fold dq' in D.
      replace (dq' - 1) with 53 in D by lia.
      assert (q' = 2 ^ 53) by lia. subst q'.
      rewrite Em. reflexivity. }
  replace (e' + k + k2 <=? JS.emax - JS.prec) with true
    by (symmetry; apply Z.leb_le; unfold JS.emax, JS.prec; lia).
  exists m, (e' + k + k2). split; [ reflexivity |].
  split; [ lia |].
  rewrite (cents_scaled m (e' + k + k2) S) by lia.
  replace (e' + k + k2 + S) with (k2 + k) by (subst S; lia).
  rewrite Z.pow_add_r by lia.
  replace (Zpos m * (2 ^ k2 * 2 ^ k)) with (q' * 2 ^ k) by (rewrite <- Hexact; lia).
  set (V := q' * 2 ^ k) in *. set (T := 2 ^ S) in *.
  symmetry. apply Z.div_unique with (200 * V + T - 2 * T * Zpos p).
  - left. subst P. lia.
  - lia.
Qed.

(** ** Two-decimal amounts *)

Lemma le_false_lt (x y : JS.number) :
  JS.isNaN x = false -> JS.isNaN y = false ->
  JS.le x y = false -> JS.lt y x = true.
Proof.
  intros Hx Hy Hle. rewrite (lt_negb_ge y x Hy Hx). unfold JS.ge.
  fold (JS.le x y). now rewrite Hle.
Qed.

(** The number nearest to [k] hundredths is an ordinary number of the
    format that prints as [k] hundredths. *)
Lemma hundredths_facts (k : Z) :
  0 <= k < 10 ^ 15 ->
  ordinary (JS.of_decimal false k (-2)) = true /\
  cents (JS.of_decimal false k (-2)) = k /\
  JS.isNaN (JS.of_decimal false k (-2)) = false.
Proof.
  intros [Hlo Hhi]. destruct k as [|p|p]; [ | | lia ].
  - repeat split; reflexivity.
  - destruct (cents_of_hundredths p) as (m & e & -> & He & Hc).
    { change (2 ^ 50) with 1125899906842624.
      change (10 ^ 15) with 1000000000000000 in Hhi. lia. }
    split; [ | split; [ exact Hc | reflexivity ] ].
    simpl. replace (0 <=? e) with false
      by (symmetry; apply Z.leb_gt; lia). reflexivity.
Qed.

(** More hundredths give a number that is not smaller. *)
Lemma hundredths_mono (a c : Z) :
  0 <= a -> a <= c -> c < 10 ^ 15 ->
  JS.le (JS.of_decimal false a (-2)) (JS.of_decimal false c (-2)) = true.
Proof.
  intros Ha Hac Hc.
  destruct (hundredths_facts a ltac:(lia)) as (_ & Ca & Na).
  destruct (hundredths_facts c ltac:(lia)) as (_ & Cc & Nc).
  destruct (Z.eq_dec a c) as [->|Hne]; [ now apply le_refl |].
  destruct (JS.le (JS.of_decimal false a (-2)) (JS.of_decimal false c (-2)))
    eqn:Hle; [ reflexivity | exfalso ].
  pose proof (lt_le _ _ (le_false_lt _ _ Na Nc Hle)) as Hrev.
  pose proof (of_decimal_valid false a (-2)) as Va.
  pose proof (of_decimal_valid false c (-2)) as Vc.
  destruct c as [|pc|pc]; [ lia | | lia ].
  destruct (cents_of_hundredths pc) as (mc & ec & Ec & _ & _).
  { change (2 ^ 50) with 1125899906842624.
    change (10 ^ 15) with 1000000000000000 in Hc. lia. }
  rewrite Ec in *.
  destruct a as [|pa|pa]; [ | | lia ].
  - discriminate Hle.
  - destruct (cents_of_hundredths pa) as (ma & ea & Ea & _ & _).
    { change (2 ^ 50) with 1125899906842624.
      change (10 ^ 15) with 1000000000000000 in Hc. lia. }
    rewrite Ea in *. simpl in Va, Vc.
    pose proof (cents_mono mc ma ec ea Vc Va Hrev). lia.
Qed.


(* ===================================================================== *)
(** * Part VIII.  The stepper and the orchestrator                        *)
(* ===================================================================== *)

Ltac eff :=
  unfold mbind, mret, Eff_bind, Eff_ret, console, await_request,
    new_Date_now, sleep in *; simpl in *.

Section CoreFacts.
Context {W : Type} `{!Host W}.
Variable increment : JS.number.

Abbreviation stepper := (Core.incrementVariantPrice increment).
Abbreviation currentOf v := (JS.parseFloat (price v)).
Abbreviation targetOf v :=
  (JS.parseFloat (toStringNullable (compareAtPrice v))).
Abbreviation all bs := (forallb (fun b : bool => b) bs).

(** When the guard [currentPrice < compareAtPrice] is false the stepper
    does nothing and answers [true]. *)
Lemma stepper_idle (v : Variant) (w : W) :
  JS.lt (currentOf v) (targetOf v) = false ->
  stepper v w = (true, [], w).
Proof.
  intros H. unfold Core.incrementVariantPrice. rewrite H. reflexivity.
Qed.

(** When the guard holds the stepper sends exactly one request, the price
    update, and answers [false] unless the update is accepted. *)
Lemma stepper_active (v : Variant) (w : W) :
  JS.lt (currentOf v) (targetOf v) = true ->
  let newPrice := Core.newPriceOf increment (currentOf v) (targetOf v) in
  let r := UPDATE_PRODUCT_VARIANT_MUTATION (variant_id v)
                                           (JS.toFixed 2 newPrice) in
  stepper v w =
    match fst (request r w) with
    | Data [] =>
        (JS.strictEq newPrice (targetOf v),
         [Requested r;
          Console (Updated_variant_price (variant_id v)
                                         (JS.toFixed 2 newPrice))],
         snd (request r w))
    | GraphQLErrors =>
        (false, [Requested r; Console GraphQL_errors], snd (request r w))
    | _ =>
        (false, [Requested r; Console Error_updating_variant_price],
         snd (request r w))
    end.
Proof.
  intros H newPrice r. unfold Core.incrementVariantPrice. rewrite H.
  fold newPrice. fold r. eff.
  destruct (request r w) as [[| |[|u us]] w']; reflexivity.
Qed.


(** The flag of the loop is the conjunction of its initial value with the
    answers of the stepper. *)
Lemma forVariants_results (vs : list Variant) (acc : bool) (w : W) :
  fst (fst (Core.forVariants increment vs acc w)) =
    acc && all (passResults increment vs w).
Proof.
  revert acc w. induction vs as [|v vs IH]; intros acc w; simpl.
  - eff. now rewrite andb_true_r.
  - eff. destruct (stepper v w) as [[b t] w1].
    specialize (IH (if negb b then false else acc) w1).
    destruct (Core.forVariants increment vs _ w1) as [[b1 t1] w2].
    simpl in *. rewrite IH. destruct b, acc; reflexivity.
Qed.


(** The world a pass leaves behind does not depend on the flag. *)
Lemma forVariants_flag_irrelevant (vs : list Variant) (a b : bool) (w : W) :
  snd (fst (Core.forVariants increment vs a w)) =
    snd (fst (Core.forVariants increment vs b w)) /\
  snd (Core.forVariants increment vs a w) =
    snd (Core.forVariants increment vs b w).
Proof.
  revert a b w. induction vs as [|v vs IH]; intros a b w; simpl.
  - eff. auto.
  - eff. destruct (stepper v w) as [[c t] w1].
    specialize (IH (if negb c then false else a)
                   (if negb c then false else b) w1).
    destruct (Core.forVariants increment vs (if negb c then false else a) w1)
      as [[b1 t1] w2].
    destruct (Core.forVariants increment vs (if negb c then false else b) w1)
      as [[b2 t2] w3].
    simpl in *. destruct IH as [-> ->]. auto.
Qed.

Lemma passResults_app (pre post : list Variant) (w : W) :
  passResults increment (pre ++ post) w =
    passResults increment pre w ++
    passResults increment post
      (snd (Core.forVariants increment pre true w)).
Proof.
  revert w. induction pre as [|v pre IH]; intros w; simpl.
  - reflexivity.
  - eff. destruct (stepper v w) as [[c t] w1]. rewrite IH.
    destruct (forVariants_flag_irrelevant pre true
                (if negb c then false else true) w1) as [_ E].
    destruct (Core.forVariants increment pre
                (if negb c then false else true) w1) as [[b2 t2] w3].
    simpl in *. now rewrite E.
Qed.

(** ** C10 *)

(** C10.  When the price or the compare-at price of a variant does not
    parse as a number, the stepper sends nothing and answers [true]; in the
    loop over the variants such a variant leaves the flag, the events and
    the world as they are, so it counts as complete. *)
Theorem C10_unparsable_price_is_complete (v : Variant) (w : W) :
  JS.isNaN (currentOf v) || JS.isNaN (targetOf v) = true ->
  stepper v w = (true, [], w) /\
  (forall vs acc,
      Core.forVariants increment (v :: vs) acc w =
      Core.forVariants increment vs acc w).
Proof.
  intros HNaN.
  assert (Hidle : stepper v w = (true, [], w))
    by (apply stepper_idle, lt_of_isNaN, HNaN).
  split; [ exact Hidle |].
  intros vs acc. simpl. eff. rewrite Hidle. simpl.
  destruct (Core.forVariants increment vs acc w) as [[b t] w'].
  reflexivity.
Qed.

(** ** C5 *)

Lemma requestsOf_app (t1 t2 : list Event) :
  requestsOf (t1 ++ t2) = requestsOf t1 ++ requestsOf t2.
Proof. unfold requestsOf. apply omap_app. Qed.

(** The requests of the stepper and of the loop over the variants. *)
Lemma stepper_requests (v : Variant) (w : W) :
  requestsOf (snd (fst (Core.incrementVariantPrice increment v w))) =
    if belowTarget v then [priceUpdateOf increment v] else [].
Proof.
  unfold belowTarget, priceUpdateOf.
  destruct (JS.lt (JS.parseFloat (price v)) _) eqn:Hlt.
  - rewrite (stepper_active v w Hlt).
    destruct (fst (request _ w)) as [| |[|u us]]; reflexivity.
  - now rewrite (stepper_idle v w Hlt).
Qed.

Lemma forVariants_requests (vs : list Variant) (acc : bool) (w : W) :
  requestsOf (snd (fst (Core.forVariants increment vs acc w))) =
    priceUpdatesDue increment vs.
Proof.
  unfold priceUpdatesDue. revert acc w.
  induction vs as [|v vs IH]; intros acc w; simpl.
  - reflexivity.
  - eff. pose proof (stepper_requests v w) as Hv.
    destruct (Core.incrementVariantPrice increment v w) as [[b t] w1].
    specialize (IH (if negb b then false else acc) w1).
    destruct (Core.forVariants increment vs _ w1) as [[b1 t1] w2].
    simpl in *. rewrite requestsOf_app, Hv, IH.
    destruct (belowTarget v); reflexivity.
Qed.

(** The answer of the stepper, spelled out. *)
Lemma stepper_settles (v : Variant) (w : W) :
  fst (fst (stepper v w)) = settles increment v w.
Proof.
  unfold settles.
  destruct (JS.lt (currentOf v) (targetOf v)) eqn:Hlt.
  - rewrite (stepper_active v w Hlt). cbv zeta.
    destruct (fst (request _ w)) as [| |[|u us]]; reflexivity.
  - now rewrite (stepper_idle v w Hlt).
Qed.

Lemma passResults_settles (vs : list Variant) (w : W) :
  passResults increment vs w =
    map (fun s => settles increment (fst s) (snd s))
        (passStates increment vs w).
Proof.
  revert w. induction vs as [|v vs IH]; intros w; simpl.
  - reflexivity.
  - pose proof (stepper_settles v w) as Hv.
    destruct (stepper v w) as [[b t] w1]. simpl in *.
    now rewrite Hv, IH.
Qed.

Lemma passStates_variants (vs : list Variant) (w : W) :
  map fst (passStates increment vs w) = vs.
Proof.
  revert w. induction vs as [|v vs IH]; intros w; simpl;
    [ reflexivity | now rewrite IH ].
Qed.

(** A variant that was below its compare-at price and for which the
    stepper answered [true] has been sent its compare-at price, to two
    decimals. *)
Lemma settles_sent (v : Variant) (w : W) :
  settles increment v w = true ->
  belowTarget v = true ->
  priceUpdateOf increment v =
    UPDATE_PRODUCT_VARIANT_MUTATION (variant_id v)
                                    (JS.toFixed 2 (targetOf v)).
Proof.
  unfold settles, belowTarget, priceUpdateOf. intros Hs Hb.
  rewrite Hb in Hs. cbn [negb orb] in Hs. revert Hs.
  destruct (fst (request _ w)) as [| |[|u us]]; try discriminate.
  intros Hs. f_equal. now apply strictEq_toFixed.
Qed.

(** C5 (amended).  [adjustProductPrices] answers [false] when the product
    fetch is rejected, carries [errors] or has no product.  Otherwise its
    answer is the conjunction of the answers of the stepper on the
    variants of the product, taken in order, each in the world the
    variants before it left.  The answer of the stepper on a variant is
    [true] exactly when the price of the variant is not below its
    compare-at price when read (it is at or above it, or one of the two
    does not parse as a number), or its price update is accepted and the
    new price, before it is formatted, is strictly equal to the
    compare-at price.  So when the pass answers [true], every variant
    either was not below its compare-at price when read or has been sent
    its compare-at price, to two decimals, in this pass. *)
Theorem C5_adjustProductPrices_is_conjunction
    (productId : jsval) (dealId : string) (w : W) :
  let reply := fst (request (FETCH_PRODUCT_QUERY productId) w) in
  let w1 := snd (request (FETCH_PRODUCT_QUERY productId) w) in
  let isDealComplete :=
    fst (fst (Core.adjustProductPrices increment productId dealId w)) in
  let events :=
    snd (fst (Core.adjustProductPrices increment productId dealId w)) in
  match reply with
  | Data (Some product) =>
      isDealComplete = all (passResults increment (variants product) w1) /\
      (isDealComplete = true <->
       Forall (fun b => b = true)
              (passResults increment (variants product) w1)) /\
      passResults increment (variants product) w1 =
        map (fun s => settles increment (fst s) (snd s))
            (passStates increment (variants product) w1) /\
      map fst (passStates increment (variants product) w1)
        = variants product /\
      (isDealComplete = true <->
       Forall (fun s => settles increment (fst s) (snd s) = true)
              (passStates increment (variants product) w1)) /\
      (isDealComplete = true ->
       Forall (fun v =>
                 belowTarget v = false \/
                 In (UPDATE_PRODUCT_VARIANT_MUTATION (variant_id v)
                       (JS.toFixed 2 (targetOf v)))
                    (requestsOf events))
              (variants product))
  | _ => isDealComplete = false
  end.
Proof.
  intros reply w1 isDealComplete events.
  subst reply w1 isDealComplete events. unfold Core.adjustProductPrices. eff.
  destruct (request (FETCH_PRODUCT_QUERY productId) w)
    as [[| |[product|]] w1]; simpl; try reflexivity.
  pose proof (forVariants_results (variants product) true w1) as E.
  pose proof (forVariants_requests (variants product) true w1) as R.
  pose proof (passResults_settles (variants product) w1) as S.
  pose proof (passStates_variants (variants product) w1) as V.
  destruct (Core.forVariants increment (variants product) true w1)
    as [[b t] w2].
  simpl in *. split; [ exact E |].
  assert (Hiff : b = true <->
                 Forall (fun b => b = true)
                        (passResults increment (variants product) w1)).
  { rewrite E, forallb_forall, List.Forall_forall.
    split; intros Hall x Hx; specialize (Hall x Hx); auto. }
  assert (Hset : b = true <->
                 Forall (fun s => settles increment (fst s) (snd s) = true)
                        (passStates increment (variants product) w1)).
  { rewrite Hiff, S, List.Forall_map. reflexivity. }
  split; [ exact Hiff |]. split; [ exact S |]. split; [ exact V |].
  split; [ exact Hset |].
  intros Hb. apply Hset in Hb.
  rewrite <- V. rewrite List.Forall_map.
  rewrite List.Forall_forall in Hb |- *. intros [v w'] Hin.
  specialize (Hb (v, w') Hin). simpl in *.
  destruct (belowTarget v) eqn:Hbt; [ right | now left ].
  rewrite requestsOf_app, R. right. apply in_or_app. left.
  unfold priceUpdatesDue. rewrite <- (settles_sent v w' Hb Hbt).
  apply in_map, filter_In. split; [ | exact Hbt ].
  rewrite <- V. apply (in_map fst _ (v, w') Hin).
Qed.

(** ** C1 *)

Lemma lt_not_NaN (x y : JS.number) :
  JS.lt x y = true -> JS.isNaN x = false /\ JS.isNaN y = false.
Proof. destruct x, y; simpl; auto; discriminate. Qed.

Lemma Math_min_cases (a b : JS.number) :
  JS.isNaN a = false -> JS.isNaN b = false ->
  JS.Math_min a b = a \/ JS.Math_min a b = b.
Proof.
  intros Ha Hb. unfold JS.Math_min. rewrite Ha, Hb. simpl.
  destruct (JS.lt a b); auto. destruct (JS.lt b a); auto.
  destruct a as [[]| | |]; auto.
Qed.

Lemma positiveFinite_inv :
  positiveFinite increment ->
  exists m e, increment = S754_finite false m e /\
              bounded JS.prec JS.emax m e = true.
Proof. destruct increment as [| | |[] m e]; simpl; try tauto; eauto. Qed.

(** The price computed inside the guard lies between the price read and
    the compare-at price. *)
Lemma newPriceOf_between (v : Variant) :
  positiveFinite increment ->
  JS.lt (currentOf v) (targetOf v) = true ->
  let newPrice := Core.newPriceOf increment (currentOf v) (targetOf v) in
  JS.le (currentOf v) newPrice = true /\ JS.le newPrice (targetOf v) = true.
Proof.
  intros Hinc Hlt. destruct (positiveFinite_inv Hinc) as (mc & ec & Ei & _).
  destruct (lt_not_NaN _ _ Hlt) as [Hc Ht].
  unfold Core.newPriceOf.
  destruct (JS.lt (JS.sub (targetOf v) (currentOf v)) increment).
  - split; [ now apply lt_le | now apply le_refl ].
  - assert (Hs : JS.isNaN (JS.add (currentOf v) increment) = false)
      by (apply add_finite_not_NaN; [ exact Hc | now rewrite Ei ]).
    split; [ | now apply Math_min_le_r ].
    destruct (Math_min_cases _ (targetOf v) Hs Ht) as [-> | ->].
    + rewrite Ei. apply add_positive_ge; [ exact Hc |].
      apply parseFloat_valid.
    + now apply lt_le.
Qed.

Lemma newPriceOf_valid (v : Variant) :
  positiveFinite increment ->
  JS.lt (currentOf v) (targetOf v) = true ->
  valid_binary JS.prec JS.emax
    (Core.newPriceOf increment (currentOf v) (targetOf v)) = true.
Proof.
  intros Hinc Hlt. destruct (positiveFinite_inv Hinc) as (mc & ec & Ei & Bi).
  destruct (lt_not_NaN _ _ Hlt) as [Hc Ht].
  unfold Core.newPriceOf.
  destruct (JS.lt (JS.sub (targetOf v) (currentOf v)) increment);
    [ apply parseFloat_valid |].
  assert (Hs : JS.isNaN (JS.add (currentOf v) increment) = false)
    by (apply add_finite_not_NaN; [ exact Hc | now rewrite Ei ]).
  destruct (Math_min_cases _ (targetOf v) Hs Ht) as [-> | ->];
    [ | apply parseFloat_valid ].
  rewrite Ei. apply add_valid; [ apply parseFloat_valid | exact Bi ].
Qed.

(** When the guard holds, the price of the contract is the price the
    stepper computes. *)
Lemma Stepper_contract_active (v : Variant) :
  JS.lt (currentOf v) (targetOf v) = true ->
  Stepper_contract increment (currentOf v) (targetOf v)
  = Some (Core.newPriceOf increment (currentOf v) (targetOf v)).
Proof.
  intros Hlt. destruct (lt_not_NaN _ _ Hlt) as [Hc Ht].
  pose proof (lt_negb_ge _ _ Hc Ht) as Hge. rewrite Hlt in Hge.
  unfold Stepper_contract, Core.newPriceOf.
  destruct (JS.ge (currentOf v) (targetOf v)); [ discriminate Hge |].
  destruct (JS.lt (JS.sub (targetOf v) (currentOf v)) increment);
    reflexivity.
Qed.

(** C1 (amended).  For every variant whose price and compare-at price both
    parse as numbers, the stepper meets its reference contract: when
    [currentPrice >= compareAtPrice] it sends nothing, changes nothing and
    answers [true]; otherwise it sends exactly one price update, whose
    price is the two-decimal rendering of the number [newPrice] of the
    contract: [compareAtPrice] when
    [compareAtPrice - currentPrice < increment], and
    [Math.min(currentPrice + increment, compareAtPrice)] otherwise.  For a
    positive finite increment the number [newPrice], before it is
    formatted, never exceeds [compareAtPrice].  The formatted price is
    [newPrice] rounded to hundredths, which can exceed [compareAtPrice]
    (from 5 with compare-at price 10.006 the price sent is 10.01); for a
    price read that is not negative and a compare-at price below [10^21]
    its hundredths do not exceed those of [compareAtPrice] rounded in the
    same way, and when [compareAtPrice] is a two-decimal amount the
    formatted price, read as a number, does not exceed it. *)
Theorem C1_stepper_meets_contract (v : Variant) (w : W) :
  JS.isNaN (currentOf v) = false ->
  JS.isNaN (targetOf v) = false ->
  meetsContract increment v w /\
  (positiveFinite increment ->
   forall newPrice,
     Stepper_contract increment (currentOf v) (targetOf v) = Some newPrice ->
     JS.le newPrice (targetOf v) = true) /\
  (positiveFinite increment ->
   forall newPrice,
     Stepper_contract increment (currentOf v) (targetOf v) = Some newPrice ->
     ordinary (currentOf v) = true ->
     (ordinary (targetOf v) = true ->
      JS.toFixed 2 newPrice = JS.fixedDigits 2 (cents newPrice) /\
      cents newPrice <= cents (targetOf v)) /\
     (twoDecimal (targetOf v) ->
      JS.le (JS.parseFloat (JS.toFixed 2 newPrice)) (targetOf v) = true)).
Proof.
  intros Hc Ht.
  pose proof (lt_negb_ge _ _ Hc Ht) as Hge.
  destruct (JS.lt (currentOf v) (targetOf v)) eqn:Hlt.
  - pose proof (Stepper_contract_active v Hlt) as HS.
    split; [ | split ].
    + unfold meetsContract. rewrite HS.
      rewrite (stepper_active v w Hlt).
      destruct (fst (request _ w)) as [| |[|u us]]; reflexivity.
    + intros Hinc newPrice E. rewrite HS in E. injection E as <-.
      apply (newPriceOf_between v Hinc Hlt).
    + intros Hinc newPrice E Oc. rewrite HS in E. injection E as <-.
      destruct (newPriceOf_between v Hinc Hlt) as [Hlo Hhi].
      pose proof (newPriceOf_valid v Hinc Hlt) as Hval.
      split.
      * intros Ot.
        destruct (ordinary_between (currentOf v)
                    (Core.newPriceOf increment (currentOf v) (targetOf v))
                    (targetOf v)) as [Ho [_ Hc2]];
          auto using parseFloat_valid.
        split; [ now apply toFixed_cents | exact Hc2 ].
      * intros (b & Hb & Eb).
        destruct (hundredths_facts b Hb) as (Ob & Cb & _).
        rewrite <- Eb in Ob, Cb.
        destruct (ordinary_between (currentOf v)
                    (Core.newPriceOf increment (currentOf v) (targetOf v))
                    (targetOf v)) as [Ho [_ Hc2]];
          auto using parseFloat_valid.
        rewrite (toFixed_cents _ Ho).
        rewrite (parseFloat_fixedDigits _ (cents_nonneg _)).
        rewrite Eb at 2. apply hundredths_mono;
          [ apply cents_nonneg | lia | lia ].
  - unfold meetsContract, Stepper_contract.
    symmetry in Hge. apply negb_false_iff in Hge. rewrite Hge.
    split; [ | split; discriminate ].
    rewrite (stepper_idle v w Hlt). auto.
Qed.

(** ** C2 *)




(** ** C7 *)

(** C7 (amended).  When a price update is sent and accepted, the stepper
    answers [true] exactly when the new price, before it is formatted, is
    strictly equal to the compare-at price; the price sent is then the
    two-decimal rendering of the compare-at price. *)
Theorem C7_completion_is_exact_equality (v : Variant) (w : W) :
  let newPrice := Core.newPriceOf increment (currentOf v) (targetOf v) in
  let r := UPDATE_PRODUCT_VARIANT_MUTATION (variant_id v)
                                           (JS.toFixed 2 newPrice) in
  JS.lt (currentOf v) (targetOf v) = true ->
  fst (request r w) = Data [] ->
  stepper v w =
    (JS.strictEq newPrice (targetOf v),
     [Requested r;
      Console (Updated_variant_price (variant_id v) (JS.toFixed 2 newPrice))],
     snd (request r w)) /\
  (fst (fst (stepper v w)) = true <->
   JS.strictEq newPrice (targetOf v) = true) /\
  (fst (fst (stepper v w)) = true ->
   JS.toFixed 2 newPrice = JS.toFixed 2 (targetOf v)).
Proof.
  intros newPrice r Hlt Hok. subst r newPrice.
  rewrite (stepper_active v w Hlt). cbv zeta. rewrite Hok.
  cbn [fst snd]. split; [ reflexivity | split; [ tauto |] ].
  apply strictEq_toFixed.
Qed.

(** ** The failing update of one variant inside a pass *)




(** The stepper and the orchestrator never announce the start of a deal. *)
Lemma stepper_no_start (id : string) (v : Variant) (w : W) :
  startsOf id (snd (fst (stepper v w))) = 0%nat.
Proof.
  destruct (JS.lt (currentOf v) (targetOf v)) eqn:Hlt.
  - rewrite (stepper_active v w Hlt).
    destruct (fst (request _ w)) as [| |[|u us]]; reflexivity.
  - now rewrite (stepper_idle v w Hlt).
Qed.

Lemma startsOf_app (id : string) (t1 t2 : list Event) :
  startsOf id (t1 ++ t2) = (startsOf id t1 + startsOf id t2)%nat.
Proof. unfold startsOf. now rewrite List.filter_app, length_app. Qed.

Lemma forVariants_no_start (id : string) (vs : list Variant) (acc : bool)
    (w : W) :
  startsOf id (snd (fst (Core.forVariants increment vs acc w))) = 0%nat.
Proof.
  revert acc w. induction vs as [|v vs IH]; intros acc w; simpl.
  - reflexivity.
  - eff. pose proof (stepper_no_start id v w) as Hv.
    destruct (stepper v w) as [[b t] w1].
    specialize (IH (if negb b then false else acc) w1).
    destruct (Core.forVariants increment vs _ w1) as [[b1 t1] w2].
    simpl in *. rewrite startsOf_app. lia.
Qed.

Lemma adjustProductPrices_no_start (id : string) (productId : jsval)
    (dealId : string) (w : W) :
  startsOf id
    (snd (fst (Core.adjustProductPrices increment productId dealId w)))
  = 0%nat.
Proof.
  unfold Core.adjustProductPrices. eff.
  destruct (request (FETCH_PRODUCT_QUERY productId) w)
    as [[| |[product|]] w1]; simpl; try reflexivity.
  pose proof (forVariants_no_start id (variants product) true w1) as H.
  destruct (Core.forVariants increment (variants product) true w1)
    as [[b t] w2].
  simpl in *. change (Requested ?r :: ?l) with ([Requested r] ++ l).
  rewrite !startsOf_app, H. reflexivity.
Qed.

End CoreFacts.

(* ===================================================================== *)
(** * Part IX.  The deal scanner and the tracker                          *)
(* ===================================================================== *)

Section ScannerFacts.
Context {W : Type} `{!Host W}.

Abbreviation fieldsIn deal := (fieldsOf (deal_fields deal)).
Abbreviation marked deal :=
  (strictEqString (field (fieldsIn deal) "wtf_pricing_started") "true").

Lemma startsOf_Deal_added (id : string) :
  startsOf id [Console (Deal_added id)] = 1%nat.
Proof. unfold startsOf. simpl. now rewrite String.eqb_refl. Qed.

Lemma updateDeal_events (id : string) (w : W) :
  exists m,
    snd (fst (Index.updateDeal id w)) =
      [Requested (UPDATE_DEAL_MUTATION id); Console m] /\
    (forall id', m <> Deal_added id').
Proof.
  unfold Index.updateDeal. eff.
  destruct (request (UPDATE_DEAL_MUTATION id) w) as [[| |[|u us]] w'];
    simpl; eexists; split; try reflexivity; discriminate.
Qed.

(** ** What the first [if] of the loop body does *)

Lemma Index_startDeal_eq (deal : DealNode) (t : gset string) (w : W) :
  Index.startDeal deal t w =
    if strictEqString (field (fieldsIn deal) "wtf_pricing") "true" then
      if startCondition (W := W) (fieldsIn deal) (fst (Date_now w))
           (negb (bool_decide (deal_id deal ∈ t)))
         && negb (marked deal)
      then
        let '(_, ev, w2) := Index.updateDeal (deal_id deal)
                                             (snd (Date_now w)) in
        ({[deal_id deal]} ∪ t, ev ++ [Console (Deal_added (deal_id deal))],
         w2)
      else (t, [], snd (Date_now w))
    else (t, [], w).
Proof.
  unfold Index.startDeal, startCondition.
  destruct (strictEqString (field (fieldsIn deal) "wtf_pricing") "true");
    [ | reflexivity ].
  eff. destruct (Date_now w) as [now w1]. simpl.
  destruct (date_le _ now); simpl; [ | reflexivity ].
  destruct (marked deal); simpl.
  - rewrite andb_false_r. reflexivity.
  - rewrite andb_true_r.
    destruct (bool_decide (deal_id deal ∈ t)); simpl; [ reflexivity |].
    destruct (Index.updateDeal (deal_id deal) w1) as [[u ev] w2].
    destruct u. reflexivity.
Qed.

Lemma Part000_startDeal_eq (deal : DealNode) (t : gmap string bool) (w : W) :
  Part000.startDeal deal t w =
    if strictEqString (field (fieldsIn deal) "wtf_pricing") "true" then
      if startCondition (W := W) (fieldsIn deal) (fst (Date_now w))
           (negb (Part000.has (deal_id deal) t))
      then (Part000.assign (deal_id deal) false t,
            [Console (Deal_added (deal_id deal))], snd (Date_now w))
      else (t, [], snd (Date_now w))
    else (t, [], w).
Proof.
  unfold Part000.startDeal, startCondition.
  destruct (strictEqString (field (fieldsIn deal) "wtf_pricing") "true");
    [ | reflexivity ].
  eff. destruct (Date_now w) as [now w1]. simpl.
  destruct (date_le _ now); simpl; [ | reflexivity ].
  destruct (Part000.has (deal_id deal) t); reflexivity.
Qed.

(** ** What the second [if] of the loop body does *)

Lemma Index_adjustDeal_eq (deal : DealNode) (t : gset string) (w : W) :
  Index.adjustDeal deal t w =
    if bool_decide (deal_id deal ∈ t) then
      let '(isDealComplete, ev, w') :=
        Index.adjustProductPrices (field (fieldsIn deal) "product")
                                  (deal_id deal) w in
      if isDealComplete
      then (t ∖ {[deal_id deal]},
            ev ++ [Console (Deal_completed (deal_id deal))], w')
      else (t, ev, w')
    else (t, [], w).
Proof.
  unfold Index.adjustDeal.
  destruct (bool_decide (deal_id deal ∈ t)); [ | reflexivity ].
  eff. destruct (Index.adjustProductPrices _ _ w) as [[b ev] w'].
  destruct b; simpl; [ reflexivity | now rewrite app_nil_r ].
Qed.

Lemma Part000_adjustDeal_eq (deal : DealNode) (t : gmap string bool)
    (w : W) :
  Part000.adjustDeal deal t w =
    if Part000.has (deal_id deal) t && negb (Part000.truthy (deal_id deal) t)
    then
      let '(isDealComplete, ev, w') :=
        Part000.adjustProductPrices (field (fieldsIn deal) "product")
                                    (deal_id deal) w in
      if isDealComplete
      then (Part000.assign (deal_id deal) true t,
            ev ++ [Console (Deal_completed (deal_id deal))], w')
      else (t, ev, w')
    else (t, [], w).
Proof.
  unfold Part000.adjustDeal.
  destruct (Part000.has (deal_id deal) t
            && negb (Part000.truthy (deal_id deal) t)); [ | reflexivity ].
  eff. destruct (Part000.adjustProductPrices _ _ w) as [[b ev] w'].
  destruct b; simpl; [ reflexivity | now rewrite app_nil_r ].
Qed.

(** ** C8 *)

(** C8 (amended).  A scanned deal is started exactly when its pricing flag
    is ["true"], its start time is not after the clock reading and it is
    not tracked, and, in [index.js], its [wtf_pricing_started] field is not
    ["true"]; nothing else decides it.  Starting adds the deal to the
    tracker and announces it once ([index.js] also sends the start marker
    once); otherwise the tracker is returned as it was. *)
Theorem C8_start_conditions (deal : DealNode) (w : W) :
  let id := deal_id deal in
  let now := fst (Date_now w) in
  (forall t : gmap string bool,
      let eligible :=
        startCondition (W := W) (fieldsIn deal) now
                       (negb (Part000.has id t)) in
      fst (fst (Part000.startDeal deal t w)) =
        (if eligible then Part000.assign id false t else t) /\
      startsOf id (snd (fst (Part000.startDeal deal t w))) =
        (if eligible then 1 else 0)%nat) /\
  (forall t : gset string,
      let eligible :=
        startCondition (W := W) (fieldsIn deal) now
                       (negb (bool_decide (id ∈ t)))
        && negb (marked deal) in
      fst (fst (Index.startDeal deal t w)) =
        (if eligible then {[id]} ∪ t else t) /\
      startsOf id (snd (fst (Index.startDeal deal t w))) =
        (if eligible then 1 else 0)%nat /\
      markersOf id (snd (fst (Index.startDeal deal t w))) =
        (if eligible then 1 else 0)%nat).
Proof.
  intros id now. split; intros t eligible.
  - rewrite Part000_startDeal_eq. subst eligible now id.
    unfold startCondition.
    destruct (strictEqString (field (fieldsIn deal) "wtf_pricing") "true");
      simpl; [ | auto ].
    destruct (date_le _ _ && _); simpl; auto using startsOf_Deal_added.
  - rewrite Index_startDeal_eq. subst eligible now id.
    unfold startCondition.
    destruct (strictEqString (field (fieldsIn deal) "wtf_pricing") "true");
      simpl; [ | auto ].
    destruct (date_le _ _ && _ && _); simpl; [ | auto ].
    destruct (updateDeal_events (deal_id deal) (snd (Date_now w)))
      as (m & Ev & Hm).
    destruct (Index.updateDeal (deal_id deal) (snd (Date_now w)))
      as [[u ev] w2].
    simpl in *. subst ev. split; [ reflexivity |].
    unfold startsOf, markersOf. simpl. rewrite String.eqb_refl.
    destruct m; simpl; try (split; reflexivity).
    exfalso. now apply (Hm id).
Qed.

(** ** C4 *)

Lemma has_assign (k : string) (b : bool) (o : gmap string bool) :
  Part000.has k (Part000.assign k b o) = true.
Proof.
  unfold Part000.assign, Part000.has.
  destruct (String.eqb_spec k "__proto__") as [->|Hne].
  - destruct (o !! "__proto__"%string); reflexivity.
  - now rewrite lookup_insert_eq.
Qed.

Lemma has_assign_mono (k k' : string) (b : bool) (o : gmap string bool) :
  Part000.has k o = true -> Part000.has k (Part000.assign k' b o) = true.
Proof.
  unfold Part000.assign, Part000.has. intros H.
  destruct (String.eqb k' "__proto__"); [ exact H |].
  destruct (decide (k' = k)) as [->|Hne].
  - now rewrite lookup_insert_eq.
  - now rewrite lookup_insert_ne.
Qed.

Lemma truthy_assign_true (k : string) (o : gmap string bool) :
  k <> "__proto__"%string ->
  Part000.truthy k (Part000.assign k true o) = true.
Proof.
  unfold Part000.assign, Part000.truthy. intros Hne.
  destruct (String.eqb_spec k "__proto__") as [E|_]; [ contradiction |].
  now rewrite lookup_insert_eq.
Qed.

(** C4 (amended).  For a tracked deal the tracker changes exactly when the
    pass of the orchestrator answers that every variant is complete:
    [index.js] then removes the deal from its set, [part_000] keeps the
    entry and sets its flag to [true].  When the pass answers [false] the
    tracker is returned unchanged. *)
Theorem C4_completion_follows_the_pass (deal : DealNode) (w : W) :
  let id := deal_id deal in
  let productId := field (fieldsIn deal) "product" in
  (forall t : gset string,
      id ∈ t ->
      let isDealComplete :=
        fst (fst (Index.adjustProductPrices productId id w)) in
      let t' := fst (fst (Index.adjustDeal deal t w)) in
      t' = (if isDealComplete then t ∖ {[id]} else t) /\
      (id ∉ t' <-> isDealComplete = true)) /\
  (forall t : gmap string bool,
      Part000.has id t = true -> Part000.truthy id t = false ->
      let isDealComplete :=
        fst (fst (Part000.adjustProductPrices productId id w)) in
      let t' := fst (fst (Part000.adjustDeal deal t w)) in
      t' = (if isDealComplete then Part000.assign id true t else t) /\
      Part000.has id t' = true /\
      (id <> "__proto__"%string ->
       (Part000.truthy id t' = true <-> isDealComplete = true))).
Proof.
  intros id productId. split.
  - intros t Hin isDealComplete t'. subst t' isDealComplete.
    rewrite Index_adjustDeal_eq. fold id. fold productId.
    rewrite bool_decide_eq_true_2 by exact Hin.
    destruct (Index.adjustProductPrices productId id w) as [[b ev] w'].
    destruct b; simpl.
    + split; [ reflexivity |].
      split; [ reflexivity |]. intros _ Hin'.
      apply elem_of_difference in Hin' as [_ Hn]. apply Hn.
      now apply elem_of_singleton.
    + split; [ reflexivity |].
      split; [ intros Hn; contradiction | discriminate ].
  - intros t Hhas Htr isDealComplete t'. subst t' isDealComplete.
    rewrite Part000_adjustDeal_eq. fold id. fold productId.
    rewrite Hhas, Htr. simpl.
    destruct (Part000.adjustProductPrices productId id w) as [[b ev] w'].
    destruct b; simpl.
    + split; [ reflexivity |]. split; [ apply has_assign |].
      intros Hne. now rewrite truthy_assign_true.
    + split; [ reflexivity |]. split; [ exact Hhas |].
      intros _. rewrite Htr. split; discriminate.
Qed.

(** ** C6 *)


(** ** C3 *)

(** How many starts of deal [id] are still possible with the tracker [t]
    of [part_000]. *)
Lemma has_false_truthy (k : string) (o : gmap string bool) :
  Part000.has k o = false -> Part000.truthy k o = false.
Proof.
  unfold Part000.has, Part000.truthy. destruct (o !! k); congruence.
Qed.

Lemma truthy_assign_mono (k k' : string) (b : bool) (o : gmap string bool) :
  (k' = k -> b = true \/ Part000.has k o = false) ->
  Part000.truthy k o = true ->
  Part000.truthy k (Part000.assign k' b o) = true.
Proof.
  intros Hsame Ht. unfold Part000.assign.
  destruct (String.eqb k' "__proto__"); [ exact Ht |].
  unfold Part000.truthy.
  destruct (decide (k' = k)) as [E|Hne].
  - subst k'. rewrite lookup_insert_eq.
    destruct (Hsame eq_refl) as [->|Hh]; [ reflexivity |].
    apply has_false_truthy in Hh. congruence.
  - rewrite lookup_insert_ne by exact Hne. exact Ht.
Qed.

Lemma startsOf_other (id id' : string) :
  id' <> id -> startsOf id [Console (Deal_added id')] = 0%nat.
Proof.
  intros Hne. unfold startsOf. simpl.
  destruct (String.eqb_spec id' id); [ contradiction | reflexivity ].
Qed.

(** One scanned record in [part_000]: a start of [id] uses up the only
    possible one, a tracked deal stays tracked and a completed deal stays
    completed. *)
Lemma Part000_processDeal_once (id : string) (deal : DealNode)
    (t : gmap string bool) (w : W) :
  let t' := fst (fst (Part000.processDeal deal t w)) in
  let ev := snd (fst (Part000.processDeal deal t w)) in
  (startsOf id ev + (if Part000.has id t' then 0 else 1)
   <= (if Part000.has id t then 0 else 1))%nat /\
  (Part000.truthy id t = true -> Part000.truthy id t' = true).
Proof.
  unfold Part000.processDeal. eff.
  rewrite Part000_startDeal_eq.
  set (c := startCondition (W := W) (fieldsIn deal) (fst (Date_now w))
              (negb (Part000.has (deal_id deal) t))).
  assert (Hstart :
    exists t1 ev1 w1,
      (if strictEqString (field (fieldsIn deal) "wtf_pricing") "true" then
         if c then (Part000.assign (deal_id deal) false t,
                    [Console (Deal_added (deal_id deal))], snd (Date_now w))
         else (t, [], snd (Date_now w))
       else (t, [], w)) = (t1, ev1, w1) /\
      (startsOf id ev1 + (if Part000.has id t1 then 0 else 1)
       <= (if Part000.has id t then 0 else 1))%nat /\
      (Part000.truthy id t = true -> Part000.truthy id t1 = true)).
  { destruct (strictEqString (field (fieldsIn deal) "wtf_pricing") "true").
    - destruct c eqn:Hc.
      + do 3 eexists. split; [ reflexivity |].
        unfold c, startCondition in Hc.
        apply andb_true_iff in Hc as [_ Hun].
        apply negb_true_iff in Hun.
        destruct (decide (deal_id deal = id)) as [E|Hne].
        * rewrite E in *. rewrite startsOf_Deal_added, has_assign, Hun.
          split; [ simpl; lia |]. intros Ht.
          apply has_false_truthy in Hun. congruence.
        * rewrite (startsOf_other id _ Hne). split.
          -- destruct (Part000.has id t) eqn:Hh.
             ++ now rewrite has_assign_mono.
             ++ destruct (Part000.has id (Part000.assign _ _ _)); simpl; lia.
          -- apply truthy_assign_mono. intros E. contradiction.
      + do 3 eexists. split; [ reflexivity |]. split; [ simpl; lia | auto ].
    - do 3 eexists. split; [ reflexivity |]. split; [ simpl; lia | auto ]. }
  destruct Hstart as (t1 & ev1 & w1 & -> & Hb1 & Ht1).
  rewrite Part000_adjustDeal_eq.
  destruct (Part000.has (deal_id deal) t1
            && negb (Part000.truthy (deal_id deal) t1)) eqn:Hg.
  - pose proof (adjustProductPrices_no_start Part000.priceIncrement id
                  (field (fieldsIn deal) "product") (deal_id deal) w1) as Hn.
    unfold Part000.adjustProductPrices.
    destruct (Core.adjustProductPrices Part000.priceIncrement _ _ w1)
      as [[b ev2] w2].
    simpl in Hn. destruct b; simpl.
    + rewrite !startsOf_app, Hn. split.
      * assert (Hc : startsOf id [Console (Deal_completed (deal_id deal))]
                     = 0%nat) by reflexivity.
        rewrite Hc.
        destruct (Part000.has id t1) eqn:Hh.
        -- rewrite has_assign_mono by exact Hh. simpl in *; lia.
        -- destruct (Part000.has id (Part000.assign _ _ _)); simpl; lia.
      * intros Ht. apply truthy_assign_mono; auto.
    + rewrite startsOf_app, Hn. split; [ lia | auto ].
  - simpl. rewrite app_nil_r. auto.
Qed.

Lemma Part000_forDeals_once (id : string) (deals : list DealNode)
    (t : gmap string bool) (w : W) :
  let t' := fst (fst (Part000.forDeals deals t w)) in
  let ev := snd (fst (Part000.forDeals deals t w)) in
  (startsOf id ev + (if Part000.has id t' then 0 else 1)
   <= (if Part000.has id t then 0 else 1))%nat /\
  (Part000.truthy id t = true -> Part000.truthy id t' = true).
Proof.
  revert t w. induction deals as [|deal deals IH]; intros t w; simpl.
  - split; [ lia | auto ].
  - eff. pose proof (Part000_processDeal_once id deal t w) as [Hb Ht].
    destruct (Part000.processDeal deal t w) as [[t1 ev1] w1].
    specialize (IH t1 w1) as [Hb' Ht'].
    destruct (Part000.forDeals deals t1 w1) as [[t2 ev2] w2].
    simpl in *. rewrite startsOf_app. split; [ lia | auto ].
Qed.

Lemma Part000_cycle_once (id : string) (t : gmap string bool) (w : W) :
  let t' := fst (fst (Part000.fetchAndProcessDeals t w)) in
  let ev := snd (fst (Part000.fetchAndProcessDeals t w)) in
  (startsOf id ev + (if Part000.has id t' then 0 else 1)
   <= (if Part000.has id t then 0 else 1))%nat /\
  (Part000.truthy id t = true -> Part000.truthy id t' = true).
Proof.
  unfold Part000.fetchAndProcessDeals. eff.
  destruct (request FETCH_DEALS_QUERY w) as [[| |deals] w1]; simpl;
    try (split; [ lia | auto ]).
  pose proof (Part000_forDeals_once id deals t w1) as [Hb Ht].
  destruct (Part000.forDeals deals t w1) as [[t1 ev1] w2].
  simpl in *. split; [ | auto ].
  change (startsOf id (Requested FETCH_DEALS_QUERY
                         :: Console (Fetched_deals (length deals)) :: ev1))
    with (startsOf id ev1). exact Hb.
Qed.

Lemma Part000_main_once (id : string) (cycles : nat)
    (t : gmap string bool) (w : W) :
  let t' := fst (fst (Part000.main cycles t w)) in
  let ev := snd (fst (Part000.main cycles t w)) in
  (startsOf id ev + (if Part000.has id t' then 0 else 1)
   <= (if Part000.has id t then 0 else 1))%nat /\
  (Part000.truthy id t = true -> Part000.truthy id t' = true).
Proof.
  revert t w. induction cycles as [|n IH]; intros t w; simpl.
  - split; [ lia | auto ].
  - eff. pose proof (Part000_cycle_once id t w) as [Hb Ht].
    destruct (Part000.fetchAndProcessDeals t w) as [[t1 ev1] w1].
    specialize (IH t1 (setTimeout Part000.dealDuration w1)) as [Hb' Ht'].
    destruct (Part000.main n t1 _) as [[t2 ev2] w2].
    simpl in *. rewrite startsOf_app. split; [ lia | auto ].
Qed.

(** C3 (amended).  While a deal is tracked, scanning it again never starts
    it again: no start is announced, no start marker is sent, and the
    tracker is returned as it was, in both files.  In [part_000], whose
    entries are never removed, a deal is started at most once in any run of
    the poll loop, not at all if it is tracked at the beginning, and a
    completed deal stays completed. *)
Theorem C3_start_is_not_repeated (id : string) :
  (forall (deal : DealNode) (t : gset string) (w : W),
      deal_id deal = id -> id ∈ t ->
      fst (fst (Index.startDeal deal t w)) = t /\
      snd (fst (Index.startDeal deal t w)) = []) /\
  (forall (deal : DealNode) (t : gmap string bool) (w : W),
      deal_id deal = id -> Part000.has id t = true ->
      fst (fst (Part000.startDeal deal t w)) = t /\
      snd (fst (Part000.startDeal deal t w)) = []) /\
  (forall (cycles : nat) (t : gmap string bool) (w : W),
      let t' := fst (fst (Part000.main cycles t w)) in
      let ev := snd (fst (Part000.main cycles t w)) in
      (startsOf id ev <= 1)%nat /\
      (Part000.has id t = true -> startsOf id ev = 0%nat) /\
      (Part000.has id t = true -> Part000.has id t' = true) /\
      (Part000.truthy id t = true -> Part000.truthy id t' = true)).
Proof.
  split; [ | split ].
  - intros deal t w <- Hin. rewrite Index_startDeal_eq.
    unfold startCondition. rewrite bool_decide_eq_true_2 by exact Hin.
    simpl. rewrite !andb_false_r. simpl.
    destruct (strictEqString _ "true"); auto.
  - intros deal t w <- Hhas. rewrite Part000_startDeal_eq.
    unfold startCondition. rewrite Hhas. simpl. rewrite !andb_false_r.
    destruct (strictEqString _ "true"); auto.
  - intros cycles t w t' ev. subst t' ev.
    pose proof (Part000_main_once id cycles t w) as [Hb Ht].
    simpl in Hb, Ht.
    destruct (Part000.has id t) eqn:Hh;
      destruct (Part000.has id (fst (fst (Part000.main cycles t w))))
        eqn:Hh'; repeat split; auto; try lia; try discriminate.
Qed.

End ScannerFacts.

(** ** C2 *)

Section WriteFacts.
Context {W : Type} `{!Host W}.























End WriteFacts.

(* ===================================================================== *)
(** * Part X.  The engine on the concrete store                           *)
(* ===================================================================== *)

(** ** C9 *)

(** C9.  With the increment 9.99 of [part_000] and every request accepted,
    a variant at 80.00 with compare-at price 100.00 is sent 89.99 in the
    first pass, 99.98 in the second and 100.00 in the third, and the pass
    is complete in the third only; over three cycles of the poll loop
    these are the prices the engine sends. *)
Theorem C9_three_steps_from_80_to_100 :
  let productId := JString "gid://shopify/Product/1" in
  let dealId := "gid://shopify/Metaobject/1"%string in
  let '(c1, e1, w1) :=
    Part000.adjustProductPrices productId dealId Shop.opening in
  let '(c2, e2, w2) := Part000.adjustProductPrices productId dealId w1 in
  let '(c3, e3, w3) := Part000.adjustProductPrices productId dealId w2 in
  (pricesSent e1, c1) = (["89.99"%string], false) /\
  (pricesSent e2, c2) = (["99.98"%string], false) /\
  (pricesSent e3, c3) = (["100.00"%string], true) /\
  pricesSent (snd (fst (Part000.main 3 ∅ Shop.opening))) =
    ["89.99"; "99.98"; "100.00"]%string /\
  Part000.incrementVariantPrice Shop.shirt Shop.opening =
    (false,
     [Requested (UPDATE_PRODUCT_VARIANT_MUTATION
                   "gid://shopify/ProductVariant/1" "89.99");
      Console (Updated_variant_price
                 "gid://shopify/ProductVariant/1" "89.99")],
     snd (request (UPDATE_PRODUCT_VARIANT_MUTATION
                     "gid://shopify/ProductVariant/1" "89.99")
                  Shop.opening)).
Proof. vm_compute. repeat split. Qed.

(** ** Runs that the claims as first stated do not allow *)

(** C1 as first stated fails on a variant without compare-at price: the
    contract asks for one price update, the stepper sends none. *)
Lemma C1_fails_without_compare_at_price :
  ~ meetsContract Index.increment Shop.bare Shop.opening.
Proof. intros H. vm_compute in H. discriminate H. Qed.


(** C5 as first stated fails in both directions.  On the variant at 1.13
    of 11.13 the pass writes 11.13, so the price in the store equals the
    compare-at price, and answers [false]; on a variant whose price is no
    number the pass writes nothing and answers [true]. *)
Lemma C5_at_target_but_incomplete :
  ~ completeIffAllAtTarget Index.increment
      (JString "gid://shopify/Product/1") "gid://shopify/Metaobject/1"
      Samples.oddStore /\
  ~ completeIffAllAtTarget Index.increment
      (JString "gid://shopify/Product/1") "gid://shopify/Metaobject/1"
      Samples.unpricedStore.
Proof.
  split; intros H; vm_compute in H; destruct H as [H1 H2].
  - specialize (H2 eq_refl). discriminate H2.
  - specialize (H1 eq_refl). discriminate H1.
Qed.

(** C3 as first stated fails for [index.js] on a store that refuses the
    start marker: the deal records stay as they are, the deal completes in
    the first cycle and is started again in the second. *)
Lemma C3_index_starts_again_after_completion :
  ~ Index_startsAtMostOnce 2 Shop.stubborn "gid://shopify/Metaobject/1".
Proof.
  unfold Index_startsAtMostOnce. intros H.
  specialize (H ltac:(vm_compute; reflexivity)).
  assert (E : startsOf "gid://shopify/Metaobject/1"
                (snd (fst (Index.main 2 ∅ Shop.stubborn))) = 2%nat)
    by (vm_compute; reflexivity).
  rewrite E in H. lia.
Qed.

(** C4 as first stated fails for [part_000], which keeps the entry of a
    deal whose pass is complete. *)
Lemma C4_part000_keeps_the_entry :
  ~ Part000_completionRemovesEntry Shop.deal1
      {[ "gid://shopify/Metaobject/1"%string := false ]} Shop.stubborn.
Proof.
  unfold Part000_completionRemovesEntry. intros [H _].
  assert (E : fst (fst (Part000.adjustProductPrices
                          (field (fieldsOf (deal_fields Shop.deal1))
                                 "product")
                          (deal_id Shop.deal1) Shop.stubborn)) = true)
    by (vm_compute; reflexivity).
  specialize (H E). vm_compute in H. discriminate H.
Qed.

(** C7 as first stated fails from 1.13 to 11.13 with the increment 10: the
    price sent is 11.13, the compare-at price to two decimals, and the
    stepper answers [false]. *)
Lemma C7_rounded_equal_but_incomplete :
  ~ completionToleratesRounding Index.increment Shop.odd Shop.opening.
Proof.
  unfold completionToleratesRounding. intros H.
  specialize (H ltac:(vm_compute; reflexivity)
                ltac:(vm_compute; reflexivity)) as [_ H].
  specialize (H ltac:(vm_compute; reflexivity)).
  vm_compute in H. discriminate H.
Qed.

(** C8 as first stated fails for [index.js], which does not start a deal
    whose start marker is set although the three conditions hold. *)
Lemma C8_index_skips_a_marked_deal :
  ~ Index_startsExactlyWhenEligible Shop.markedDeal ∅ Shop.opening.
Proof.
  unfold Index_startsExactlyWhenEligible. intros [_ H].
  specialize (H ltac:(vm_compute; reflexivity)).
  vm_compute in H. discriminate H.
Qed.

(** ** The theorems at the concrete store *)

Lemma C1_on_the_shirt :
  meetsContract Index.increment Shop.shirt Shop.opening /\
  JS.le (JS.parseFloat "90.00") (JS.parseFloat "100.00") = true.
Proof.
  destruct (C1_stepper_meets_contract Index.increment Shop.shirt
              Shop.opening) as (Hcontract & _ & Hformatted).
  - vm_compute. reflexivity.
  - vm_compute. reflexivity.
  - split; [ exact Hcontract |].
    destruct (Hformatted
                ltac:(vm_compute; reflexivity)
                (Core.newPriceOf Index.increment
                   (JS.parseFloat (price Shop.shirt))
                   (JS.parseFloat
                      (toStringNullable (compareAtPrice Shop.shirt))))
                ltac:(vm_compute; reflexivity)
                ltac:(vm_compute; reflexivity)) as [_ Hle].
    assert (T : twoDecimal (JS.parseFloat "100.00")).
    { exists 10000. split; [ lia | vm_compute; reflexivity ]. }
    specialize (Hle T). vm_compute in Hle |- *. exact Hle.
Defined.



Lemma C7_on_the_shirt :
  fst (fst (Core.incrementVariantPrice Index.increment Shop.shirt
              Shop.opening)) = true <->
  JS.strictEq
    (Core.newPriceOf Index.increment
       (JS.parseFloat (price Shop.shirt))
       (JS.parseFloat (toStringNullable (compareAtPrice Shop.shirt))))
    (JS.parseFloat (toStringNullable (compareAtPrice Shop.shirt))) = true.
Proof.
  apply (C7_completion_is_exact_equality Index.increment Shop.shirt
           Shop.opening); vm_compute; reflexivity.
Defined.

Lemma C10_on_the_bare_variant :
  Core.incrementVariantPrice Index.increment Shop.bare Shop.opening =
    (true, [], Shop.opening).
Proof.
  apply (C10_unparsable_price_is_complete Index.increment Shop.bare
           Shop.opening).
  vm_compute. reflexivity.
Defined.

(* ===================================================================== *)
(** * Part XI.  Further properties of the engine                          *)
(* ===================================================================== *)

Section PassFacts.
Context {W : Type} `{!Host W}.
Variable increment : JS.number.

(** X1.  Whatever the gateway answers, a pass of the orchestrator sends
    the product query first and then exactly one price update for each
    variant of the fetched product whose price is below its compare-at
    price, in the order of the variants; it sends nothing else, and no
    price update at all when the fetch does not yield a product. *)
Theorem X1_requests_of_a_pass (productId : jsval) (dealId : string) (w : W) :
  requestsOf
    (snd (fst (Core.adjustProductPrices increment productId dealId w))) =
  FETCH_PRODUCT_QUERY productId ::
    match fst (request (FETCH_PRODUCT_QUERY productId) w) with
    | Data (Some product) => priceUpdatesDue increment (variants product)
    | _ => []
    end.
Proof.
  unfold Core.adjustProductPrices. eff.
  destruct (request (FETCH_PRODUCT_QUERY productId) w)
    as [[| |[product|]] w1]; simpl; try reflexivity.
  pose proof (forVariants_requests increment (variants product) true w1) as H.
  destruct (Core.forVariants increment (variants product) true w1)
    as [[b t] w2].
  simpl in *. f_equal. rewrite requestsOf_app, H. simpl.
  now rewrite app_nil_r.
Qed.

Lemma forVariants_idle (vs : list Variant) (acc : bool) (w : W) :
  Forall (fun v => belowTarget v = false) vs ->
  Core.forVariants increment vs acc w = (acc, [], w).
Proof.
  intros Hall. revert acc. induction Hall as [|v vs Hv _ IH]; intros acc.
  - reflexivity.
  - simpl. eff. rewrite (stepper_idle increment v w Hv). simpl.
    rewrite IH. reflexivity.
Qed.

(** X2.  When no variant of the fetched product is below its compare-at
    price (each is at it, above it, or has a price that does not parse),
    the pass sends no mutation, leaves the world as the fetch left it and
    answers [true]: a finished product is never written again. *)
Theorem X2_finished_product_is_left_alone
    (productId : jsval) (dealId : string) (w : W) (product : Product) :
  fst (request (FETCH_PRODUCT_QUERY productId) w) = Data (Some product) ->
  Forall (fun v => belowTarget v = false) (variants product) ->
  Core.adjustProductPrices increment productId dealId w =
    (true,
     [Requested (FETCH_PRODUCT_QUERY productId);
      Console (Prices_adjusted_for_product (title product))],
     snd (request (FETCH_PRODUCT_QUERY productId) w)).
Proof.
  intros Hfetch Hall. unfold Core.adjustProductPrices. eff.
  destruct (request (FETCH_PRODUCT_QUERY productId) w) as [reply w1].
  simpl in Hfetch. subst reply.
  rewrite (forVariants_idle (variants product) true w1 Hall). reflexivity.
Qed.

Lemma strictEq_refl (x : JS.number) :
  JS.isNaN x = false -> JS.strictEq x x = true.
Proof.
  unfold JS.strictEq, SFeqb.
  destruct x as [s|s| |s m e]; simpl; try discriminate; intros _;
    try reflexivity; try (destruct s; reflexivity).
  destruct s; rewrite Z.compare_refl, Pos.compare_cont_refl; reflexivity.
Qed.

Lemma Math_min_overshoot (a b : JS.number) :
  JS.lt b a = true -> JS.Math_min a b = b.
Proof.
  intros Hlt. destruct (lt_not_NaN _ _ Hlt) as [Hb Ha].
  unfold JS.Math_min. rewrite Ha, Hb. simpl.
  assert (Hab : JS.lt a b = false).
  { rewrite (lt_negb_ge a b Ha Hb). apply negb_false_iff.
    unfold JS.ge. now apply lt_le. }
  now rewrite Hab, Hlt.
Qed.

(** X3.  When the remaining difference is below the increment, or adding
    the increment would overshoot, the stepper sends the compare-at price
    itself, to two decimals, and answers [true] as soon as the gateway
    accepts the update: the last step lands on the target. *)
Theorem X3_last_step_lands_on_target (v : Variant) (w : W) :
  let currentPrice := JS.parseFloat (price v) in
  let compareAtPrice := JS.parseFloat (toStringNullable (compareAtPrice v)) in
  let r := UPDATE_PRODUCT_VARIANT_MUTATION (variant_id v)
                                           (JS.toFixed 2 compareAtPrice) in
  JS.lt currentPrice compareAtPrice = true ->
  JS.lt (JS.sub compareAtPrice currentPrice) increment = true \/
  JS.lt compareAtPrice (JS.add currentPrice increment) = true ->
  fst (request r w) = Data [] ->
  Core.incrementVariantPrice increment v w =
    (true,
     [Requested r;
      Console (Updated_variant_price (variant_id v)
                                     (JS.toFixed 2 compareAtPrice))],
     snd (request r w)).
Proof.
  intros currentPrice compareAtPrice r Hlt Hlast Hok.
  assert (Hnew : Core.newPriceOf increment currentPrice compareAtPrice
                 = compareAtPrice).
  { unfold Core.newPriceOf.
    destruct (JS.lt (JS.sub compareAtPrice currentPrice) increment);
      [ reflexivity |].
    destruct Hlast as [?|Hover]; [ discriminate |].
    now apply Math_min_overshoot. }
  rewrite (stepper_active increment v w Hlt). cbv zeta.
  fold currentPrice compareAtPrice. rewrite Hnew. fold r. rewrite Hok.
  rewrite strictEq_refl by (apply (lt_not_NaN _ _ Hlt)). reflexivity.
Qed.

End PassFacts.

Section RunFacts.
Context {W : Type} `{!Host W}.

(** ** The fields of a deal record *)

Lemma fieldsOf_snoc (fs : list Field) (f : Field) :
  fieldsOf (fs ++ [f]) = <[key f := value f]> (fieldsOf fs).
Proof. unfold fieldsOf. now rewrite foldl_app. Qed.

(** X4.  Reading a key from the object built out of the field list of a
    deal gives the value of the last field with that key (a later field
    overwrites an earlier one), [null] included, and [undefined] when no
    field has the key.  This holds for the keys that are own properties
    when present, which the four keys the engine reads are; a key that
    every object inherits reads differently in JavaScript and is left
    out. *)
Theorem X4_last_field_wins (fs : list Field) (k : string) :
  Part000.inherited k = false ->
  field (fieldsOf fs) k = lastValue k fs.
Proof.
  intros _. unfold field, lastValue.
  induction fs as [|f fs IH] using rev_ind.
  - reflexivity.
  - rewrite fieldsOf_snoc, rev_app_distr. simpl.
    destruct (String.eqb_spec (key f) k) as [E|Hne].
    + subst k. now rewrite lookup_insert_eq.
    + rewrite lookup_insert_ne by exact Hne. exact IH.
Qed.

Lemma field_absent (fs : list Field) (k : string) :
  Forall (fun f => key f <> k) fs -> field (fieldsOf fs) k = JUndefined.
Proof.
  unfold field. induction fs as [|f fs IH] using rev_ind; intros Hall.
  - reflexivity.
  - apply Forall_app in Hall as [Hfs Hf]. inversion Hf as [|? ? Hk _]; subst.
    rewrite fieldsOf_snoc, lookup_insert_ne by exact Hk. now apply IH.
Qed.

(** X5.  A deal record that has no [wtf_pricing] field, or no [start_time]
    field, is never started, whatever the tracker, the clock and its other
    fields are: both files return the tracker as it was, announce nothing
    and send nothing. *)
Theorem X5_incomplete_record_is_not_started (deal : DealNode) (w : W) :
  Forall (fun f => key f <> "wtf_pricing"%string) (deal_fields deal) \/
  Forall (fun f => key f <> "start_time"%string) (deal_fields deal) ->
  (forall t : gset string,
      fst (fst (Index.startDeal deal t w)) = t /\
      snd (fst (Index.startDeal deal t w)) = []) /\
  (forall t : gmap string bool,
      fst (fst (Part000.startDeal deal t w)) = t /\
      snd (fst (Part000.startDeal deal t w)) = []).
Proof.
  intros Hmiss.
  assert (Hc : forall b,
             startCondition (W := W) (fieldsOf (deal_fields deal))
               (fst (Date_now w)) b = false).
  { intros b. unfold startCondition.
    destruct Hmiss as [Hm|Hm]; rewrite (field_absent _ _ Hm); simpl.
    - reflexivity.
    - now rewrite andb_false_r. }
  split; intros t.
  - rewrite Index_startDeal_eq, Hc. simpl.
    destruct (strictEqString _ "true"); auto.
  - rewrite Part000_startDeal_eq, Hc.
    destruct (strictEqString _ "true"); auto.
Qed.

(** ** Deals that are finished *)

Lemma truthy_has (k : string) (o : gmap string bool) :
  Part000.truthy k o = true -> Part000.has k o = true.
Proof.
  unfold Part000.truthy, Part000.has. destruct (o !! k); auto.
Qed.

(** X6.  In [part_000] a deal whose flag reads truthy (a completed deal,
    or an id that names a property every object inherits, such as
    ["constructor"]) is neither started nor adjusted: scanning it returns
    the tracker as it was and causes no request and no output. *)
Theorem X6_part000_completed_deal_costs_nothing
    (deal : DealNode) (t : gmap string bool) (w : W) :
  Part000.truthy (deal_id deal) t = true ->
  fst (fst (Part000.processDeal deal t w)) = t /\
  snd (fst (Part000.processDeal deal t w)) = [].
Proof.
  intros Ht. pose proof (truthy_has _ _ Ht) as Hh.
  unfold Part000.processDeal. eff.
  rewrite Part000_startDeal_eq. unfold startCondition.
  rewrite Hh. simpl. rewrite !andb_false_r.
  assert (E : forall w', Part000.adjustDeal deal t w' = (t, [], w')).
  { intros w'. rewrite Part000_adjustDeal_eq, Hh, Ht. reflexivity. }
  destruct (strictEqString _ "true"); rewrite E; auto.
Qed.

(** X7.  In [index.js] a deal that is not tracked and whose
    [wtf_pricing_started] field is ["true"] is neither started nor
    adjusted: scanning it returns the tracker as it was and causes no
    request and no output.  This is what keeps a completed deal finished
    once the start marker has reached the gateway. *)
Theorem X7_index_marked_deal_costs_nothing
    (deal : DealNode) (t : gset string) (w : W) :
  strictEqString (field (fieldsOf (deal_fields deal)) "wtf_pricing_started")
                 "true" = true ->
  deal_id deal ∉ t ->
  fst (fst (Index.processDeal deal t w)) = t /\
  snd (fst (Index.processDeal deal t w)) = [].
Proof.
  intros Hm Hout. unfold Index.processDeal. eff.
  rewrite Index_startDeal_eq, Hm. simpl. rewrite !andb_false_r.
  assert (E : forall w', Index.adjustDeal deal t w' = (t, [], w')).
  { intros w'. rewrite Index_adjustDeal_eq.
    now rewrite bool_decide_eq_false_2 by exact Hout. }
  destruct (strictEqString (field _ "wtf_pricing") "true"); simpl;
    rewrite E; auto.
Qed.

(** ** Deals that are not in the list of a cycle *)

Lemma Index_processDeal_frame (id : string) (deal : DealNode)
    (t : gset string) (w : W) :
  id <> deal_id deal ->
  (id ∈ fst (fst (Index.processDeal deal t w)) <-> id ∈ t).
Proof.
  intros Hne. unfold Index.processDeal. eff.
  rewrite Index_startDeal_eq.
  set (s := if strictEqString _ "true" then _ else _).
  assert (Hs : id ∈ fst (fst s) <-> id ∈ t).
  { subst s. destruct (strictEqString _ "true"); [ | reflexivity ].
    destruct (startCondition _ _ _ && _); [ | reflexivity ].
    destruct (Index.updateDeal _ _) as [[u ev] w2]. simpl.
    rewrite elem_of_union, elem_of_singleton. tauto. }
  destruct s as [[t1 ev1] w1]. simpl in Hs.
  rewrite Index_adjustDeal_eq.
  destruct (bool_decide (deal_id deal ∈ t1)); [ | exact Hs ].
  destruct (Index.adjustProductPrices _ _ w1) as [[b ev2] w2].
  destruct b; simpl; [ | exact Hs ].
  rewrite <- Hs, elem_of_difference, elem_of_singleton. tauto.
Qed.

Lemma assign_other (id k : string) (b : bool) (o : gmap string bool) :
  id <> k -> Part000.assign k b o !! id = o !! id.
Proof.
  intros Hne. unfold Part000.assign.
  destruct (String.eqb k "__proto__"); [ reflexivity |].
  now rewrite lookup_insert_ne by congruence.
Qed.

Lemma Part000_processDeal_frame (id : string) (deal : DealNode)
    (t : gmap string bool) (w : W) :
  id <> deal_id deal ->
  fst (fst (Part000.processDeal deal t w)) !! id = t !! id.
Proof.
  intros Hne. unfold Part000.processDeal. eff.
  rewrite Part000_startDeal_eq.
  set (s := if strictEqString _ "true" then _ else _).
  assert (Hs : fst (fst s) !! id = t !! id).
  { subst s. destruct (strictEqString _ "true"); [ | reflexivity ].
    destruct (startCondition _ _ _); [ | reflexivity ].
    simpl. now apply assign_other. }
  destruct s as [[t1 ev1] w1]. simpl in Hs.
  rewrite Part000_adjustDeal_eq.
  destruct (Part000.has _ t1 && _); [ | exact Hs ].
  destruct (Part000.adjustProductPrices _ _ w1) as [[b ev2] w2].
  destruct b; simpl; [ | exact Hs ].
  now rewrite assign_other.
Qed.

Lemma Index_forDeals_frame (id : string) (deals : list DealNode)
    (t : gset string) (w : W) :
  ~ In id (map deal_id deals) ->
  (id ∈ fst (fst (Index.forDeals deals t w)) <-> id ∈ t).
Proof.
  revert t w. induction deals as [|deal deals IH]; intros t w Hout; simpl.
  - reflexivity.
  - eff. simpl in Hout.
    assert (Hne : id <> deal_id deal) by (intros ->; tauto).
    assert (Hrest : ~ In id (map deal_id deals)) by tauto.
    pose proof (Index_processDeal_frame id deal t w Hne) as Hd.
    destruct (Index.processDeal deal t w) as [[t1 ev1] w1].
    specialize (IH t1 w1 Hrest).
    destruct (Index.forDeals deals t1 w1) as [[t2 ev2] w2].
    simpl in *. tauto.
Qed.

Lemma Part000_forDeals_frame (id : string) (deals : list DealNode)
    (t : gmap string bool) (w : W) :
  ~ In id (map deal_id deals) ->
  fst (fst (Part000.forDeals deals t w)) !! id = t !! id.
Proof.
  revert t w. induction deals as [|deal deals IH]; intros t w Hout; simpl.
  - reflexivity.
  - eff. simpl in Hout.
    assert (Hne : id <> deal_id deal) by (intros ->; tauto).
    assert (Hrest : ~ In id (map deal_id deals)) by tauto.
    pose proof (Part000_processDeal_frame id deal t w Hne) as Hd.
    destruct (Part000.processDeal deal t w) as [[t1 ev1] w1].
    specialize (IH t1 w1 Hrest).
    destruct (Part000.forDeals deals t1 w1) as [[t2 ev2] w2].
    simpl in *. congruence.
Qed.

(** X8.  A cycle touches only the entries of the deals it fetched: for an
    id that is not among the deal records of the reply (or when the fetch
    fails), the entry after the cycle is the entry before it, in both
    files.  In particular a tracked deal that is no longer listed stays
    tracked. *)
Theorem X8_cycle_leaves_unlisted_deals_alone (id : string) (w : W) :
  match fst (request FETCH_DEALS_QUERY w) with
  | Data deals => ~ In id (map deal_id deals)
  | _ => True
  end ->
  (forall t : gset string,
      id ∈ fst (fst (Index.fetchAndProcessDeals t w)) <-> id ∈ t) /\
  (forall t : gmap string bool,
      fst (fst (Part000.fetchAndProcessDeals t w)) !! id = t !! id).
Proof.
  intros Hout. split; intros t.
  - unfold Index.fetchAndProcessDeals. eff.
    destruct (request FETCH_DEALS_QUERY w) as [[| |deals] w1]; simpl;
      try reflexivity.
    simpl in Hout.
    pose proof (Index_forDeals_frame id deals t w1 Hout) as Hf.
    destruct (Index.forDeals deals t w1) as [[t1 ev1] w2]. exact Hf.
  - unfold Part000.fetchAndProcessDeals. eff.
    destruct (request FETCH_DEALS_QUERY w) as [[| |deals] w1]; simpl;
      try reflexivity.
    simpl in Hout.
    pose proof (Part000_forDeals_frame id deals t w1 Hout) as Hf.
    destruct (Part000.forDeals deals t w1) as [[t1 ev1] w2]. exact Hf.
Qed.

(** X9.  When the deals query is rejected or answered with [errors], the
    cycle ends there in both files: the tracker is returned as it was and
    the deals query is the only request of the cycle. *)
Theorem X9_failed_deals_fetch_ends_the_cycle (w : W) :
  match fst (request FETCH_DEALS_QUERY w) with
  | Data _ => False
  | _ => True
  end ->
  (forall t : gset string,
      fst (fst (Index.fetchAndProcessDeals t w)) = t /\
      requestsOf (snd (fst (Index.fetchAndProcessDeals t w)))
        = [FETCH_DEALS_QUERY]) /\
  (forall t : gmap string bool,
      fst (fst (Part000.fetchAndProcessDeals t w)) = t /\
      requestsOf (snd (fst (Part000.fetchAndProcessDeals t w)))
        = [FETCH_DEALS_QUERY]).
Proof.
  intros Hfail.
  split; intros t;
    [ unfold Index.fetchAndProcessDeals
    | unfold Part000.fetchAndProcessDeals ]; eff;
    destruct (request FETCH_DEALS_QUERY w) as [[| |deals] w1]; simpl in *;
    auto; contradiction.
Qed.

End RunFacts.

(** ** Counting the events of a run *)

Lemma countOf_app (P : Event -> bool) (t1 t2 : list Event) :
  countOf P (t1 ++ t2) = (countOf P t1 + countOf P t2)%nat.
Proof. unfold countOf. now rewrite List.filter_app, length_app. Qed.

Lemma countOf_cons (P : Event -> bool) (e : Event) (t : list Event) :
  countOf P (e :: t) = ((if P e then 1 else 0) + countOf P t)%nat.
Proof. unfold countOf. simpl. now destruct (P e). Qed.

Section CountingFacts.
Context {W : Type} `{!Host W}.
Variable P : Event -> bool.
Hypothesis P_pass : forall e, ofAPass e = true -> P e = false.

Lemma stepper_count (increment : JS.number) (v : Variant) (w : W) :
  countOf P (snd (fst (Core.incrementVariantPrice increment v w))) = 0%nat.
Proof.
  unfold Core.incrementVariantPrice.
  destruct (JS.lt _ _); [ | reflexivity ]. eff.
  destruct (request _ w) as [[| |[|u us]] w']; simpl;
    rewrite !countOf_cons, !P_pass by reflexivity; reflexivity.
Qed.

Lemma forVariants_count (increment : JS.number) (vs : list Variant)
    (acc : bool) (w : W) :
  countOf P (snd (fst (Core.forVariants increment vs acc w))) = 0%nat.
Proof.
  revert acc w. induction vs as [|v vs IH]; intros acc w; simpl.
  - reflexivity.
  - eff. pose proof (stepper_count increment v w) as Hv.
    destruct (Core.incrementVariantPrice increment v w) as [[b t] w1].
    specialize (IH (if negb b then false else acc) w1).
    destruct (Core.forVariants increment vs _ w1) as [[b1 t1] w2].
    simpl in *. rewrite countOf_app. lia.
Qed.

Lemma adjustProductPrices_count (increment : JS.number) (productId : jsval)
    (dealId : string) (w : W) :
  countOf P
    (snd (fst (Core.adjustProductPrices increment productId dealId w)))
  = 0%nat.
Proof.
  unfold Core.adjustProductPrices. eff.
  destruct (request (FETCH_PRODUCT_QUERY productId) w)
    as [[| |[product|]] w1]; simpl;
    try (rewrite !countOf_cons, !P_pass by reflexivity; reflexivity).
  pose proof (forVariants_count increment (variants product) true w1) as H.
  destruct (Core.forVariants increment (variants product) true w1)
    as [[b t] w2].
  simpl in *. rewrite countOf_cons, !countOf_app, H, countOf_cons.
  rewrite !P_pass by reflexivity. reflexivity.
Qed.

Hypothesis P_console : forall m, P (Console m) = false.

Lemma Part000_processDeal_count (deal : DealNode) (t : gmap string bool)
    (w : W) :
  countOf P (snd (fst (Part000.processDeal deal t w))) = 0%nat.
Proof.
  unfold Part000.processDeal. eff.
  rewrite Part000_startDeal_eq.
  set (s := if strictEqString _ "true" then _ else _).
  assert (Hs : countOf P (snd (fst s)) = 0%nat).
  { subst s. destruct (strictEqString _ "true"); [ | reflexivity ].
    destruct (startCondition _ _ _); [ | reflexivity ].
    simpl. now rewrite countOf_cons, P_console. }
  destruct s as [[t1 ev1] w1]. simpl in Hs.
  rewrite Part000_adjustDeal_eq.
  destruct (Part000.has _ t1 && _); simpl;
    [ | now rewrite countOf_app, Hs ].
  pose proof (adjustProductPrices_count Part000.priceIncrement
                (field (fieldsOf (deal_fields deal)) "product")
                (deal_id deal) w1) as Hp.
  unfold Part000.adjustProductPrices.
  destruct (Core.adjustProductPrices _ _ _ w1) as [[b ev2] w2].
  simpl in Hp.
  destruct b; simpl; rewrite ?countOf_app, Hs, Hp, ?countOf_cons,
    ?P_console; reflexivity.
Qed.

Lemma Part000_forDeals_count (deals : list DealNode) (t : gmap string bool)
    (w : W) :
  countOf P (snd (fst (Part000.forDeals deals t w))) = 0%nat.
Proof.
  revert t w. induction deals as [|deal deals IH]; intros t w; simpl.
  - reflexivity.
  - eff. pose proof (Part000_processDeal_count deal t w) as Hd.
    destruct (Part000.processDeal deal t w) as [[t1 ev1] w1].
    specialize (IH t1 w1).
    destruct (Part000.forDeals deals t1 w1) as [[t2 ev2] w2].
    simpl in *. rewrite countOf_app. lia.
Qed.

Lemma Part000_cycle_count (t : gmap string bool) (w : W) :
  countOf P (snd (fst (Part000.fetchAndProcessDeals t w)))
  = if P (Requested FETCH_DEALS_QUERY) then 1%nat else 0%nat.
Proof.
  unfold Part000.fetchAndProcessDeals. eff.
  destruct (request FETCH_DEALS_QUERY w) as [[| |deals] w1]; simpl;
    try (rewrite !countOf_cons, P_console; simpl; unfold countOf; simpl;
         lia).
  pose proof (Part000_forDeals_count deals t w1) as Hf.
  destruct (Part000.forDeals deals t w1) as [[t1 ev1] w2].
  simpl in *. rewrite !countOf_cons, P_console, Hf. simpl. lia.
Qed.

Lemma Part000_main_count (cycles : nat) (t : gmap string bool) (w : W) :
  countOf P (snd (fst (Part000.main cycles t w)))
  = (cycles * if P (Requested FETCH_DEALS_QUERY) then 1 else 0)%nat.
Proof.
  revert t w. induction cycles as [|n IH]; intros t w; simpl.
  - reflexivity.
  - eff. pose proof (Part000_cycle_count t w) as Hc.
    destruct (Part000.fetchAndProcessDeals t w) as [[t1 ev1] w1].
    specialize (IH t1 (setTimeout Part000.dealDuration w1)).
    destruct (Part000.main n t1 _) as [[t2 ev2] w2].
    simpl in *. rewrite countOf_app, Hc, IH. reflexivity.
Qed.

Hypothesis P_marker : forall id, P (Requested (UPDATE_DEAL_MUTATION id)) = false.

Lemma Index_processDeal_count (deal : DealNode) (t : gset string) (w : W) :
  countOf P (snd (fst (Index.processDeal deal t w))) = 0%nat.
Proof.
  unfold Index.processDeal. eff.
  rewrite Index_startDeal_eq.
  set (s := if strictEqString _ "true" then _ else _).
  assert (Hs : countOf P (snd (fst s)) = 0%nat).
  { subst s. destruct (strictEqString _ "true"); [ | reflexivity ].
    destruct (startCondition _ _ _ && _); [ | reflexivity ].
    destruct (updateDeal_events (deal_id deal) (snd (Date_now w)))
      as [m [Hev _]].
    destruct (Index.updateDeal _ _) as [[u ev] w2]. simpl in *. subst ev.
    simpl. now rewrite !countOf_cons, P_marker, !P_console. }
  destruct s as [[t1 ev1] w1]. simpl in Hs.
  rewrite Index_adjustDeal_eq.
  destruct (bool_decide _); simpl; [ | now rewrite countOf_app, Hs ].
  pose proof (adjustProductPrices_count Index.increment
                (field (fieldsOf (deal_fields deal)) "product")
                (deal_id deal) w1) as Hp.
  unfold Index.adjustProductPrices.
  destruct (Core.adjustProductPrices _ _ _ w1) as [[b ev2] w2].
  simpl in Hp.
  destruct b; simpl; rewrite ?countOf_app, Hs, Hp, ?countOf_cons,
    ?P_console; reflexivity.
Qed.

Lemma Index_forDeals_count (deals : list DealNode) (t : gset string)
    (w : W) :
  countOf P (snd (fst (Index.forDeals deals t w))) = 0%nat.
Proof.
  revert t w. induction deals as [|deal deals IH]; intros t w; simpl.
  - reflexivity.
  - eff. pose proof (Index_processDeal_count deal t w) as Hd.
    destruct (Index.processDeal deal t w) as [[t1 ev1] w1].
    specialize (IH t1 w1).
    destruct (Index.forDeals deals t1 w1) as [[t2 ev2] w2].
    simpl in *. rewrite countOf_app. lia.
Qed.

Lemma Index_cycle_count (t : gset string) (w : W) :
  countOf P (snd (fst (Index.fetchAndProcessDeals t w)))
  = if P (Requested FETCH_DEALS_QUERY) then 1%nat else 0%nat.
Proof.
  unfold Index.fetchAndProcessDeals. eff.
  destruct (request FETCH_DEALS_QUERY w) as [[| |deals] w1]; simpl;
    try (rewrite !countOf_cons, P_console; simpl; unfold countOf; simpl;
         lia).
  pose proof (Index_forDeals_count deals t w1) as Hf.
  destruct (Index.forDeals deals t w1) as [[t1 ev1] w2].
  simpl in *. rewrite !countOf_cons, Hf. simpl. lia.
Qed.

Lemma Index_main_count (cycles : nat) (t : gset string) (w : W) :
  countOf P (snd (fst (Index.main cycles t w)))
  = (cycles * if P (Requested FETCH_DEALS_QUERY) then 1 else 0)%nat.
Proof.
  revert t w. induction cycles as [|n IH]; intros t w; simpl.
  - reflexivity.
  - eff. pose proof (Index_cycle_count t w) as Hc.
    destruct (Index.fetchAndProcessDeals t w) as [[t1 ev1] w1].
    specialize (IH t1 (setTimeout 30000 w1)).
    destruct (Index.main n t1 _) as [[t2 ev2] w2].
    simpl in *. rewrite countOf_app, Hc, IH. reflexivity.
Qed.

End CountingFacts.

Section RunCounts.
Context {W : Type} `{!Host W}.

Lemma isDealsFetch_pass (e : Event) : ofAPass e = true -> isDealsFetch e = false.
Proof. destruct e as [[]|]; simpl; congruence. Qed.

Lemma isAnyMarker_pass (e : Event) : ofAPass e = true -> isAnyMarker e = false.
Proof. destruct e as [[]|]; simpl; congruence. Qed.

Lemma isMarkerOf_pass (id : string) (e : Event) :
  ofAPass e = true -> isMarkerOf id e = false.
Proof. destruct e as [[]|]; simpl; congruence. Qed.

Lemma isStartOf_pass (id : string) (e : Event) :
  ofAPass e = true -> isStartOf id e = false.
Proof. destruct e as [[]|[]]; simpl; congruence. Qed.

(** X10.  Every cycle asks for the deals exactly once, whatever the
    replies are: in the first [cycles] cycles of either file the deals
    query is sent [cycles] times. *)
Theorem X10_one_deals_query_per_cycle (cycles : nat) (w : W) :
  (forall t : gset string,
      countOf isDealsFetch (snd (fst (Index.main cycles t w))) = cycles) /\
  (forall t : gmap string bool,
      countOf isDealsFetch (snd (fst (Part000.main cycles t w))) = cycles).
Proof.
  split; intros t.
  - rewrite (Index_main_count isDealsFetch isDealsFetch_pass); simpl;
      [ lia | reflexivity | reflexivity ].
  - rewrite (Part000_main_count isDealsFetch isDealsFetch_pass); simpl;
      [ lia | reflexivity ].
Qed.

(** X11.  [part_000] never writes to a deal record: no run of its loop
    sends the deal update mutation, so what it knows about started and
    completed deals lives in its tracker alone. *)
Theorem X11_part000_never_updates_a_deal (cycles : nat)
    (t : gmap string bool) (w : W) :
  countOf isAnyMarker (snd (fst (Part000.main cycles t w))) = 0%nat.
Proof.
  rewrite (Part000_main_count isAnyMarker isAnyMarker_pass); simpl;
    [ lia | reflexivity ].
Qed.

Lemma Index_processDeal_marks (id : string) (deal : DealNode)
    (t : gset string) (w : W) :
  markersOf id (snd (fst (Index.processDeal deal t w)))
  = startsOf id (snd (fst (Index.processDeal deal t w))).
Proof.
  change markersOf with (fun id => countOf (isMarkerOf id)).
  change startsOf with (fun id => countOf (isStartOf id)). cbv beta.
  unfold Index.processDeal. eff.
  rewrite Index_startDeal_eq.
  set (s := if strictEqString _ "true" then _ else _).
  assert (Hs : countOf (isMarkerOf id) (snd (fst s))
               = countOf (isStartOf id) (snd (fst s))).
  { subst s. destruct (strictEqString _ "true"); [ | reflexivity ].
    destruct (startCondition _ _ _ && _); [ | reflexivity ].
    destruct (updateDeal_events (deal_id deal) (snd (Date_now w)))
      as [m [Hev Hm]].
    destruct (Index.updateDeal _ _) as [[u ev] w2]. simpl in *. subst ev.
    simpl. rewrite !countOf_cons. simpl.
    destruct m; simpl; try reflexivity. now destruct (Hm id0). }
  destruct s as [[t1 ev1] w1]. simpl in Hs.
  rewrite Index_adjustDeal_eq.
  destruct (bool_decide _); simpl; [ | now rewrite !countOf_app, Hs ].
  pose proof (adjustProductPrices_count (isMarkerOf id) (isMarkerOf_pass id)
                Index.increment
                (field (fieldsOf (deal_fields deal)) "product")
                (deal_id deal) w1) as Hp.
  pose proof (adjustProductPrices_count (isStartOf id) (isStartOf_pass id)
                Index.increment
                (field (fieldsOf (deal_fields deal)) "product")
                (deal_id deal) w1) as Hq.
  unfold Index.adjustProductPrices.
  destruct (Core.adjustProductPrices _ _ _ w1) as [[b ev2] w2].
  simpl in Hp, Hq.
  destruct b; simpl; rewrite ?countOf_app, Hs, Hp, Hq, ?countOf_cons;
    reflexivity.
Qed.

Lemma Index_forDeals_marks (id : string) (deals : list DealNode)
    (t : gset string) (w : W) :
  markersOf id (snd (fst (Index.forDeals deals t w)))
  = startsOf id (snd (fst (Index.forDeals deals t w))).
Proof.
  revert t w. induction deals as [|deal deals IH]; intros t w; simpl.
  - reflexivity.
  - eff. pose proof (Index_processDeal_marks id deal t w) as Hd.
    destruct (Index.processDeal deal t w) as [[t1 ev1] w1].
    specialize (IH t1 w1).
    destruct (Index.forDeals deals t1 w1) as [[t2 ev2] w2].
    simpl in *. unfold markersOf, startsOf in *.
    rewrite !List.filter_app, !length_app. lia.
Qed.

Lemma Index_cycle_marks (id : string) (t : gset string) (w : W) :
  markersOf id (snd (fst (Index.fetchAndProcessDeals t w)))
  = startsOf id (snd (fst (Index.fetchAndProcessDeals t w))).
Proof.
  unfold Index.fetchAndProcessDeals. eff.
  destruct (request FETCH_DEALS_QUERY w) as [[| |deals] w1]; simpl;
    try reflexivity.
  pose proof (Index_forDeals_marks id deals t w1) as Hf.
  destruct (Index.forDeals deals t w1) as [[t1 ev1] w2]. exact Hf.
Qed.

(** X12.  In [index.js] every start is written back to the deal record:
    in any run, the deal update mutation is sent for a deal exactly as
    often as the start of that deal is announced (whether or not the
    gateway accepts it), and never on any other occasion. *)
Theorem X12_index_marks_every_start (id : string) (cycles : nat)
    (t : gset string) (w : W) :
  markersOf id (snd (fst (Index.main cycles t w)))
  = startsOf id (snd (fst (Index.main cycles t w))).
Proof.
  revert t w. induction cycles as [|n IH]; intros t w; simpl.
  - reflexivity.
  - eff. pose proof (Index_cycle_marks id t w) as Hc.
    destruct (Index.fetchAndProcessDeals t w) as [[t1 ev1] w1].
    specialize (IH t1 (setTimeout 30000 w1)).
    destruct (Index.main n t1 _) as [[t2 ev2] w2].
    simpl in *. unfold markersOf, startsOf in *.
    rewrite !List.filter_app, !length_app. lia.
Qed.

End RunCounts.

Section ScanFacts.
Context {W : Type} `{!Host W}.

Lemma lt_not_strictEq (x y : JS.number) :
  JS.lt x y = true -> JS.strictEq x y = false.
Proof.
  unfold JS.lt, JS.strictEq, SFltb, SFeqb.
  destruct (SFcompare x y) as [[]|]; congruence.
Qed.

(** X13.  While adding the increment leaves the price below the
    compare-at price (and the remaining difference is not below the
    increment), the stepper sends the sum of price and increment, to two
    decimals, and answers [false] when the gateway accepts it: the variant
    is not complete after an intermediate step. *)
Theorem X13_intermediate_step_is_not_complete
    (increment : JS.number) (v : Variant) (w : W) :
  let currentPrice := JS.parseFloat (price v) in
  let compareAtPrice := JS.parseFloat (toStringNullable (compareAtPrice v)) in
  let newPrice := JS.add currentPrice increment in
  let r := UPDATE_PRODUCT_VARIANT_MUTATION (variant_id v)
                                           (JS.toFixed 2 newPrice) in
  JS.lt currentPrice compareAtPrice = true ->
  JS.lt (JS.sub compareAtPrice currentPrice) increment = false ->
  JS.lt newPrice compareAtPrice = true ->
  fst (request r w) = Data [] ->
  Core.incrementVariantPrice increment v w =
    (false,
     [Requested r;
      Console (Updated_variant_price (variant_id v) (JS.toFixed 2 newPrice))],
     snd (request r w)).
Proof.
  intros currentPrice compareAtPrice newPrice r Hlt Hfar Hbelow Hok.
  assert (Hnew : Core.newPriceOf increment currentPrice compareAtPrice
                 = newPrice).
  { unfold Core.newPriceOf. rewrite Hfar.
    destruct (lt_not_NaN _ _ Hbelow) as [Ha Hb].
    unfold JS.Math_min. fold newPrice. now rewrite Ha, Hb, Hbelow. }
  rewrite (stepper_active increment v w Hlt). cbv zeta.
  fold currentPrice compareAtPrice. rewrite Hnew. fold r. rewrite Hok.
  now rewrite (lt_not_strictEq _ _ Hbelow).
Qed.

(** X14.  When the product of a tracked deal cannot be fetched (the query
    is rejected, answered with [errors], or yields no product), the deal
    is not completed: both files return the tracker as it was, and the
    product query is the only request. *)
Theorem X14_unfetchable_product_keeps_the_deal (deal : DealNode) (w : W) :
  let id := deal_id deal in
  let productId := field (fieldsOf (deal_fields deal)) "product" in
  match fst (request (FETCH_PRODUCT_QUERY productId) w) with
  | Data (Some _) => False
  | _ => True
  end ->
  (forall t : gset string,
      id ∈ t ->
      fst (fst (Index.adjustDeal deal t w)) = t /\
      requestsOf (snd (fst (Index.adjustDeal deal t w)))
        = [FETCH_PRODUCT_QUERY productId]) /\
  (forall t : gmap string bool,
      Part000.has id t = true -> Part000.truthy id t = false ->
      fst (fst (Part000.adjustDeal deal t w)) = t /\
      requestsOf (snd (fst (Part000.adjustDeal deal t w)))
        = [FETCH_PRODUCT_QUERY productId]).
Proof.
  intros id productId Hfail.
  assert (Hpass : forall increment,
    fst (fst (Core.adjustProductPrices increment productId id w)) = false /\
    requestsOf (snd (fst (Core.adjustProductPrices increment productId id w)))
      = [FETCH_PRODUCT_QUERY productId]).
  { intros increment. unfold Core.adjustProductPrices. eff.
    destruct (request (FETCH_PRODUCT_QUERY productId) w)
      as [[| |[product|]] w1]; simpl in *; auto; contradiction. }
  split.
  - intros t Hin. rewrite Index_adjustDeal_eq. fold id productId.
    rewrite bool_decide_eq_true_2 by exact Hin.
    destruct (Hpass Index.increment) as [Hb Hr].
    unfold Index.adjustProductPrices.
    destruct (Core.adjustProductPrices _ _ _ w) as [[b ev] w1].
    simpl in Hb, Hr. subst b. auto.
  - intros t Hhas Htruthy. rewrite Part000_adjustDeal_eq. fold id productId.
    rewrite Hhas, Htruthy. simpl.
    destruct (Hpass Part000.priceIncrement) as [Hb Hr].
    unfold Part000.adjustProductPrices.
    destruct (Core.adjustProductPrices _ _ _ w) as [[b ev] w1].
    simpl in Hb, Hr. subst b. auto.
Qed.

(** X15.  In [index.js] a deal that is started is adjusted in the same
    scan: the requests of the scan are the deal update mutation followed
    by the requests of a pass over the product of the deal, made in the
    world the mutation left, and the deal is tracked afterwards exactly
    when that pass is not complete. *)
Theorem X15_index_started_deal_is_adjusted_at_once
    (deal : DealNode) (t : gset string) (w : W) :
  let id := deal_id deal in
  let fields := fieldsOf (deal_fields deal) in
  let pass :=
    Index.adjustProductPrices (field fields "product") id
      (snd (Index.updateDeal id (snd (Date_now w)))) in
  startCondition (W := W) fields (fst (Date_now w))
                 (negb (bool_decide (id ∈ t)))
  && negb (strictEqString (field fields "wtf_pricing_started") "true")
  = true ->
  requestsOf (snd (fst (Index.processDeal deal t w)))
    = UPDATE_DEAL_MUTATION id :: requestsOf (snd (fst pass)) /\
  (id ∈ fst (fst (Index.processDeal deal t w)) <-> fst (fst pass) = false).
Proof.
  intros id fields pass Hstart.
  assert (Hflag : strictEqString (field fields "wtf_pricing") "true" = true).
  { unfold startCondition in Hstart.
    destruct (strictEqString (field fields "wtf_pricing") "true");
      [ reflexivity | discriminate ]. }
  unfold Index.processDeal. eff.
  rewrite Index_startDeal_eq. fold id fields. rewrite Hflag, Hstart.
  destruct (updateDeal_events id (snd (Date_now w))) as [m [Hev _]].
  subst pass.
  destruct (Index.updateDeal id (snd (Date_now w))) as [[u ev] w1].
  simpl in Hev. subst ev. cbn [fst snd].
  rewrite Index_adjustDeal_eq. fold id fields.
  rewrite bool_decide_eq_true_2 by (apply elem_of_union_l, elem_of_singleton;
                                    reflexivity).
  destruct (Index.adjustProductPrices (field fields "product") id w1)
    as [[b ev2] w2].
  destruct b; simpl; rewrite ?requestsOf_app; simpl; rewrite ?app_nil_r;
    (split; [ reflexivity |]).
  - rewrite elem_of_difference, elem_of_singleton. split; [ tauto | discriminate ].
  - rewrite elem_of_union, elem_of_singleton. tauto.
Qed.

Lemma has_false_not_proto (k : string) (o : gmap string bool) :
  Part000.has k o = false -> k <> "__proto__"%string.
Proof.
  intros Hh ->. unfold Part000.has in Hh.
  destruct (o !! "__proto__"%string); discriminate.
Qed.

Lemma truthy_assign_false (k : string) (o : gmap string bool) :
  Part000.has k o = false ->
  Part000.truthy k (Part000.assign k false o) = false.
Proof.
  intros Hh. pose proof (has_false_not_proto k o Hh) as Hne.
  unfold Part000.assign, Part000.truthy.
  destruct (String.eqb_spec k "__proto__") as [E|_]; [ contradiction |].
  now rewrite lookup_insert_eq.
Qed.

(** X16.  In [part_000] a deal that is started is adjusted in the same
    scan: the requests of the scan are those of a pass over the product of
    the deal, the deal has an entry afterwards, and its flag is the answer
    of that pass, so a deal whose product is already at its compare-at
    prices is started and completed at once. *)
Theorem X16_part000_started_deal_is_adjusted_at_once
    (deal : DealNode) (t : gmap string bool) (w : W) :
  let id := deal_id deal in
  let fields := fieldsOf (deal_fields deal) in
  let pass :=
    Part000.adjustProductPrices (field fields "product") id
      (snd (Date_now w)) in
  startCondition (W := W) fields (fst (Date_now w))
                 (negb (Part000.has id t)) = true ->
  requestsOf (snd (fst (Part000.processDeal deal t w)))
    = requestsOf (snd (fst pass)) /\
  Part000.has id (fst (fst (Part000.processDeal deal t w))) = true /\
  Part000.truthy id (fst (fst (Part000.processDeal deal t w)))
    = fst (fst pass).
Proof.
  intros id fields pass Hstart.
  assert (Hflag : strictEqString (field fields "wtf_pricing") "true" = true).
  { unfold startCondition in Hstart.
    destruct (strictEqString (field fields "wtf_pricing") "true");
      [ reflexivity | discriminate ]. }
  assert (Hnew : Part000.has id t = false).
  { unfold startCondition in Hstart.
    destruct (Part000.has id t); [ | reflexivity ].
    simpl in Hstart. now rewrite andb_false_r in Hstart. }
  unfold Part000.processDeal. eff.
  rewrite Part000_startDeal_eq. fold id fields. rewrite Hflag, Hstart.
  rewrite Part000_adjustDeal_eq. fold id fields.
  rewrite has_assign, (truthy_assign_false id t Hnew). simpl.
  subst pass.
  destruct (Part000.adjustProductPrices (field fields "product") id
              (snd (Date_now w))) as [[b ev2] w2].
  destruct b; simpl; rewrite ?requestsOf_app; simpl; rewrite ?app_nil_r;
    (split; [ reflexivity |]).
  - split; [ apply has_assign |].
    apply truthy_assign_true. exact (has_false_not_proto id t Hnew).
  - split; [ apply has_assign |]. exact (truthy_assign_false id t Hnew).
Qed.

(** X17.  The start time of a deal is read with [new Date]: a [null]
    start time is the epoch, so a deal whose pricing flag is ["true"] and
    whose [start_time] is [null] is due as soon as the clock is not
    negative, and is started by either file unless it is tracked (or, in
    [index.js], marked as started). *)
Theorem X17_null_start_time_is_due (deal : DealNode) (w : W) :
  let id := deal_id deal in
  let fields := fieldsOf (deal_fields deal) in
  strictEqString (field fields "wtf_pricing") "true" = true ->
  field fields "start_time" = JNull ->
  0 <= fst (Date_now w) ->
  (forall t : gset string,
      id ∉ t ->
      strictEqString (field fields "wtf_pricing_started") "true" = false ->
      fst (fst (Index.startDeal deal t w)) = {[id]} ∪ t /\
      startsOf id (snd (fst (Index.startDeal deal t w))) = 1%nat) /\
  (forall t : gmap string bool,
      Part000.has id t = false ->
      fst (fst (Part000.startDeal deal t w)) = Part000.assign id false t /\
      startsOf id (snd (fst (Part000.startDeal deal t w))) = 1%nat).
Proof.
  intros id fields Hflag Hnull Hclock.
  assert (Hc : startCondition (W := W) fields (fst (Date_now w)) true = true).
  { unfold startCondition. rewrite Hflag, Hnull. simpl.
    rewrite andb_true_r. apply Z.leb_le. exact Hclock. }
  split.
  - intros t Hout Hunmarked. rewrite Index_startDeal_eq.
    fold id fields. rewrite Hflag, Hunmarked.
    rewrite bool_decide_eq_false_2 by exact Hout. simpl negb.
    rewrite Hc. simpl.
    destruct (updateDeal_events id (snd (Date_now w))) as (m & Ev & Hm).
    destruct (Index.updateDeal id (snd (Date_now w))) as [[u ev] w2].
    simpl in *. subst ev. split; [ reflexivity |].
    unfold startsOf. simpl. rewrite String.eqb_refl.
    destruct m; simpl; try reflexivity.
    exfalso. now apply (Hm id0).
  - intros t Hnew. rewrite Part000_startDeal_eq.
    fold id fields. rewrite Hflag, Hnew. simpl negb. rewrite Hc. simpl.
    split; [ reflexivity | apply startsOf_Deal_added ].
Qed.

(** X18.  A start time that [Date.parse] does not accept gives an invalid
    date, which is not before any instant: such a deal is never started,
    whatever the tracker and the clock are; both files return the tracker
    as it was, announce nothing and send nothing. *)
Theorem X18_unparsable_start_time_never_starts
    (deal : DealNode) (w : W) (s : string) :
  field (fieldsOf (deal_fields deal)) "start_time" = JString s ->
  Date_parse s = None ->
  (forall t : gset string,
      fst (fst (Index.startDeal deal t w)) = t /\
      snd (fst (Index.startDeal deal t w)) = []) /\
  (forall t : gmap string bool,
      fst (fst (Part000.startDeal deal t w)) = t /\
      snd (fst (Part000.startDeal deal t w)) = []).
Proof.
  intros Hfield Hparse.
  assert (Hc : forall b,
             startCondition (W := W) (fieldsOf (deal_fields deal))
               (fst (Date_now w)) b = false).
  { intros b. unfold startCondition. rewrite Hfield. simpl.
    rewrite Hparse. simpl. now rewrite andb_false_r. }
  split; intros t.
  - rewrite Index_startDeal_eq, Hc. simpl.
    destruct (strictEqString _ "true"); auto.
  - rewrite Part000_startDeal_eq, Hc.
    destruct (strictEqString _ "true"); auto.
Qed.

End ScanFacts.

(** ** A written price read back *)

(** X19.  A price the stepper writes is read back as the price it wrote:
    for a number that is not negative and prints fewer than [10^15]
    hundredths, [parseFloat] of its two-decimal rendering is a number of
    the same kind that prints as the same string. *)
Theorem X19_written_price_reads_back (x : JS.number) :
  ordinary x = true ->
  cents x < 10 ^ 15 ->
  ordinary (JS.parseFloat (JS.toFixed 2 x)) = true /\
  cents (JS.parseFloat (JS.toFixed 2 x)) = cents x /\
  JS.toFixed 2 (JS.parseFloat (JS.toFixed 2 x)) = JS.toFixed 2 x.
Proof.
  intros Hord Hsmall.
  rewrite (toFixed_cents x Hord).
  pose proof (cents_nonneg x) as Hn.
  rewrite (parseFloat_fixedDigits (cents x) Hn).
  destruct (cents x) as [|p|p] eqn:C; [ | | lia ].
  - repeat split; reflexivity.
  - destruct (cents_of_hundredths p) as (m & e & -> & He & Hc).
    { change (2 ^ 50) with 1125899906842624.
      change (10 ^ 15) with 1000000000000000 in Hsmall. lia. }
    assert (Ho : ordinary (S754_finite false m e) = true).
    { simpl. replace (0 <=? e) with false
        by (symmetry; apply Z.leb_gt; lia). reflexivity. }
    split; [ exact Ho |]. split; [ exact Hc |].
    now rewrite (toFixed_cents _ Ho), Hc.
Qed.

(* ===================================================================== *)
(** * Part XII.  The further properties at the concrete store             *)
(* ===================================================================== *)

Lemma X2_on_the_settled_tee :
  Core.adjustProductPrices Index.increment
    (JString "gid://shopify/Product/1") "gid://shopify/Metaobject/1"
    Shop.stubborn =
  (true,
   [Requested (FETCH_PRODUCT_QUERY (JString "gid://shopify/Product/1"));
    Console (Prices_adjusted_for_product "Tee")],
   Shop.stubborn).
Proof.
  refine (X2_finished_product_is_left_alone Index.increment
            (JString "gid://shopify/Product/1") "gid://shopify/Metaobject/1"
            Shop.stubborn Shop.settledTee _ _).
  - vm_compute. reflexivity.
  - constructor; [ vm_compute; reflexivity | constructor ].
Defined.

Lemma X3_on_the_last_step :
  fst (fst (Core.incrementVariantPrice Index.increment Samples.nearlyThere
              Shop.opening)) = true /\
  requestsOf (snd (fst (Core.incrementVariantPrice Index.increment
                          Samples.nearlyThere Shop.opening))) =
    [UPDATE_PRODUCT_VARIANT_MUTATION "gid://shopify/ProductVariant/4"
                                     "100.00"].
Proof.
  rewrite (X3_last_step_lands_on_target Index.increment Samples.nearlyThere
             Shop.opening).
  - split; vm_compute; reflexivity.
  - vm_compute. reflexivity.
  - left. vm_compute. reflexivity.
  - vm_compute. reflexivity.
Defined.

Lemma X4_on_the_product_of_the_deal :
  field (fieldsOf (deal_fields Shop.deal1)) "product"
    = JString "gid://shopify/Product/1" /\
  field (fieldsOf (deal_fields Shop.deal1)) "wtf_pricing_started"
    = JUndefined.
Proof.
  split.
  - rewrite (X4_last_field_wins (deal_fields Shop.deal1) "product")
      by (vm_compute; reflexivity).
    vm_compute. reflexivity.
  - rewrite (X4_last_field_wins (deal_fields Shop.deal1)
               "wtf_pricing_started") by (vm_compute; reflexivity).
    vm_compute. reflexivity.
Defined.

Lemma X5_on_the_unscheduled_deal :
  fst (fst (Index.startDeal Samples.unscheduled ∅ Shop.opening)) = ∅ /\
  snd (fst (Part000.startDeal Samples.unscheduled ∅ Shop.opening)) = [].
Proof.
  destruct (X5_incomplete_record_is_not_started Samples.unscheduled
              Shop.opening) as [Hi Hp].
  - right. repeat constructor; simpl; discriminate.
  - split; [ exact (proj1 (Hi ∅)) | exact (proj2 (Hp ∅)) ].
Defined.

Lemma X6_on_a_completed_deal :
  fst (fst (Part000.processDeal Shop.deal1
              {[ "gid://shopify/Metaobject/1"%string := true ]}
              Shop.opening)) =
    {[ "gid://shopify/Metaobject/1"%string := true ]} /\
  snd (fst (Part000.processDeal Shop.deal1
              {[ "gid://shopify/Metaobject/1"%string := true ]}
              Shop.opening)) = [].
Proof.
  apply (X6_part000_completed_deal_costs_nothing Shop.deal1
           {[ "gid://shopify/Metaobject/1"%string := true ]} Shop.opening).
  vm_compute. reflexivity.
Defined.

Lemma X7_on_the_marked_deal :
  fst (fst (Index.processDeal Shop.markedDeal ∅ Shop.opening)) = ∅ /\
  snd (fst (Index.processDeal Shop.markedDeal ∅ Shop.opening)) = [].
Proof.
  apply (X7_index_marked_deal_costs_nothing Shop.markedDeal ∅ Shop.opening).
  - vm_compute. reflexivity.
  - apply not_elem_of_empty.
Defined.

Lemma X8_on_an_unlisted_deal :
  "gid://shopify/Metaobject/2"%string
    ∈ fst (fst (Index.fetchAndProcessDeals
                  {[ "gid://shopify/Metaobject/2"%string ]} Shop.opening)) /\
  fst (fst (Part000.fetchAndProcessDeals
              {[ "gid://shopify/Metaobject/2"%string := false ]}
              Shop.opening)) !! "gid://shopify/Metaobject/2"%string
    = Some false.
Proof.
  destruct (X8_cycle_leaves_unlisted_deals_alone
              "gid://shopify/Metaobject/2" Shop.opening) as [Hi Hp].
  - simpl. intros [E|[]]. discriminate E.
  - split.
    + apply Hi. apply elem_of_singleton. reflexivity.
    + rewrite Hp. apply lookup_singleton_eq.
Defined.

Lemma X9_on_the_outage :
  fst (fst (Index.fetchAndProcessDeals
              {[ "gid://shopify/Metaobject/1"%string ]} tt))
    = {[ "gid://shopify/Metaobject/1"%string ]} /\
  requestsOf (snd (fst (Part000.fetchAndProcessDeals ∅ tt)))
    = [FETCH_DEALS_QUERY].
Proof.
  destruct (X9_failed_deals_fetch_ends_the_cycle tt) as [Hi Hp].
  - simpl. exact I.
  - split; [ exact (proj1 (Hi _)) | exact (proj2 (Hp _)) ].
Defined.

Lemma X13_on_the_shirt :
  Core.incrementVariantPrice Index.increment Shop.shirt Shop.opening =
    (false,
     [Requested (UPDATE_PRODUCT_VARIANT_MUTATION
                   "gid://shopify/ProductVariant/1" "90.00");
      Console (Updated_variant_price "gid://shopify/ProductVariant/1"
                                     "90.00")],
     snd (request (UPDATE_PRODUCT_VARIANT_MUTATION
                     "gid://shopify/ProductVariant/1" "90.00")
                  Shop.opening)).
Proof.
  apply (X13_intermediate_step_is_not_complete Index.increment Shop.shirt
           Shop.opening); vm_compute; reflexivity.
Defined.

Lemma X14_on_the_deleted_product :
  fst (fst (Index.adjustDeal Shop.deal1
              {[ "gid://shopify/Metaobject/1"%string ]} Samples.soldOut))
    = {[ "gid://shopify/Metaobject/1"%string ]} /\
  requestsOf (snd (fst (Part000.adjustDeal Shop.deal1
              {[ "gid://shopify/Metaobject/1"%string := false ]}
              Samples.soldOut)))
    = [FETCH_PRODUCT_QUERY (JString "gid://shopify/Product/1")].
Proof.
  destruct (X14_unfetchable_product_keeps_the_deal Shop.deal1
              Samples.soldOut) as [Hi Hp].
  - vm_compute. exact I.
  - split.
    + apply Hi. apply elem_of_singleton. reflexivity.
    + apply Hp; vm_compute; reflexivity.
Defined.

Lemma X15_on_the_opening_store :
  requestsOf (snd (fst (Index.processDeal Shop.deal1 ∅ Shop.opening))) =
    [UPDATE_DEAL_MUTATION "gid://shopify/Metaobject/1";
     FETCH_PRODUCT_QUERY (JString "gid://shopify/Product/1");
     UPDATE_PRODUCT_VARIANT_MUTATION "gid://shopify/ProductVariant/1"
                                     "90.00"].
Proof.
  destruct (X15_index_started_deal_is_adjusted_at_once Shop.deal1 ∅
              Shop.opening) as [H _].
  - vm_compute. reflexivity.
  - rewrite H. vm_compute. reflexivity.
Defined.

Lemma X16_on_the_opening_store :
  requestsOf (snd (fst (Part000.processDeal Shop.deal1 ∅ Shop.opening))) =
    [FETCH_PRODUCT_QUERY (JString "gid://shopify/Product/1");
     UPDATE_PRODUCT_VARIANT_MUTATION "gid://shopify/ProductVariant/1"
                                     "89.99"].
Proof.
  destruct (X16_part000_started_deal_is_adjusted_at_once Shop.deal1 ∅
              Shop.opening) as [H _].
  - vm_compute. reflexivity.
  - rewrite H. vm_compute. reflexivity.
Defined.

Lemma X17_on_the_undated_deal :
  fst (fst (Index.startDeal Samples.undated ∅ Shop.opening))
    = {[ "gid://shopify/Metaobject/3"%string ]} ∪ ∅ /\
  startsOf "gid://shopify/Metaobject/3"
    (snd (fst (Part000.startDeal Samples.undated ∅ Shop.opening))) = 1%nat.
Proof.
  destruct (X17_null_start_time_is_due Samples.undated Shop.opening)
    as [Hi Hp].
  - vm_compute. reflexivity.
  - vm_compute. reflexivity.
  - vm_compute. discriminate.
  - split.
    + apply Hi; [ apply not_elem_of_empty | vm_compute; reflexivity ].
    + apply Hp. vm_compute. reflexivity.
Defined.

Lemma X18_on_the_misdated_deal :
  fst (fst (Index.startDeal Samples.misdated ∅ Shop.opening)) = ∅ /\
  snd (fst (Part000.startDeal Samples.misdated ∅ Shop.opening)) = [].
Proof.
  destruct (X18_unparsable_start_time_never_starts Samples.misdated
              Shop.opening "tomorrow") as [Hi Hp].
  - vm_compute. reflexivity.
  - vm_compute. reflexivity.
  - split; [ exact (proj1 (Hi ∅)) | exact (proj2 (Hp ∅)) ].
Defined.

Lemma X19_on_a_sum :
  JS.toFixed 2
    (JS.parseFloat
       (JS.toFixed 2 (JS.add (JS.parseFloat "1.13") Index.increment)))
  = "11.13"%string.
Proof.
  destruct (X19_written_price_reads_back
              (JS.add (JS.parseFloat "1.13") Index.increment))
    as (_ & _ & H).
  - vm_compute. reflexivity.
  - vm_compute. reflexivity.
  - rewrite H. vm_compute. reflexivity.
Defined.
